(** * Request deduplication: a shallow embedding of [src/request/deduplicator.ts]

    The development has three parts.

    - [Key canonicalization]: the values a request body can hold, the
      built-ins the source calls on them ([Object.keys], [Array.prototype.sort],
      property assignment, [JSON.stringify], [String], [toUpperCase]) and
      the two source functions [sortObjectKeys] and [generateKey].

    - [The deduplicator]: the two tables of [RequestDeduplicator], its
      methods as state transformers, and the promises launched by
      [deduplicate] and [execute], with the settlement reactions the source
      installs on them; first for operations that make no call on the
      deduplicator while they are invoked, then for all.

    - [The error handler] of [src/error/handler.ts].

    Scope of the value model.  Request data is a finite tree of
    [undefined], [null], booleans, integral numbers, bigints, strings,
    arrays and plain objects (own enumerable string-keyed data properties,
    listed in enumeration order, with [Object.prototype] as prototype).  No
    value of the model is a function, so a property named [toString] or
    [toJSON] is never callable.  Cyclic object graphs, accessors, proxies,
    functions, symbols and non-integral numbers are outside the model.

    Two printing functions are exact on a part of their domain only, and
    the theorems that depend on the printed text say so in a hypothesis:
    numbers are printed in decimal, which is what the source prints for
    the safe integers ([safe_numbers]); characters are the code units below
    256, three of which have no upper-case form among them
    ([upper_in_range]). *)

From stdpp Require Import gmap strings list sorting.
From Stdlib Require Import ZArith DecimalString.

Open Scope Z_scope.

(** ** Characters and strings *)

Definition dquote : Ascii.ascii := Ascii.ascii_of_N 34.
Definition backslash : Ascii.ascii := Ascii.ascii_of_N 92.

Definition str1 (c : Ascii.ascii) : string := String c EmptyString.

Fixpoint str_map (f : Ascii.ascii → Ascii.ascii) (s : string) : string :=
  match s with
  | EmptyString => EmptyString
  | String c s' => String (f c) (str_map f s')
  end.

Fixpoint join_with (sep : string) (l : list string) : string :=
  match l with
  | [] => EmptyString
  | [x] => x
  | x :: l' => x +:+ sep +:+ join_with sep l'
  end.

(** [String.prototype.toUpperCase] on code units below 256: a-z and the
    lower-case letters of Latin-1 from 224 to 254 (247 is the division
    sign) move down by 32.  The micro sign (181), the sharp s (223) and the
    y with diaeresis (255) have upper-case forms that are not one code unit
    below 256; they are left as they are here, see [upper_in_range]. *)
Definition upper_char (c : Ascii.ascii) : Ascii.ascii :=
  let n := Ascii.N_of_ascii c in
  if ((97 <=? n) && (n <=? 122) || (224 <=? n) && (n <=? 254) && negb (n =? 247))%N
  then Ascii.ascii_of_N (n - 32) else c.

Definition toUpperCase (s : string) : string := str_map upper_char s.

(** [Number::toString] and [BigInt::toString] on integers: decimal digits,
    a leading minus sign for negatives.  For a number this is what the
    source prints when the integer is safe, see [safe_numbers]. *)
Definition int_to_string (n : Z) : string := NilZero.string_of_int (Z.to_int n).

(** ** Values *)

#[warnings="-register-all"]
Inductive JsValue : Type :=
  | JUndefined
  | JNull
  | JBool (b : bool)
  | JNumber (n : Z)
  | JBigInt (n : Z)
  | JString (s : string)
  | JArray (elems : list JsValue)
  | JObject (props : list (string * JsValue)).

(** Induction with hypotheses for the elements of arrays and the property
    values of objects. *)
Section JsValue_induction.
Variable P : JsValue → Prop.
Hypothesis Hundef : P JUndefined.
Hypothesis Hnull : P JNull.
Hypothesis Hbool : ∀ b, P (JBool b).
Hypothesis Hnum : ∀ n, P (JNumber n).
Hypothesis Hbig : ∀ n, P (JBigInt n).
Hypothesis Hstr : ∀ s, P (JString s).
Hypothesis Harr : ∀ l, Forall P l → P (JArray l).
Hypothesis Hobj : ∀ r, Forall (λ kv, P kv.2) r → P (JObject r).

Fixpoint JsValue_nested_ind (v : JsValue) : P v :=
  match v with
  | JUndefined => Hundef
  | JNull => Hnull
  | JBool b => Hbool b
  | JNumber n => Hnum n
  | JBigInt n => Hbig n
  | JString s => Hstr s
  | JArray l =>
      Harr l ((fix go (l : list JsValue) : Forall P l :=
                 match l with
                 | [] => Forall_nil_2 P
                 | x :: l' => Forall_cons_2 P x l' (JsValue_nested_ind x) (go l')
                 end) l)
  | JObject r =>
      Hobj r ((fix go (r : list (string * JsValue)) : Forall (λ kv, P kv.2) r :=
                 match r with
                 | [] => Forall_nil_2 _
                 | kv :: r' =>
                     Forall_cons_2 (λ kv, P kv.2) kv r' (JsValue_nested_ind kv.2) (go r')
                 end) r)
  end.
End JsValue_induction.

(** ** Objects as property lists

    An object is the list of its own enumerable properties in enumeration
    order, which is what [Object.keys] returns. *)

Definition Object_keys (record : list (string * JsValue)) : list string := record.*1.

(** [record[key]]: the first property named [key], [undefined] when absent. *)
Fixpoint get_prop (record : list (string * JsValue)) (key : string) : JsValue :=
  match record with
  | [] => JUndefined
  | (k, v) :: record' => if decide (k = key) then v else get_prop record' key
  end.

(** [Array.prototype.sort()] without a comparator on an array of strings:
    ascending by code units. *)
Definition sort_keys (keys : list string) : list string := merge_sort String.le keys.

(** An array index is the canonical decimal form of an integer below
    [2^32 - 1]; such keys are enumerated first, in numeric order. *)
Definition array_index (k : string) : option N :=
  match NilZero.uint_of_string k with
  | Some d =>
      let n := N.of_uint d in
      if decide (NilZero.string_of_uint (N.to_uint n) = k ∧ (n < 4294967295)%N)
      then Some n else None
  | None => None
  end.

Fixpoint has_prop (o : list (string * JsValue)) (k : string) : bool :=
  match o with
  | [] => false
  | (k', _) :: o' => if decide (k' = k) then true else has_prop o' k
  end.

Fixpoint replace_prop (o : list (string * JsValue)) (k : string) (v : JsValue)
  : list (string * JsValue) :=
  match o with
  | [] => []
  | (k', v') :: o' =>
      if decide (k' = k) then (k, v) :: o' else (k', v') :: replace_prop o' k v
  end.

(** Position of a new array-index key: after the indices below it, before
    everything else. *)
Fixpoint insert_index (i : N) (k : string) (v : JsValue) (o : list (string * JsValue))
  : list (string * JsValue) :=
  match o with
  | [] => [(k, v)]
  | (k', v') :: o' =>
      match array_index k' with
      | Some j => if (j <? i)%N then (k', v') :: insert_index i k v o'
                  else (k, v) :: (k', v') :: o'
      | None => (k, v) :: (k', v') :: o'
      end
  end.

(** [result[key] = v] on an object that started as the literal [{}].
    Assigning to [__proto__] runs the setter inherited from
    [Object.prototype] and creates no own property; when [v] is an object
    or [null] it makes [v] the prototype of [result], which the property
    list does not record.  [generateKey] never looks at the prototype of a
    normalized value: [JSON.stringify] serializes own properties, and
    [String] is applied to the raw data.  Where a normalized value is used
    as data again, the statement excludes the property name, see
    [no_proto_property]. *)
Definition set_prop (result : list (string * JsValue)) (key : string) (v : JsValue)
  : list (string * JsValue) :=
  if decide (key = "__proto__") then result
  else if has_prop result key then replace_prop result key v
  else match array_index key with
       | Some i => insert_index i key v result
       | None => result ++ [(key, v)]
       end.

(** ** [sortObjectKeys]

    The source recurses on [record[key]] inside the [reduce]; here the
    recursive calls are made on the property list first and the [reduce]
    reads the normalized values by key, which is the same computation (see
    [sortObjectKeys_object]). *)
Fixpoint sortObjectKeys (obj : JsValue) : JsValue :=
  match obj with
  | JArray l => JArray (map sortObjectKeys l)
  | JObject record =>
      let normalized :=
        (fix go (r : list (string * JsValue)) : list (string * JsValue) :=
           match r with
           | [] => []
           | (k, v) :: r' => (k, sortObjectKeys v) :: go r'
           end) record in
      JObject (fold_left (λ result key, set_prop result key (get_prop normalized key))
                 (sort_keys (Object_keys record)) [])
  | _ => obj
  end.

(** ** [JSON.stringify] *)

Definition hex_digit (n : N) : Ascii.ascii :=
  Ascii.ascii_of_N (if (n <? 10)%N then 48 + n else 87 + n).

(** One code unit inside a JSON string literal. *)
Definition quote_char (c : Ascii.ascii) : string :=
  let n := Ascii.N_of_ascii c in
  if decide (n = 8%N) then String backslash "b"
  else if decide (n = 9%N) then String backslash "t"
  else if decide (n = 10%N) then String backslash "n"
  else if decide (n = 12%N) then String backslash "f"
  else if decide (n = 13%N) then String backslash "r"
  else if decide (n = 34%N) then String backslash (str1 dquote)
  else if decide (n = 92%N) then String backslash (str1 backslash)
  else if (n <? 32)%N then
    String backslash ("u00" +:+ String (hex_digit (n / 16)) (str1 (hex_digit (n mod 16))))
  else str1 c.

Fixpoint quote_body (s : string) : string :=
  match s with
  | EmptyString => EmptyString
  | String c s' => quote_char c +:+ quote_body s'
  end.

Definition QuoteJSONString (s : string) : string :=
  String dquote (quote_body s +:+ str1 dquote).

(** The three ways a serialization step can end. *)
Inductive Serialized : Type :=
  | ThrowsTypeError
  | YieldsUndefined
  | Yields (s : string).

Fixpoint SerializeJSONProperty (v : JsValue) : Serialized :=
  match v with
  | JUndefined => YieldsUndefined
  | JNull => Yields "null"
  | JBool true => Yields "true"
  | JBool false => Yields "false"
  | JNumber n => Yields (int_to_string n)
  | JBigInt _ => ThrowsTypeError
  | JString s => Yields (QuoteJSONString s)
  | JArray l =>
      let parts :=
        (fix go (l : list JsValue) : option (list string) :=
           match l with
           | [] => Some []
           | x :: l' =>
               match SerializeJSONProperty x with
               | ThrowsTypeError => None
               | YieldsUndefined => cons "null"%string <$> go l'
               | Yields s => cons s <$> go l'
               end
           end) l in
      match parts with
      | Some ps => Yields ("[" +:+ join_with "," ps +:+ "]")
      | None => ThrowsTypeError
      end
  | JObject r =>
      let parts :=
        (fix go (r : list (string * JsValue)) : option (list string) :=
           match r with
           | [] => Some []
           | (k, x) :: r' =>
               match SerializeJSONProperty x with
               | ThrowsTypeError => None
               | YieldsUndefined => go r'
               | Yields s => cons (QuoteJSONString k +:+ ":" +:+ s) <$> go r'
               end
           end) r in
      match parts with
      | Some ps => Yields ("{" +:+ join_with "," ps +:+ "}")
      | None => ThrowsTypeError
      end
  end.

Definition JSON_stringify (v : JsValue) : Serialized := SerializeJSONProperty v.

(** ** [String(data)]

    [None] stands for a thrown [TypeError].  An object is converted by
    [OrdinaryToPrimitive]: it reads [toString] and calls it when it is
    callable, then does the same with [valueOf], and throws when neither
    call gave a primitive.  With no own property [toString] the method
    found is [Object.prototype.toString], which returns
    ["[object Object]"].  An own property [toString] hides it and is not
    callable; [valueOf] is then not callable either, or is
    [Object.prototype.valueOf], which returns the object itself; so the
    conversion throws.  An array is converted by [Array.prototype.join],
    which converts the elements in turn. *)

Fixpoint ToString (v : JsValue) : option string :=
  match v with
  | JUndefined => Some "undefined"%string
  | JNull => Some "null"%string
  | JBool true => Some "true"%string
  | JBool false => Some "false"%string
  | JNumber n => Some (int_to_string n)
  | JBigInt n => Some (int_to_string n)
  | JString s => Some s
  | JArray l =>
      join_with "," <$>
        (fix go (l : list JsValue) : option (list string) :=
           match l with
           | [] => Some []
           | x :: l' =>
               match (match x with
                      | JUndefined | JNull => Some EmptyString
                      | _ => ToString x
                      end) with
               | Some s => cons s <$> go l'
               | None => None
               end
           end) l
  | JObject r => if has_prop r "toString" then None else Some "[object Object]"%string
  end.

(** ** [generateKey] *)

(** What the [try]/[catch] block leaves in [dataKey]; [None] when the
    [catch] block itself throws, which nothing catches. *)
Definition dataKey_of (data : JsValue) : option string :=
  match JSON_stringify (sortObjectKeys data) with
  | Yields s => Some s
  | YieldsUndefined => Some "undefined"%string
  | ThrowsTypeError => ToString data
  end.

(** [None] when [generateKey] throws. *)
Definition generateKey (method url : string) (data : JsValue) : option string :=
  let dataKey :=
    match data with
    | JUndefined => Some EmptyString
    | _ => dataKey_of data
    end in
  (λ dataKey, toUpperCase method +:+ ":" +:+ url +:+ ":" +:+ dataKey) <$> dataKey.

(** * The deduplicator *)

(** ** Data *)

Record ExecuteOptions : Type := {
  method : string;
  url : string;
  data : JsValue;                    (* [undefined] when omitted *)
  blockAfterComplete : option Z;     (* [None] when omitted *)
}.

Inductive Reason : Type := in_progress | recently_completed.

Definition DuplicateRequestError_message (reason : Reason) : string :=
  match reason with
  | in_progress => "Request is already in progress"
  | recently_completed => "Request was recently completed"
  end.

Record PendingEntry : Type := {
  promise : nat;       (* identity of the shared promise *)
  startTime : Z;
}.

(** The handle [setInterval] returns. *)
Record Timer : Type := { intervalMs : Z }.

Record RequestDeduplicator : Type := {
  pending : gmap string PendingEntry;
  completed : gmap string Z;
  cleanupIntervalId : option Timer;
  requestTimeout : Z;
}.

(** [new RequestDeduplicator(options)]: [options?.requestTimeout ?? 30000]. *)
Definition new_RequestDeduplicator (requestTimeout : option Z) : RequestDeduplicator :=
  {| pending := ∅; completed := ∅; cleanupIntervalId := None;
     requestTimeout := default 30000 requestTimeout |}.

(** ** Promises

    An operation is the caller's [requestFn].  Invoking it either throws
    on the spot or returns a promise, which the environment settles later;
    [OpBehaviour] says which.  The methods of this section are those of the
    source for an operation that makes no call on the deduplicator while it
    is being invoked; operations that do are added in [Reentrant], below,
    on top of these definitions.  Times are the values [Date.now()]
    returns, in milliseconds; durations are integral milliseconds. *)

Inductive OpBehaviour : Type :=
  | ReturnsPromise
  | ThrowsSync (error : JsValue).

Inductive Outcome : Type :=
  | Fulfilled (result : JsValue)
  | Rejected (error : JsValue).

(** The settlement callbacks a launching call chains on the operation's
    promise, with the variables they capture. *)
Inductive Reaction : Type :=
  | Finally (key : string)                                (* [deduplicate] *)
  | ThenCatch (key : string) (options : ExecuteOptions).  (* [execute] *)

Definition reaction_key (r : Reaction) : string :=
  match r with
  | Finally key => key
  | ThenCatch key _ => key
  end.

(** How an operation ended: what the promise [requestFn] returned settled
    to, and what the promise derived from it by the callbacks settled to.
    The derived promise is the one stored in the Pending Entry and handed
    to callers. *)
Record Settlement : Type := {
  operation : Outcome;
  shared : Outcome;
}.

(** One launched operation; [settlement] is [None] while it is in flight. *)
Record Launched : Type := {
  reaction : Reaction;
  settlement : option Settlement;
}.

Record World : Type := {
  this : RequestDeduplicator;
  promises : list Launched;       (* promise [p] is entry number [p] *)
  invocations : nat;              (* calls of [requestFn] so far *)
}.

Definition new_World (requestTimeout : option Z) : World :=
  {| this := new_RequestDeduplicator requestTimeout; promises := []; invocations := 0 |}.

Inductive Thrown : Type :=
  | DuplicateRequestError (reason : Reason)
  | OperationFailure (error : JsValue)
  | TypeError.                         (* thrown by [generateKey] *)

(** How a call of an [async] method ends: its promise rejects at once, or
    it resolves to promise [p] and from then on follows it. *)
Inductive CallResult : Type :=
  | Throws (t : Thrown)
  | Returns (p : nat).

(** ** Methods *)

Definition with_pending (f : gmap string PendingEntry → gmap string PendingEntry)
    (d : RequestDeduplicator) : RequestDeduplicator :=
  {| pending := f (pending d); completed := completed d;
     cleanupIntervalId := cleanupIntervalId d; requestTimeout := requestTimeout d |}.

Definition with_completed (f : gmap string Z → gmap string Z)
    (d : RequestDeduplicator) : RequestDeduplicator :=
  {| pending := pending d; completed := f (completed d);
     cleanupIntervalId := cleanupIntervalId d; requestTimeout := requestTimeout d |}.

(** [requestFn()] followed by the registration of the Pending Entry. *)
Definition launch (now : Z) (key : string) (r : Reaction) (requestFn : OpBehaviour)
    (w : World) : CallResult * World :=
  match requestFn with
  | ThrowsSync error =>
      (Throws (OperationFailure error),
       {| this := this w; promises := promises w; invocations := S (invocations w) |})
  | ReturnsPromise =>
      let p := length (promises w) in
      (Returns p,
       {| this := with_pending (insert key {| promise := p; startTime := now |}) (this w);
          promises := promises w ++ [{| reaction := r; settlement := None |}];
          invocations := S (invocations w) |})
  end.

Definition deduplicate (now : Z) (key : string) (requestFn : OpBehaviour) (w : World)
  : CallResult * World :=
  match pending (this w) !! key with
  | Some existing => (Returns (promise existing), w)
  | None => launch now key (Finally key) requestFn w
  end.

(** [options.blockAfterComplete && options.blockAfterComplete > 0] *)
Definition block_enabled (options : ExecuteOptions) : bool :=
  match blockAfterComplete options with
  | Some b => bool_decide (b ≠ 0) && bool_decide (b > 0)
  | None => false
  end.

(** [completedTime && now - completedTime < options.blockAfterComplete] *)
Definition within_block (now : Z) (completedTime : option Z) (options : ExecuteOptions) : bool :=
  match completedTime, blockAfterComplete options with
  | Some t, Some b => bool_decide (t ≠ 0) && bool_decide (now - t < b)
  | _, _ => false
  end.

Definition execute (now : Z) (options : ExecuteOptions) (requestFn : OpBehaviour) (w : World)
  : CallResult * World :=
  match generateKey (method options) (url options) (data options) with
  | None => (Throws TypeError, w)
  | Some key =>
      if block_enabled options && within_block now (completed (this w) !! key) options
      then (Throws (DuplicateRequestError recently_completed), w)
      else
        match pending (this w) !! key with
        | Some existing => (Returns (promise existing), w)
        | None => launch now key (ThenCatch key options) requestFn w
        end
  end.

(** The callbacks run when the operation's promise settles; the second
    component is what the derived promise settles to. *)
Definition run_reaction (now : Z) (r : Reaction) (o : Outcome) (d : RequestDeduplicator)
  : RequestDeduplicator * Outcome :=
  match r with
  | Finally key => (with_pending (delete key) d, o)
  | ThenCatch key options =>
      match o with
      | Fulfilled result =>
          let d1 := with_pending (delete key) d in
          let d2 := if block_enabled options then with_completed (insert key now) d1 else d1 in
          (d2, Fulfilled result)
      | Rejected error => (with_pending (delete key) d, Rejected error)
      end
  end.

(** The environment settles operation [p] with [o] and its callbacks run,
    reading [now] from the clock.  A promise settles once. *)
Definition settle (now : Z) (p : nat) (o : Outcome) (w : World) : World :=
  match promises w !! p with
  | Some l =>
      match settlement l with
      | None =>
          let '(d, o') := run_reaction now (reaction l) o (this w) in
          {| this := d;
             promises := <[p := {| reaction := reaction l;
                                    settlement := Some {| operation := o; shared := o' |} |}]>
                           (promises w);
             invocations := invocations w |}
      | Some _ => w
      end
  | None => w
  end.

(** One [for ... of] sweep over a table, deleting the entries that are
    too old. *)
Definition sweep {V} (too_old : V → bool) (table : gmap string V) : gmap string V :=
  foldr (λ kv m, if too_old kv.2 then delete kv.1 m else m) table (map_to_list table).

Definition cleanup (now : Z) (maxAge : option Z) (d : RequestDeduplicator) : RequestDeduplicator :=
  let maxAge := default 10000 maxAge in
  {| completed := sweep (λ completedTime, bool_decide (now - completedTime > maxAge)) (completed d);
     pending := sweep (λ entry, bool_decide (now - startTime entry > requestTimeout d)) (pending d);
     cleanupIntervalId := cleanupIntervalId d;
     requestTimeout := requestTimeout d |}.

Definition startAutoCleanup (interval : option Z) (d : RequestDeduplicator) : RequestDeduplicator :=
  match cleanupIntervalId d with
  | Some _ => d
  | None =>
      {| pending := pending d; completed := completed d;
         cleanupIntervalId := Some {| intervalMs := default 60000 interval |};
         requestTimeout := requestTimeout d |}
  end.

Definition stopAutoCleanup (d : RequestDeduplicator) : RequestDeduplicator :=
  match cleanupIntervalId d with
  | Some _ =>
      {| pending := pending d; completed := completed d; cleanupIntervalId := None;
         requestTimeout := requestTimeout d |}
  | None => d
  end.

(** The callback [() => this.cleanup()] of a running timer. *)
Definition timer_fires (now : Z) (d : RequestDeduplicator) : RequestDeduplicator :=
  match cleanupIntervalId d with
  | Some _ => cleanup now None d
  | None => d
  end.

Record Stats : Type := { pendingCount : nat; completedCount : nat }.

Definition getStats (d : RequestDeduplicator) : Stats :=
  {| pendingCount := size (pending d); completedCount := size (completed d) |}.

Definition clear (d : RequestDeduplicator) : RequestDeduplicator :=
  {| pending := ∅; completed := ∅; cleanupIntervalId := cleanupIntervalId d;
     requestTimeout := requestTimeout d |}.

(** ** Runs *)

Inductive Event : Type :=
  | EDeduplicate (now : Z) (key : string) (requestFn : OpBehaviour)
  | EExecute (now : Z) (options : ExecuteOptions) (requestFn : OpBehaviour)
  | ESettle (now : Z) (p : nat) (o : Outcome)
  | ECleanup (now : Z) (maxAge : option Z)
  | EStartAutoCleanup (interval : option Z)
  | EStopAutoCleanup
  | ETimerFires (now : Z)
  | EGetStats
  | EClear.

Definition on_this (f : RequestDeduplicator → RequestDeduplicator) (w : World) : World :=
  {| this := f (this w); promises := promises w; invocations := invocations w |}.

Definition step (w : World) (e : Event) : World :=
  match e with
  | EDeduplicate now key requestFn => (deduplicate now key requestFn w).2
  | EExecute now options requestFn => (execute now options requestFn w).2
  | ESettle now p o => settle now p o w
  | ECleanup now maxAge => on_this (cleanup now maxAge) w
  | EStartAutoCleanup interval => on_this (startAutoCleanup interval) w
  | EStopAutoCleanup => on_this stopAutoCleanup w
  | ETimerFires now => on_this (timer_fires now) w
  | EGetStats => w
  | EClear => on_this clear w
  end.

Definition run (w : World) (events : list Event) : World := foldl step w events.

(** Events that never evict a Pending Entry other than by settlement. *)
Definition keeps_entries (e : Event) : bool :=
  match e with
  | ECleanup _ _ | ETimerFires _ | EClear => false
  | _ => true
  end.

(** Events that leave every Completed Record as it is: all but a
    [cleanup], a [clear] and a successful settlement. *)
Definition keeps_records (e : Event) : bool :=
  match e with
  | ECleanup _ _ | ETimerFires _ | EClear => false
  | ESettle _ _ (Fulfilled _) => false
  | _ => true
  end.

(** The operations in flight for [key], by promise number. *)
Definition is_in_flight (w : World) (key : string) (p : nat) : bool :=
  match promises w !! p with
  | Some l =>
      match settlement l with
      | None => bool_decide (reaction_key (reaction l) = key)
      | Some _ => false
      end
  | None => false
  end.

Definition in_flight (w : World) (key : string) : list nat :=
  filter (λ p, is_in_flight w key p) (seq 0 (length (promises w))).

(** What a caller holding [Returns p] has observed so far. *)
Definition observed (w : World) (r : CallResult) : option Outcome :=
  match r with
  | Throws _ => None
  | Returns p => l ← promises w !! p; shared <$> settlement l
  end.

(** ** Derived notions *)

(** The key [execute] computes for [options], when [generateKey] returns. *)
Definition key_of (options : ExecuteOptions) : option string :=
  generateKey (method options) (url options) (data options).

(** [blockAfterComplete] is given and is a positive duration. *)
Definition positive_block (options : ExecuteOptions) : Prop :=
  ∃ b, blockAfterComplete options = Some b ∧ 0 < b.

(** Every operation in flight is the one its key's Pending Entry points to. *)
Definition entries_track_flights (w : World) : Prop :=
  ∀ p key, is_in_flight w key p = true →
           ∃ e, pending (this w) !! key = Some e ∧ promise e = p.

(** ** Values that differ in property order only *)

#[warnings="-register-all"]
Inductive key_order_equiv : JsValue → JsValue → Prop :=
  | koe_refl v : key_order_equiv v v
  | koe_array l1 l2 :
      Forall2 key_order_equiv l1 l2 → key_order_equiv (JArray l1) (JArray l2)
  | koe_object r1 r1' r2 :
      NoDup r1.*1 →
      r1 ≡ₚ r1' →
      Forall2 (λ kv1 kv2, kv1.1 = kv2.1 ∧ key_order_equiv kv1.2 kv2.2) r1' r2 →
      key_order_equiv (JObject r1) (JObject r2).

(** What [Array.prototype.join] makes of one element, and of all. *)
Definition elem_to_string (x : JsValue) : option string :=
  match x with
  | JUndefined | JNull => Some EmptyString
  | _ => ToString x
  end.

Fixpoint elems_to_strings (l : list JsValue) : option (list string) :=
  match l with
  | [] => Some []
  | x :: l' =>
      match elem_to_string x with
      | Some s => cons s <$> elems_to_strings l'
      | None => None
      end
  end.

(** ** Scanning serialized text

    A serialized value can be told from what follows it: scanning from its
    first character, with the nesting depth and the string-literal state
    tracked, runs to its last character and not further when a top-level
    [,], [ ] ] or [ } ] follows. *)

Inductive Mode : Type := Outside | Inside | Escaped.

Definition is_char (n : N) (c : Ascii.ascii) : bool := (Ascii.N_of_ascii c =? n)%N.

(** The text before the first top-level delimiter, and the rest. *)
Fixpoint split_value (m : Mode) (depth : nat) (s : string) : string * string :=
  match s with
  | EmptyString => (EmptyString, EmptyString)
  | String c s' =>
      let keep m' d' := (String c (split_value m' d' s').1, (split_value m' d' s').2) in
      match m with
      | Escaped => keep Inside depth
      | Inside =>
          if is_char 92 c then keep Escaped depth
          else if is_char 34 c then keep Outside depth
          else keep Inside depth
      | Outside =>
          if is_char 34 c then keep Inside depth
          else if is_char 91 c || is_char 123 c then keep Outside (S depth)
          else if is_char 93 c || is_char 125 c then
            match depth with
            | O => (EmptyString, s)
            | S d => keep Outside d
            end
          else if is_char 44 c then
            match depth with
            | O => (EmptyString, s)
            | S _ => keep Outside depth
            end
          else keep Outside depth
      end
  end.

(** Scanning [s] takes the scanner from one state to another. *)
Definition moves (m : Mode) (d : nat) (s : string) (m' : Mode) (d' : nat) : Prop :=
  ∀ tail, split_value m d (s +:+ tail) =
          (s +:+ (split_value m' d' tail).1, (split_value m' d' tail).2).

(** A value is well delimited when scanning it outside a string literal,
    at any depth, ends in the same state, and it is not empty. *)
Definition well_delimited (s : string) : Prop :=
  (∀ d, moves Outside d s Outside d) ∧ s ≠ EmptyString.

(** Characters that mean nothing to the scanner outside a string literal. *)
Definition plain (c : Ascii.ascii) : bool :=
  negb (is_char 34 c || is_char 91 c || is_char 123 c || is_char 93 c || is_char 125 c
        || is_char 44 c).

(** The serialized elements of an array and members of an object, as
    [SerializeJSONProperty] computes them. *)
Fixpoint array_parts (l : list JsValue) : option (list string) :=
  match l with
  | [] => Some []
  | x :: l' =>
      match SerializeJSONProperty x with
      | ThrowsTypeError => None
      | YieldsUndefined => cons "null"%string <$> array_parts l'
      | Yields s => cons s <$> array_parts l'
      end
  end.

Fixpoint object_parts (r : list (string * JsValue)) : option (list string) :=
  match r with
  | [] => Some []
  | (k, x) :: r' =>
      match SerializeJSONProperty x with
      | ThrowsTypeError => None
      | YieldsUndefined => object_parts r'
      | Yields s => cons (QuoteJSONString k +:+ ":" +:+ s) <$> object_parts r'
      end
  end.

(** What follows the first element in the text of an array. *)
Definition after_first (ps : list string) : string :=
  match ps with
  | [] => "]"
  | _ => "," +:+ join_with "," ps +:+ "]"
  end.

(** ** A place inside a value

    A value with one hole: the hole is the value itself, an element of an
    array, or the value of a property of an object, at any depth. *)

Inductive Context : Type :=
  | Hole
  | InArray (before : list JsValue) (inner : Context) (after : list JsValue)
  | InObject (before : list (string * JsValue)) (key : string) (inner : Context)
      (after : list (string * JsValue)).

Fixpoint plug (c : Context) (v : JsValue) : JsValue :=
  match c with
  | Hole => v
  | InArray before c' after => JArray (before ++ plug c' v :: after)
  | InObject before key c' after => JObject (before ++ (key, plug c' v) :: after)
  end.

(** The objects on the way to the hole list no property name twice, and
    no property on the way is named [__proto__]. *)
Fixpoint well_placed (c : Context) : Prop :=
  match c with
  | Hole => True
  | InArray _ c' _ => well_placed c'
  | InObject before key c' after =>
      key ≠ "__proto__" ∧ NoDup (before.*1 ++ key :: after.*1) ∧ well_placed c'
  end.

(** ** Where the printed text is exact *)

(** The integers that are numbers of the source and that it prints in
    decimal, digit by digit. *)
Definition safe_integer (n : Z) : Prop := - 2 ^ 53 < n < 2 ^ 53.

Fixpoint safe_numbers (v : JsValue) : Prop :=
  match v with
  | JNumber n => safe_integer n
  | JArray l =>
      (fix go (l : list JsValue) : Prop :=
         match l with
         | [] => True
         | x :: l' => safe_numbers x ∧ go l'
         end) l
  | JObject r =>
      (fix go (r : list (string * JsValue)) : Prop :=
         match r with
         | [] => True
         | (_, x) :: r' => safe_numbers x ∧ go r'
         end) r
  | _ => True
  end.

(** No code unit of the string is one of the three whose upper-case form
    is not a code unit below 256. *)
Fixpoint upper_in_range (s : string) : Prop :=
  match s with
  | EmptyString => True
  | String c s' =>
      (Ascii.N_of_ascii c ≠ 181 ∧ Ascii.N_of_ascii c ≠ 223 ∧ Ascii.N_of_ascii c ≠ 255)%N ∧
      upper_in_range s'
  end.

(** ** Scenarios used as concrete inputs *)

Definition order_data : JsValue := JObject [("id"%string, JNumber 1)].

Definition order_blocking : ExecuteOptions :=
  {| method := "POST"; url := "/orders"; data := order_data; blockAfterComplete := Some 5000 |}.

Definition order_plain : ExecuteOptions :=
  {| method := "POST"; url := "/orders"; data := order_data; blockAfterComplete := None |}.

Definition order_key : string :=
  "POST:/orders:{" +:+ QuoteJSONString "id" +:+ ":1}".

(** A key in its cool-down window: [execute] rejects, [deduplicate] launches. *)
Definition order_cooling : World :=
  run (new_World None)
    [EExecute 1000 order_blocking ReturnsPromise; ESettle 1500 0%nat (Fulfilled JNull)].


(** Two payloads of the specification's kind: the same order, written with
    the properties in different orders, at the top and inside an array. *)
Definition payload_a : JsValue :=
  JObject [("id"%string, JNumber 1);
           ("items"%string, JArray [JObject [("sku"%string, JString "x"); ("qty"%string, JNumber 2)]])].

Definition payload_b : JsValue :=
  JObject [("items"%string, JArray [JObject [("qty"%string, JNumber 2); ("sku"%string, JString "x")]]);
           ("id"%string, JNumber 1)].

(** ** Further notions about runs *)

(** Promise [p] exists and its operation has not settled. *)
Definition is_unsettled (w : World) (p : nat) : bool :=
  match promises w !! p with
  | Some l =>
      match settlement l with
      | None => true
      | Some _ => false
      end
  | None => false
  end.

(** All operations in flight, whatever their keys. *)
Definition all_in_flight (w : World) : list nat :=
  filter (λ p, is_unsettled w p) (seq 0 (length (promises w))).

(** Every Pending Entry points to an operation in flight for its key. *)
Definition entries_are_flights (w : World) : Prop :=
  ∀ key e, pending (this w) !! key = Some e → is_in_flight w key (promise e) = true.

(** The key a call or a settlement works on. *)
Definition event_key (w : World) (e : Event) : option string :=
  match e with
  | EDeduplicate _ key _ => Some key
  | EExecute _ options _ => key_of options
  | ESettle _ p _ => (λ l, reaction_key (reaction l)) <$> promises w !! p
  | _ => None
  end.

(** ** Operations that call back

    [requestFn] is the caller's code, and the source invokes it between
    the lookup of the Pending Entry and its registration.  While it is
    being invoked it can call the methods of the deduplicator.  No
    settlement callback and no timer callback runs in between: the engine
    queues them until the running code has returned.  [Op calls ends] is
    an operation whose invocation makes the calls [calls], in this order,
    and then returns a promise or throws, as [ends] says; the operations of
    the runs above are those with no calls. *)

Inductive Call (O : Type) : Type :=
  | CallDeduplicate (now : Z) (key : string) (requestFn : O)
  | CallExecute (now : Z) (options : ExecuteOptions) (requestFn : O)
  | CallCleanup (now : Z) (maxAge : option Z)
  | CallStartAutoCleanup (interval : option Z)
  | CallStopAutoCleanup
  | CallGetStats
  | CallClear.
Arguments CallDeduplicate {O}.
Arguments CallExecute {O}.
Arguments CallCleanup {O}.
Arguments CallStartAutoCleanup {O}.
Arguments CallStopAutoCleanup {O}.
Arguments CallGetStats {O}.
Arguments CallClear {O}.

#[warnings="-register-all"]
Inductive Operation : Type :=
  | Op (calls : list (Call Operation)) (ends : OpBehaviour).

Module Reentrant.

(** [deduplicate], [execute] and the other methods, for any way of
    invoking the operation. *)

Definition deduplicate_with (invoke : Operation → World → OpBehaviour * World)
    (now : Z) (key : string) (requestFn : Operation) (w : World) : CallResult * World :=
  match pending (this w) !! key with
  | Some existing => (Returns (promise existing), w)
  | None =>
      let '(ends, w') := invoke requestFn w in
      launch now key (Finally key) ends w'
  end.

Definition execute_with (invoke : Operation → World → OpBehaviour * World)
    (now : Z) (options : ExecuteOptions) (requestFn : Operation) (w : World)
  : CallResult * World :=
  match generateKey (method options) (url options) (data options) with
  | None => (Throws TypeError, w)
  | Some key =>
      if block_enabled options && within_block now (completed (this w) !! key) options
      then (Throws (DuplicateRequestError recently_completed), w)
      else
        match pending (this w) !! key with
        | Some existing => (Returns (promise existing), w)
        | None =>
            let '(ends, w') := invoke requestFn w in
            launch now key (ThenCatch key options) ends w'
        end
  end.

Definition call_with (invoke : Operation → World → OpBehaviour * World)
    (c : Call Operation) (w : World) : World :=
  match c with
  | CallDeduplicate now key requestFn => (deduplicate_with invoke now key requestFn w).2
  | CallExecute now options requestFn => (execute_with invoke now options requestFn w).2
  | CallCleanup now maxAge => on_this (cleanup now maxAge) w
  | CallStartAutoCleanup interval => on_this (startAutoCleanup interval) w
  | CallStopAutoCleanup => on_this stopAutoCleanup w
  | CallGetStats => w
  | CallClear => on_this clear w
  end.

Fixpoint invoke (requestFn : Operation) (w : World) : OpBehaviour * World :=
  match requestFn with
  | Op calls ends => (ends, fold_left (λ w c, call_with invoke c w) calls w)
  end.

(** The methods, with [requestFn] invoked as above. *)
Definition deduplicate := deduplicate_with invoke.
Definition execute := execute_with invoke.
Definition call := call_with invoke.

Inductive Event : Type :=
  | Calls (c : Call Operation)
  | Settles (now : Z) (p : nat) (o : Outcome)
  | TimerFires (now : Z).

Definition step (w : World) (e : Event) : World :=
  match e with
  | Calls c => call c w
  | Settles now p o => settle now p o w
  | TimerFires now => on_this (timer_fires now) w
  end.

Definition run (w : World) (events : list Event) : World := foldl step w events.

(** The keys of the calls that the invocation of an operation can make, by
    itself or through the operations it passes on. *)
Definition call_keys_with (keys_called : Operation → list string) (c : Call Operation)
  : list string :=
  match c with
  | CallDeduplicate _ key requestFn => key :: keys_called requestFn
  | CallExecute _ options requestFn => option_list (key_of options) ++ keys_called requestFn
  | _ => []
  end.

Fixpoint keys_called (requestFn : Operation) : list string :=
  match requestFn with
  | Op calls _ => concat (map (call_keys_with keys_called) calls)
  end.

Definition call_keys := call_keys_with keys_called.

(** A call is orderly when it is not [cleanup] or [clear] and, if it
    passes an operation, the invocation of that operation can make no call
    for the key it is passed with, and only orderly calls. *)
Definition orderly_call_with (orderly_op : Operation → bool) (c : Call Operation) : bool :=
  match c with
  | CallDeduplicate _ key requestFn =>
      bool_decide (key ∉ keys_called requestFn) && orderly_op requestFn
  | CallExecute _ options requestFn =>
      match key_of options with
      | Some key => bool_decide (key ∉ keys_called requestFn)
      | None => true
      end && orderly_op requestFn
  | CallCleanup _ _ | CallClear => false
  | _ => true
  end.

Fixpoint orderly_op (requestFn : Operation) : bool :=
  match requestFn with
  | Op calls _ => forallb (orderly_call_with orderly_op) calls
  end.

Definition orderly_call := orderly_call_with orderly_op.

Definition orderly (e : Event) : bool :=
  match e with
  | Calls c => orderly_call c
  | Settles _ _ _ => true
  | TimerFires _ => false
  end.

End Reentrant.

(** An operation that makes no call, and the events of the runs above as
    events of the runs with such operations. *)
Definition direct (requestFn : OpBehaviour) : Operation := Op [] requestFn.


(** Induction on operations, with the hypothesis for the operations that
    the calls pass on. *)
Definition on_operation (P : Operation → Prop) (c : Call Operation) : Prop :=
  match c with
  | CallDeduplicate _ _ requestFn | CallExecute _ _ requestFn => P requestFn
  | _ => True
  end.

Section Operation_induction.
Variable P : Operation → Prop.
Hypothesis Hop : ∀ calls ends, Forall (on_operation P) calls → P (Op calls ends).

Fixpoint Operation_nested_ind (requestFn : Operation) : P requestFn :=
  match requestFn with
  | Op calls ends =>
      Hop calls ends
        ((fix go (calls : list (Call Operation)) : Forall (on_operation P) calls :=
            match calls with
            | [] => Forall_nil_2 _
            | c :: calls' =>
                Forall_cons_2 _ c calls'
                  (match c return on_operation P c with
                   | CallDeduplicate _ _ requestFn' => Operation_nested_ind requestFn'
                   | CallExecute _ _ requestFn' => Operation_nested_ind requestFn'
                   | _ => I
                   end) (go calls')
            end) calls)
  end.
End Operation_induction.


(** The two invariants of the tables, and what the invocation of an
    operation leaves alone. *)
Definition tables_in_order (w : World) : Prop :=
  entries_track_flights w ∧ entries_are_flights w.

Definition invocation_in_order (requestFn : Operation) : Prop :=
  ∀ w, Reentrant.orderly_op requestFn = true → tables_in_order w →
       tables_in_order (Reentrant.invoke requestFn w).2 ∧
       (∀ k, k ∉ Reentrant.keys_called requestFn →
             pending (this (Reentrant.invoke requestFn w).2) !! k = pending (this w) !! k).


(** An operation that, while it is being invoked for key [a], calls
    [deduplicate] for key [b]; and one that calls it for its own key. *)
Definition calls_another : list Reentrant.Event :=
  [Reentrant.Calls
     (CallDeduplicate 1 "a"
        (Op [CallDeduplicate 0 "b" (direct ReturnsPromise)] ReturnsPromise))].


(** ** Well-formed values *)

(** No object, at any depth, lists a property name twice. *)
Fixpoint well_formed (v : JsValue) : Prop :=
  match v with
  | JArray l =>
      (fix go (l : list JsValue) : Prop :=
         match l with
         | [] => True
         | x :: l' => well_formed x ∧ go l'
         end) l
  | JObject r =>
      NoDup r.*1 ∧
      (fix go (r : list (string * JsValue)) : Prop :=
         match r with
         | [] => True
         | (_, x) :: r' => well_formed x ∧ go r'
         end) r
  | _ => True
  end.

(** No object, at any depth, has an own property named [__proto__]; the
    objects that [sortObjectKeys] makes of such data keep the prototype
    they are created with. *)
Fixpoint no_proto_property (v : JsValue) : Prop :=
  match v with
  | JArray l =>
      (fix go (l : list JsValue) : Prop :=
         match l with
         | [] => True
         | x :: l' => no_proto_property x ∧ go l'
         end) l
  | JObject r =>
      ("__proto__"%string ∉ r.*1) ∧
      (fix go (r : list (string * JsValue)) : Prop :=
         match r with
         | [] => True
         | (_, x) :: r' => no_proto_property x ∧ go r'
         end) r
  | _ => True
  end.

(** The [reduce] of [sortObjectKeys], for any way [g] of computing the
    value stored under a key. *)
Definition build_object (g : string → JsValue) (keys : list string)
    (result : list (string * JsValue)) : list (string * JsValue) :=
  fold_left (λ result key, set_prop result key (g key)) keys result.

(** The same properties in the same order, each value changed by [f]. *)
Definition map_values (f : string → JsValue → JsValue) (r : list (string * JsValue))
  : list (string * JsValue) :=
  (λ kv, (kv.1, f kv.1 kv.2)) <$> r.

(** * The error handler ([src/error/handler.ts])

    The handler is not called by the deduplicator; it is modelled on the
    same values.  Error codes and range bounds are integers. *)

(** ** Strings *)

(** [String.prototype.toLowerCase] on 8-bit code units: A-Z and the
    upper-case letters of Latin-1. *)
Definition lower_char (c : Ascii.ascii) : Ascii.ascii :=
  let n := Ascii.N_of_ascii c in
  if ((65 <=? n) && (n <=? 90) || (192 <=? n) && (n <=? 222) && negb (n =? 215))%N
  then Ascii.ascii_of_N (n + 32) else c.

Definition toLowerCase (s : string) : string := str_map lower_char s.

(** [sub] is a prefix of [s]. *)
Fixpoint starts_with (s sub : string) {struct sub} : bool :=
  match sub with
  | EmptyString => true
  | String c sub' =>
      match s with
      | EmptyString => false
      | String d s' => Ascii.eqb c d && starts_with s' sub'
      end
  end.

(** [String.prototype.includes] *)
Fixpoint includes (s sub : string) : bool :=
  starts_with s sub ||
  match s with
  | EmptyString => false
  | String _ s' => includes s' sub
  end.

(** ** Regular expressions

    The patterns of the source use character classes, sequence,
    alternation and [+] only, with the [i] flag; [test] on such a pattern
    asks whether some substring of the text belongs to its language.
    Matching is by derivatives. *)

Inductive Regex : Type :=
  | ReNone
  | ReEmpty
  | ReChar (p : Ascii.ascii → bool)
  | ReSeq (r1 r2 : Regex)
  | ReAlt (r1 r2 : Regex)
  | ReStar (r : Regex).

Fixpoint nullable (r : Regex) : bool :=
  match r with
  | ReNone => false
  | ReEmpty => true
  | ReChar _ => false
  | ReSeq r1 r2 => nullable r1 && nullable r2
  | ReAlt r1 r2 => nullable r1 || nullable r2
  | ReStar _ => true
  end.

Fixpoint derivative (c : Ascii.ascii) (r : Regex) : Regex :=
  match r with
  | ReNone => ReNone
  | ReEmpty => ReNone
  | ReChar p => if p c then ReEmpty else ReNone
  | ReSeq r1 r2 =>
      if nullable r1 then ReAlt (ReSeq (derivative c r1) r2) (derivative c r2)
      else ReSeq (derivative c r1) r2
  | ReAlt r1 r2 => ReAlt (derivative c r1) (derivative c r2)
  | ReStar r1 => ReSeq (derivative c r1) (ReStar r1)
  end.

(** The whole of [s] belongs to the language of [r]. *)
Fixpoint matches (r : Regex) (s : string) : bool :=
  match s with
  | EmptyString => nullable r
  | String c s' => matches (derivative c r) s'
  end.

Definition RePlus (r : Regex) : Regex := ReSeq r (ReStar r).

Definition ReAny : Regex := ReStar (ReChar (λ _, true)).

(** [pattern.test(text)] *)
Definition regex_test (pattern : Regex) (text : string) : bool :=
  matches (ReSeq ReAny (ReSeq pattern ReAny)) text.

Definition char_in (lo hi : N) (c : Ascii.ascii) : bool :=
  ((lo <=? Ascii.N_of_ascii c) && (Ascii.N_of_ascii c <=? hi))%N.

Definition is_digit (c : Ascii.ascii) : bool := char_in 48 57 c.

(** [[a-z]] under the [i] flag *)
Definition is_letter (c : Ascii.ascii) : bool := char_in 65 90 c || char_in 97 122 c.

(** [\w] *)
Definition is_word (c : Ascii.ascii) : bool := is_letter c || is_digit c || is_char 95 c.

(** [\s] on 8-bit code units: tab, line feed, vertical tab, form feed,
    carriage return, space, no-break space. *)
Definition is_space (c : Ascii.ascii) : bool :=
  char_in 9 13 c || is_char 32 c || is_char 160 c.

(** One literal character of a pattern under the [i] flag: ASCII letters
    match in either case. *)
Definition ci_char (x : Ascii.ascii) (c : Ascii.ascii) : bool :=
  Ascii.eqb c x ||
  (is_letter x && is_letter c &&
   (Ascii.N_of_ascii c mod 32 =? Ascii.N_of_ascii x mod 32)%N).

Fixpoint ci_string (s : string) : Regex :=
  match s with
  | EmptyString => ReEmpty
  | String x s' => ReSeq (ReChar (ci_char x)) (ci_string s')
  end.

(** The language of a pattern, as a relation. *)
Inductive in_lang : Regex → string → Prop :=
  | lang_empty : in_lang ReEmpty EmptyString
  | lang_char p c : p c = true → in_lang (ReChar p) (str1 c)
  | lang_seq r1 r2 s1 s2 :
      in_lang r1 s1 → in_lang r2 s2 → in_lang (ReSeq r1 r2) (s1 +:+ s2)
  | lang_alt_l r1 r2 s : in_lang r1 s → in_lang (ReAlt r1 r2) s
  | lang_alt_r r1 r2 s : in_lang r2 s → in_lang (ReAlt r1 r2) s
  | lang_star_nil r : in_lang (ReStar r) EmptyString
  | lang_star_cons r s1 s2 :
      in_lang r s1 → in_lang (ReStar r) s2 → in_lang (ReStar r) (s1 +:+ s2).

(** [sub] occurs in [s]. *)
Definition occurs_in (sub s : string) : Prop := ∃ pre post, s = pre +:+ sub +:+ post.

(** ** Sensitive text *)

Definition SENSITIVE_KEYWORDS : list string :=
  [ "sql"; "database"; "query"; "db"; "mysql"; "postgres"; "mongodb"; "redis";
    "select"; "insert"; "update"; "delete"; "drop"; "table"; "column";
    "stack"; "stacktrace"; "exception"; "error:"; "at line"; "in file";
    "traceback"; "backtrace";
    "/var/"; "/usr/"; "/home/"; "/opt/"; "c:" +:+ str1 backslash; "d:" +:+ str1 backslash;
    "node_modules"; "src/"; "internal/";
    "password"; "token"; "secret"; "key"; "credential"; "auth";
    "express"; "gin"; "django"; "flask"; "nginx"; "apache"; "gorm";
    "node"; "golang"; "python"; "java"; "react"; "axios";
    "panic"; "fatal"; "assertion"; "undefined"; "null pointer"; "nil pointer";
    "segmentation fault"; "memory";
    "localhost"; "127.0.0.1"; "0.0.0.0"; ":3000"; ":8080"; ":5432";
    "admin"; "root"; "system"; "config"; "env" ]%string.

Definition PATH_PATTERNS : list Regex :=
  [ (* /[a-z]:\\[\w\\]+/i *)
    ReSeq (ReChar is_letter)
      (ReSeq (ReChar (is_char 58))
         (ReSeq (ReChar (is_char 92))
            (RePlus (ReChar (λ c, is_word c || is_char 92 c)))));
    (* /\/[\w\/]+\.(js|ts|tsx|jsx|go|py)/i *)
    ReSeq (ReChar (is_char 47))
      (ReSeq (RePlus (ReChar (λ c, is_word c || is_char 47 c)))
         (ReSeq (ReChar (is_char 46))
            (ReAlt (ci_string "js")
               (ReAlt (ci_string "ts")
                  (ReAlt (ci_string "tsx")
                     (ReAlt (ci_string "jsx")
                        (ReAlt (ci_string "go") (ci_string "py"))))))));
    (* /line\s+\d+/i *)
    ReSeq (ci_string "line") (ReSeq (RePlus (ReChar is_space)) (RePlus (ReChar is_digit)));
    (* /at\s+[\w.]+\s+\(/i *)
    ReSeq (ci_string "at")
      (ReSeq (RePlus (ReChar is_space))
         (ReSeq (RePlus (ReChar (λ c, is_word c || is_char 46 c)))
            (ReSeq (RePlus (ReChar is_space)) (ReChar (is_char 40))))) ].

Definition containsSensitiveInfo (text : string) : bool :=
  match text with
  | EmptyString => false
  | _ =>
      let lower := toLowerCase text in
      existsb (λ kw, includes lower (toLowerCase kw)) SENSITIVE_KEYWORDS
      || existsb (λ pattern, regex_test pattern text) PATH_PATTERNS
  end.

(** [filterSensitiveData(detail, isDev)]; [None] is [undefined]. *)
Definition filterSensitiveData (detail : JsValue) (isDev : bool) : option string :=
  match detail with
  | JString EmptyString => None
  | JString s =>
      if isDev then Some s
      else if containsSensitiveInfo s || (200 <? String.length s)%nat then None
      else Some s
  | _ => None
  end.

(** ** Errors *)

(** An instance of [Error]: the three standard properties and the other
    own properties, such as [code], [detail] and [request_id]. *)
Module JsError.
Record ErrorInstance : Type := {
  name : string;
  message : string;
  stack : option string;
  props : list (string * JsValue);
}.
End JsError.

(** Anything that can be thrown. *)
Inductive ErrorValue : Type :=
  | Instance (e : JsError.ErrorInstance)
  | Plain (v : JsValue).

Module App.
Record AppError : Type := {
  name : string;
  message : string;
  stack : option string;
  code : JsValue;
  detail : JsValue;
  originalError : option JsError.ErrorInstance;
}.
End App.

(** [v ?? d] *)
Definition coalesce (v d : JsValue) : JsValue :=
  match v with
  | JUndefined | JNull => d
  | _ => v
  end.

(** [obj.name] on a plain object or an array, for a name that is not an
    index. *)
Definition property (obj : JsValue) (name : string) : JsValue :=
  match obj with
  | JObject r => get_prop r name
  | _ => JUndefined
  end.

Definition unknown_error : App.AppError :=
  {| App.name := "Error"; App.message := "Unknown error"; App.stack := None;
     App.code := JString "UNKNOWN_ERROR"; App.detail := JUndefined;
     App.originalError := None |}.

(** [None] when [normalizeError] throws, which it does when the [String]
    conversion of line 116 does. *)
Definition normalizeError (error : ErrorValue) : option App.AppError :=
  match error with
  | Instance e =>
      Some {| App.name := JsError.name e;
              App.message := JsError.message e;
              App.stack := JsError.stack e;
              App.code := coalesce (get_prop (JsError.props e) "code") (JString "UNKNOWN_ERROR");
              App.detail := get_prop (JsError.props e) "detail";
              App.originalError := Some e |}
  | Plain (JString s) =>
      Some {| App.name := "Error"; App.message := s; App.stack := None;
              App.code := JString "UNKNOWN_ERROR"; App.detail := JUndefined;
              App.originalError := None |}
  | Plain ((JObject _ | JArray _) as obj) =>
      message ← ToString (coalesce (coalesce (property obj "message") (property obj "error"))
                            (JString "Unknown error"));
      Some {| App.name := "Error";
              App.message := message;
              App.stack := None;
              App.code := coalesce (property obj "code") (JString "UNKNOWN_ERROR");
              App.detail :=
                match property obj "detail" with
                | JString s => JString s
                | _ => JUndefined
                end;
              App.originalError := None |}
  | Plain _ => Some unknown_error
  end.

(** [createError(code, message, detail)]; the text of [stack] is the
    engine's. *)
Definition createError (stack : option string) (code : JsValue) (message : string)
    (detail : JsValue) : JsError.ErrorInstance :=
  {| JsError.name := "Error"; JsError.message := message; JsError.stack := stack;
     JsError.props := [("code"%string, code); ("detail"%string, detail)] |}.

(** ** Error codes *)

Module Range.
Record ErrorCodeRangeConfig : Type := {
  start : Z;
  end_ : Z;
  defaultMessage : string;
  isRetryable : bool;
}.
End Range.

Definition DEFAULT_ERROR_RANGES : list Range.ErrorCodeRangeConfig :=
  [ {| Range.start := 100000; Range.end_ := 200000;
       Range.defaultMessage := "System error, please try again later";
       Range.isRetryable := true |};
    {| Range.start := 200000; Range.end_ := 300000;
       Range.defaultMessage := "Authentication required";
       Range.isRetryable := false |};
    {| Range.start := 300000; Range.end_ := 400000;
       Range.defaultMessage := "Operation failed, please retry";
       Range.isRetryable := true |};
    {| Range.start := 400000; Range.end_ := 500000;
       Range.defaultMessage := "Data processing failed";
       Range.isRetryable := false |};
    {| Range.start := 500000; Range.end_ := 600000;
       Range.defaultMessage := "Service temporarily unavailable";
       Range.isRetryable := true |} ].

(** [errorCode >= range.start && errorCode < range.end] *)
Definition in_range (errorCode : Z) (range : Range.ErrorCodeRangeConfig) : bool :=
  bool_decide (errorCode >= Range.start range) && bool_decide (errorCode < Range.end_ range).

(** The [for ... of] loop over the ranges, returning at the first hit. *)
Fixpoint first_range (errorCode : Z) (ranges : list Range.ErrorCodeRangeConfig)
  : option Range.ErrorCodeRangeConfig :=
  match ranges with
  | [] => None
  | range :: ranges' =>
      if in_range errorCode range then Some range else first_range errorCode ranges'
  end.

Definition getUserFriendlyMessage (errorCode : Z) (messages : option (gmap Z string))
    (ranges : option (list Range.ErrorCodeRangeConfig)) (fallback : option string) : string :=
  let messages := default ∅ messages in
  let ranges := default DEFAULT_ERROR_RANGES ranges in
  let fallback := default "Operation failed, please retry"%string fallback in
  match messages !! errorCode with
  | Some (String c m) => String c m
  | _ =>
      match first_range errorCode ranges with
      | Some range => Range.defaultMessage range
      | None => fallback
      end
  end.

Definition isRetryableError (errorCode : Z) (ranges : option (list Range.ErrorCodeRangeConfig))
  : bool :=
  match first_range errorCode (default DEFAULT_ERROR_RANGES ranges) with
  | Some range => Range.isRetryable range
  | None => false
  end.

(** ** The handler *)

Record ErrorHandler : Type := {
  messages : gmap Z string;
  ranges : list Range.ErrorCodeRangeConfig;
  isDev : bool;
}.

(** [new ErrorHandler(options)], also [createErrorHandler(options)] *)
Definition new_ErrorHandler (messages : option (gmap Z string))
    (ranges : option (list Range.ErrorCodeRangeConfig)) (isDev : option bool) : ErrorHandler :=
  {| messages := default ∅ messages;
     ranges := default DEFAULT_ERROR_RANGES ranges;
     isDev := default false isDev |}.

Module Result.
Record ErrorHandlerResult : Type := {
  message : string;
  userMessage : string;
  code : JsValue;
  detail : option string;
  requestId : JsValue;
  isRetryable : bool;
}.
End Result.

(** [typeof normalized.code === 'number' ? normalized.code : 0] *)
Definition errorCode_of (normalized : App.AppError) : Z :=
  match App.code normalized with
  | JNumber n => n
  | _ => 0
  end.

(** [None] when [handleError] throws, which it does when [normalizeError]
    does. *)
Definition handleError (h : ErrorHandler) (error : ErrorValue)
  : option Result.ErrorHandlerResult :=
  normalized ← normalizeError error;
  let errorCode := errorCode_of normalized in
  Some {| Result.message := App.message normalized;
          Result.userMessage :=
            getUserFriendlyMessage errorCode (Some (messages h)) (Some (ranges h)) None;
          Result.code := App.code normalized;
          Result.detail := filterSensitiveData (App.detail normalized) (isDev h);
          Result.requestId :=
            match error with
            | Instance e => get_prop (JsError.props e) "request_id"
            | Plain v => property v "request_id"
            end;
          Result.isRetryable := isRetryableError errorCode (Some (ranges h)) |}.

(** * Properties of the deduplicator *)

(** ** Sweeps *)

Section Sweep.
Context {V : Type} (too_old : V → bool).

Lemma sweep_fold_lookup (l : list (string * V)) (table : gmap string V) (key : string) :
  foldr (λ kv m, if too_old kv.2 then delete kv.1 m else m) table l !! key =
  if decide (Exists (λ kv, kv.1 = key ∧ too_old kv.2) l) then None else table !! key.
Proof.
  induction l as [|[k x] l IH]; cbn [foldr fst snd].
  - destruct (decide _) as [HE|HE]; [inversion HE | done].
  - destruct (decide (Exists _ ((k, x) :: l))) as [HE|HE];
      rewrite Exists_cons in HE; simpl in HE.
    + destruct (too_old x) eqn:Hx.
      * destruct (decide (k = key)) as [->|Hne]; [by rewrite lookup_delete_eq|].
        rewrite lookup_delete_ne, IH by done.
        destruct HE as [[? _]|HE]; [done|]. by rewrite decide_True.
      * destruct HE as [[_ Hf]|HE]; [by destruct Hf|]. by rewrite IH, decide_True.
    + assert (¬ Exists (λ kv, kv.1 = key ∧ too_old kv.2) l) as Hl by tauto.
      destruct (too_old x) eqn:Hx.
      * destruct (decide (k = key)) as [->|Hne].
        { exfalso. apply HE. left. by split. }
        by rewrite lookup_delete_ne, IH, decide_False.
      * by rewrite IH, decide_False.
Qed.

Lemma sweep_lookup (table : gmap string V) (key : string) :
  sweep too_old table !! key =
  match table !! key with
  | Some x => if too_old x then None else Some x
  | None => None
  end.
Proof.
  unfold sweep. rewrite sweep_fold_lookup. case_decide as HE.
  - apply Exists_exists in HE as ([k x] & Hin & Hk & Hx). simpl in *. subst k.
    apply elem_of_map_to_list in Hin. rewrite Hin. by destruct (too_old x).
  - destruct (table !! key) as [x|] eqn:Hl; [|done].
    destruct (too_old x) eqn:Hx; [|done].
    exfalso. apply HE, Exists_exists. exists (key, x). split.
    + by apply elem_of_map_to_list.
    + simpl. by rewrite Hx.
Qed.

Lemma sweep_lookup_Some (table : gmap string V) (key : string) (x : V) :
  sweep too_old table !! key = Some x ↔ table !! key = Some x ∧ too_old x = false.
Proof.
  rewrite sweep_lookup. destruct (table !! key) as [y|].
  - destruct (too_old y) eqn:Hy; split; try congruence.
    + intros [[= ->] ?]. congruence.
    + intros [= ->]. by split.
    + by intros [? _].
  - split; [congruence | by intros [? _]].
Qed.
End Sweep.

(** C6.  [cleanup(maxAge)] keeps a Completed Record exactly when its age is
    not strictly greater than [maxAge] (10000 by default) and a Pending
    Entry exactly when its age is not strictly greater than the configured
    [requestTimeout] (30000 by default); everything kept is kept unchanged,
    and what happens to the Pending table does not depend on [maxAge]. *)
Theorem cleanup_removes_exactly_the_old (d : RequestDeduplicator) (now : Z) (maxAge : option Z) :
  (∀ key t, completed (cleanup now maxAge d) !! key = Some t ↔
            completed d !! key = Some t ∧ ¬ (now - t > default 10000 maxAge)) ∧
  (∀ key e, pending (cleanup now maxAge d) !! key = Some e ↔
            pending d !! key = Some e ∧ ¬ (now - startTime e > requestTimeout d)) ∧
  (∀ maxAge', pending (cleanup now maxAge' d) = pending (cleanup now maxAge d)) ∧
  cleanup now None d = cleanup now (Some 10000) d ∧
  requestTimeout (cleanup now maxAge d) = requestTimeout d ∧
  requestTimeout (new_RequestDeduplicator None) = 30000 ∧
  (∀ t, requestTimeout (new_RequestDeduplicator (Some t)) = t).
Proof.
  split_and!; try done.
  - intros key t. simpl. by rewrite sweep_lookup_Some, bool_decide_eq_false.
  - intros key e. simpl. by rewrite sweep_lookup_Some, bool_decide_eq_false.
Qed.

(** C7.  From every state [clear()] empties both tables, so that
    [getStats()] then reports zero for both counts, and it leaves the
    handle of the auto-cleanup timer as it was. *)
Theorem clear_empties_both_tables (w : World) :
  let w' := step w EClear in
  pending (this w') = ∅ ∧ completed (this w') = ∅ ∧
  getStats (this (step w' EGetStats)) = {| pendingCount := 0; completedCount := 0 |} ∧
  cleanupIntervalId (this w') = cleanupIntervalId (this w) ∧
  (∀ now, timer_fires now (this w') =
          match cleanupIntervalId (this w) with
          | Some _ => cleanup now None (this w')
          | None => this w'
          end).
Proof. simpl. repeat split. Qed.

(** ** The cool-down check *)

Lemma block_enabled_iff (options : ExecuteOptions) :
  block_enabled options = true ↔ positive_block options.
Proof.
  unfold block_enabled, positive_block. destruct (blockAfterComplete options) as [b|].
  - rewrite andb_true_iff, !bool_decide_eq_true. split.
    + intros [_ ?]. exists b. split; [done | lia].
    + intros (b' & [= <-] & ?). lia.
  - split; [done | by intros (b & ? & _)].
Qed.

Lemma block_enabled_false_iff (options : ExecuteOptions) :
  block_enabled options = false ↔ ¬ positive_block options.
Proof. rewrite <- block_enabled_iff. by destruct (block_enabled options). Qed.

(** A call of [execute] whose key cannot be computed ends there. *)
Lemma execute_no_key (now : Z) (options : ExecuteOptions) (requestFn : OpBehaviour) (w : World) :
  key_of options = None → execute now options requestFn w = (Throws TypeError, w).
Proof. unfold execute, key_of. by intros ->. Qed.

(** The three ways it can go once the key is computed, in the order of the
    source. *)
Lemma execute_cases (now : Z) (options : ExecuteOptions) (requestFn : OpBehaviour) (w : World)
    (key : string) :
  key_of options = Some key →
  (block_enabled options && within_block now (completed (this w) !! key) options = true ∧
   execute now options requestFn w = (Throws (DuplicateRequestError recently_completed), w)) ∨
  (block_enabled options && within_block now (completed (this w) !! key) options = false ∧
   ∃ existing, pending (this w) !! key = Some existing ∧
     execute now options requestFn w = (Returns (promise existing), w)) ∨
  (block_enabled options && within_block now (completed (this w) !! key) options = false ∧
   pending (this w) !! key = None ∧
   execute now options requestFn w = launch now key (ThenCatch key options) requestFn w).
Proof.
  unfold execute, key_of. intros ->.
  destruct (block_enabled options && within_block now (completed (this w) !! key) options).
  - by left.
  - right. destruct (pending (this w) !! key) as [existing|]; [left | right]; eauto.
Qed.

(** A call that returns a promise, or is rejected as a duplicate, has
    computed its key. *)
Lemma execute_key (now : Z) (options : ExecuteOptions) (requestFn : OpBehaviour) (w : World) :
  (execute now options requestFn w).1 ≠ Throws TypeError → ∃ key, key_of options = Some key.
Proof.
  intros Hne. destruct (key_of options) as [key|] eqn:Hk; [by eauto|].
  by rewrite execute_no_key in Hne.
Qed.

Lemma launch_cases (now : Z) (key : string) (r : Reaction) (requestFn : OpBehaviour) (w : World) :
  invocations (launch now key r requestFn w).2 = S (invocations w) ∧
  ((∃ error, requestFn = ThrowsSync error ∧
      (launch now key r requestFn w).1 = Throws (OperationFailure error) ∧
      this (launch now key r requestFn w).2 = this w ∧
      promises (launch now key r requestFn w).2 = promises w) ∨
   (requestFn = ReturnsPromise ∧
      (launch now key r requestFn w).1 = Returns (length (promises w)) ∧
      this (launch now key r requestFn w).2 =
        with_pending (insert key {| promise := length (promises w); startTime := now |}) (this w) ∧
      promises (launch now key r requestFn w).2 =
        promises w ++ [{| reaction := r; settlement := None |}])).
Proof. destruct requestFn; simpl; eauto 10. Qed.

(** Exactly when [execute] rejects: a positive [blockAfterComplete], and a
    Completed Record that the source's truthiness test accepts (its
    timestamp is not 0) and that is younger than [blockAfterComplete]. *)
Lemma execute_rejects_iff (now : Z) (options : ExecuteOptions) (requestFn : OpBehaviour)
    (w : World) (reason : Reason) :
  (execute now options requestFn w).1 = Throws (DuplicateRequestError reason) ↔
  reason = recently_completed ∧
  ∃ key b t, key_of options = Some key ∧ blockAfterComplete options = Some b ∧ 0 < b ∧
             completed (this w) !! key = Some t ∧ t ≠ 0 ∧ now - t < b.
Proof.
  destruct (key_of options) as [key|] eqn:Hkey.
  2:{ rewrite execute_no_key by done. split; [done | by intros (_ & ? & ? & ? & ? & _)]. }
  destruct (execute_cases now options requestFn w key Hkey)
    as [[Hc ->]|[(Hc & e & _ & ->)|(Hc & _ & ->)]]; simpl.
  - apply andb_true_iff in Hc as [Hb Hw]. split.
    + intros [= <-]. split; [done|].
      unfold within_block in Hw. apply block_enabled_iff in Hb as (b & Hb & ?).
      rewrite Hb in Hw. destruct (completed (this w) !! key) as [t|] eqn:Ht; [|done].
      apply andb_true_iff in Hw as [?%bool_decide_eq_true ?%bool_decide_eq_true].
      exists key, b, t. by split_and!.
    + by intros [-> _].
  - split; [done|]. intros (_ & key' & b & t & [= <-] & Hb & ? & Ht & ? & ?). exfalso.
    apply andb_false_iff in Hc as [Hc|Hc].
    + apply block_enabled_false_iff in Hc. apply Hc. by exists b.
    + unfold within_block in Hc. rewrite Ht, Hb in Hc.
      apply andb_false_iff in Hc as [?%bool_decide_eq_false| ?%bool_decide_eq_false]; done.
  - split.
    + destruct (launch_cases now key (ThenCatch key options) requestFn w)
        as [_ [(? & _ & -> & _)|(_ & -> & _)]]; done.
    + intros (_ & key' & b & t & [= <-] & Hb & ? & Ht & ? & ?). exfalso.
      apply andb_false_iff in Hc as [Hc|Hc].
      * apply block_enabled_false_iff in Hc. apply Hc. by exists b.
      * unfold within_block in Hc. rewrite Ht, Hb in Hc.
        apply andb_false_iff in Hc as [?%bool_decide_eq_false| ?%bool_decide_eq_false]; done.
Qed.

Lemma execute_never_in_progress (now : Z) (options : ExecuteOptions) (requestFn : OpBehaviour)
    (w : World) :
  (execute now options requestFn w).1 ≠ Throws (DuplicateRequestError in_progress).
Proof. intros H. by apply execute_rejects_iff in H as [? _]. Qed.

Lemma execute_without_block (now : Z) (options : ExecuteOptions) (requestFn : OpBehaviour)
    (w : World) (reason : Reason) :
  blockAfterComplete options = None ∨ blockAfterComplete options = Some 0 →
  (execute now options requestFn w).1 ≠ Throws (DuplicateRequestError reason).
Proof.
  intros Hb H. apply execute_rejects_iff in H as (_ & key & b & t & _ & Hb' & ? & _).
  destruct Hb as [Hb|Hb]; rewrite Hb in Hb'; simplify_eq. lia.
Qed.

(** ** Settlement *)

Lemma run_reaction_pending (now : Z) (r : Reaction) (o : Outcome) (d : RequestDeduplicator) :
  pending (run_reaction now r o d).1 = delete (reaction_key r) (pending d).
Proof.
  destruct r as [key|key options]; [done|].
  destruct o; simpl; [|done]. by destruct (block_enabled options).
Qed.

Lemma run_reaction_outcome (now : Z) (r : Reaction) (o : Outcome) (d : RequestDeduplicator) :
  (run_reaction now r o d).2 = o.
Proof. destruct r; [done|]. by destruct o. Qed.

Lemma run_reaction_timer (now : Z) (r : Reaction) (o : Outcome) (d : RequestDeduplicator) :
  cleanupIntervalId (run_reaction now r o d).1 = cleanupIntervalId d.
Proof.
  destruct r as [key|key options]; [done|].
  destruct o; simpl; [|done]. by destruct (block_enabled options).
Qed.

Lemma run_reaction_rejected (now : Z) (r : Reaction) (error : JsValue) (d : RequestDeduplicator) :
  run_reaction now r (Rejected error) d = (with_pending (delete (reaction_key r)) d, Rejected error).
Proof. by destruct r. Qed.

Lemma is_in_flight_true (w : World) (key : string) (p : nat) :
  is_in_flight w key p = true ↔
  ∃ l, promises w !! p = Some l ∧ settlement l = None ∧ reaction_key (reaction l) = key.
Proof.
  unfold is_in_flight. destruct (promises w !! p) as [l|].
  - destruct (settlement l) as [o|] eqn:Ho.
    + split; [done|]. intros (l' & [= <-] & ? & _). congruence.
    + rewrite bool_decide_eq_true. split; [eauto | by intros (l' & [= <-] & _ & ?)].
  - split; [done | by intros (l' & ? & _)].
Qed.

(** What [settle] does to an operation in flight. *)
Lemma settle_in_flight (now : Z) (p : nat) (o : Outcome) (w : World) (l : Launched) :
  promises w !! p = Some l → settlement l = None →
  settle now p o w =
    {| this := (run_reaction now (reaction l) o (this w)).1;
       promises := <[p := {| reaction := reaction l;
                              settlement := Some {| operation := o; shared := o |} |}]>
                     (promises w);
       invocations := invocations w |}.
Proof.
  intros Hl Ho. unfold settle. rewrite Hl, Ho.
  pose proof (run_reaction_outcome now (reaction l) o (this w)) as Hout.
  destruct (run_reaction now (reaction l) o (this w)) as [d o']. simpl in *. by subst o'.
Qed.

(** ** What a step preserves *)

(** A promise keeps its callbacks for ever, and its settlement once it has
    one. *)
Lemma step_keeps_promise (w : World) (e : Event) (p : nat) (l : Launched) :
  promises w !! p = Some l →
  ∃ l', promises (step w e) !! p = Some l' ∧ reaction l' = reaction l ∧
        (settlement l' = settlement l ∨
         settlement l = None ∧ ∃ now o, e = ESettle now p o ∧
           settlement l' = Some {| operation := o; shared := o |}).
Proof.
  intros Hl. destruct e as [now key rf|now options rf|now p0 o| | | | | |];
    try (exists l; simpl; by eauto).
  - simpl. unfold deduplicate. destruct (pending (this w) !! key); [by eauto|].
    destruct rf; simpl; [|by eauto]. exists l. rewrite lookup_app_l by eauto using lookup_lt_Some.
    eauto.
  - simpl. destruct (key_of options) as [key|] eqn:Hkey;
      [|rewrite execute_no_key by done; by eauto].
    destruct (execute_cases now options rf w key Hkey)
      as [[_ ->]|[(_ & e & _ & ->)|(_ & _ & ->)]]; [by eauto..|].
    destruct rf; simpl; [|by eauto]. exists l. rewrite lookup_app_l by eauto using lookup_lt_Some.
    eauto.
  - simpl. destruct (promises w !! p0) as [l0|] eqn:Hl0.
    + destruct (settlement l0) eqn:Ho0.
      * unfold settle. rewrite Hl0, Ho0. eauto.
      * rewrite (settle_in_flight now p0 o w l0) by done. simpl.
        destruct (decide (p0 = p)) as [->|Hne].
        -- rewrite list_lookup_insert_eq by eauto using lookup_lt_Some.
           simplify_eq. eexists. split; [done|]. split; [done|]. right. eauto 10.
        -- rewrite list_lookup_insert_ne by done. eauto.
    + unfold settle. rewrite Hl0. eauto.
Qed.

Lemma run_keeps_reaction (events : list Event) (w : World) (p : nat) (l : Launched) :
  promises w !! p = Some l →
  ∃ l', promises (run w events) !! p = Some l' ∧ reaction l' = reaction l.
Proof.
  revert w l. induction events as [|e events IH]; intros w l Hl; [by eauto|].
  destruct (step_keeps_promise w e p l Hl) as (l1 & Hl1 & Hr1 & _).
  destruct (IH (step w e) l1 Hl1) as (l' & Hl' & Hr'). exists l'. split; [done | congruence].
Qed.

Lemma run_keeps_observed (events : list Event) (w : World) (p : nat) (o : Outcome) :
  observed w (Returns p) = Some o → observed (run w events) (Returns p) = Some o.
Proof.
  revert w. induction events as [|e events IH]; intros w Ho; [done|].
  apply IH. simpl in *. destruct (promises w !! p) as [l|] eqn:Hl; [|done]. simpl in Ho.
  destruct (step_keeps_promise w e p l Hl) as (l1 & -> & _ & [Hs|[Hs _]]); simpl.
  - by rewrite Hs.
  - by rewrite Hs in Ho.
Qed.

(** ** At most one operation in flight per key *)

Lemma new_World_tracks (requestTimeout : option Z) :
  entries_track_flights (new_World requestTimeout).
Proof. intros p key H. apply is_in_flight_true in H as (l & Hl & _). by destruct p. Qed.

Lemma launch_tracks (now : Z) (key : string) (r : Reaction) (requestFn : OpBehaviour) (w : World) :
  reaction_key r = key → pending (this w) !! key = None →
  entries_track_flights w → entries_track_flights (launch now key r requestFn w).2.
Proof.
  intros Hr Hnone Hinv p key' Hp. apply is_in_flight_true in Hp as (l & Hl & Hs & Hk).
  destruct requestFn as [|error]; simpl in *.
  - apply lookup_app_Some in Hl as [Hl|[Hlen Hl]].
    + destruct (Hinv p key') as (e & He & Hpe); [apply is_in_flight_true; by eauto|].
      exists e. split; [|done]. rewrite lookup_insert_ne; [done|]. intros ->. congruence.
    + destruct (p - length (promises w))%nat as [|n] eqn:Hn; [|by destruct n].
      simpl in Hl. simplify_eq. simpl. rewrite lookup_insert_eq. eexists. split; [done|].
      simpl. lia.
  - apply (Hinv p key'). apply is_in_flight_true. eauto.
Qed.

Lemma settle_tracks (now : Z) (p0 : nat) (o : Outcome) (w : World) :
  entries_track_flights w → entries_track_flights (settle now p0 o w).
Proof.
  intros Hinv. destruct (promises w !! p0) as [l0|] eqn:Hl0;
    [|by unfold settle; rewrite Hl0].
  destruct (settlement l0) eqn:Hs0; [by unfold settle; rewrite Hl0, Hs0|].
  rewrite (settle_in_flight now p0 o w l0) by done.
  intros p key Hp. apply is_in_flight_true in Hp as (l & Hl & Hs & Hk). simpl in *.
  destruct (decide (p0 = p)) as [->|Hne].
  { rewrite list_lookup_insert_eq in Hl by eauto using lookup_lt_Some. by simplify_eq. }
  rewrite list_lookup_insert_ne in Hl by done.
  destruct (Hinv p key) as (e & He & Hpe); [apply is_in_flight_true; by eauto|].
  exists e. split; [|done]. rewrite run_reaction_pending, lookup_delete_ne; [done|].
  intros Hkey. destruct (Hinv p0 key) as (e0 & He0 & Hpe0).
  { apply is_in_flight_true. exists l0. by rewrite Hkey. }
  congruence.
Qed.

Lemma step_tracks (w : World) (e : Event) :
  keeps_entries e = true → entries_track_flights w → entries_track_flights (step w e).
Proof.
  intros Hk Hinv. destruct e as [now key rf|now options rf|now p0 o| |interval| | | |];
    try done; simpl.
  - unfold deduplicate. destruct (pending (this w) !! key) eqn:Hp; [done|].
    by apply launch_tracks.
  - destruct (key_of options) as [key|] eqn:Hkey; [|by rewrite execute_no_key].
    destruct (execute_cases now options rf w key Hkey)
      as [[_ ->]|[(_ & e & _ & ->)|(_ & Hp & ->)]]; [done..|].
    by apply launch_tracks.
  - by apply settle_tracks.
  - unfold on_this, startAutoCleanup. intros p key Hp. destruct (Hinv p key Hp) as (e & ? & ?).
    exists e. simpl. by destruct (cleanupIntervalId (this w)).
  - unfold on_this, stopAutoCleanup. intros p key Hp. destruct (Hinv p key Hp) as (e & ? & ?).
    exists e. simpl. by destruct (cleanupIntervalId (this w)).
Qed.

Lemma run_tracks (events : list Event) (w : World) :
  forallb keeps_entries events = true →
  entries_track_flights w → entries_track_flights (run w events).
Proof.
  revert w. induction events as [|e events IH]; intros w Hk Hinv; [done|].
  simpl in Hk. apply andb_true_iff in Hk as [He Hk]. apply IH; [done|]. by apply step_tracks.
Qed.


(** ** Calls that launch *)

(** A call launched an operation when it invoked [requestFn] and got a
    promise back. *)
Lemma execute_launched (now : Z) (options : ExecuteOptions) (requestFn : OpBehaviour)
    (w0 w1 : World) (p : nat) :
  execute now options requestFn w0 = (Returns p, w1) →
  invocations w1 = S (invocations w0) →
  ∃ key,
    key_of options = Some key ∧
    p = length (promises w0) ∧
    pending (this w0) !! key = None ∧
    this w1 = with_pending (insert key {| promise := p; startTime := now |}) (this w0) ∧
    promises w1 = promises w0 ++ [{| reaction := ThenCatch key options; settlement := None |}] ∧
    block_enabled options && within_block now (completed (this w0) !! key) options = false.
Proof.
  intros Hex Hinv.
  destruct (key_of options) as [key|] eqn:Hkey; [|by rewrite execute_no_key in Hex].
  exists key. split; [done|].
  destruct (execute_cases now options requestFn w0 key Hkey)
    as [[_ Hc]|[(_ & e & _ & Hc)|(Hb & Hp & Hc)]]; rewrite Hc in Hex.
  - done.
  - simplify_eq. lia.
  - destruct requestFn; simpl in Hex; by simplify_eq.
Qed.

(** The cool-down check is monotone in time: a record that does not block
    now does not block later. *)
Lemma within_block_later (now now' : Z) (completedTime : option Z) (options : ExecuteOptions) :
  now ≤ now' →
  within_block now completedTime options = false →
  within_block now' completedTime options = false.
Proof.
  unfold within_block. intros Hle. destruct completedTime as [t|]; [|done].
  destruct (blockAfterComplete options) as [b|]; [|done].
  rewrite !andb_false_iff, !bool_decide_eq_false. intros [?|?]; [by left | right; lia].
Qed.

Lemma deduplicate_launched (now : Z) (key : string) (requestFn : OpBehaviour)
    (w0 w1 : World) (p : nat) :
  deduplicate now key requestFn w0 = (Returns p, w1) →
  invocations w1 = S (invocations w0) →
  p = length (promises w0) ∧
  pending (this w0) !! key = None ∧
  this w1 = with_pending (insert key {| promise := p; startTime := now |}) (this w0) ∧
  promises w1 = promises w0 ++ [{| reaction := Finally key; settlement := None |}].
Proof.
  unfold deduplicate. intros Hex Hinv. destruct (pending (this w0) !! key).
  - simplify_eq. lia.
  - destruct requestFn; simpl in Hex; by simplify_eq.
Qed.

Lemma launched_reaction (w1 : World) (ps : list Launched) (r : Reaction) (events : list Event) :
  promises w1 = ps ++ [{| reaction := r; settlement := None |}] →
  ∃ l, promises (run w1 events) !! length ps = Some l ∧ reaction l = r.
Proof.
  intros Hps. apply (run_keeps_reaction events w1 (length ps) {| reaction := r; settlement := None |}).
  rewrite Hps. by apply list_lookup_middle.
Qed.

(** ** Settlement of launched operations *)

(** Settlement of an operation that [execute] launched with [options]. *)
Lemma settle_launched_by_execute
    (w0 w1 : World) (now0 : Z) (options : ExecuteOptions) (requestFn : OpBehaviour) (p : nat)
    (key : string) (events : list Event) (now : Z) (o : Outcome) :
  execute now0 options requestFn w0 = (Returns p, w1) →
  invocations w1 = S (invocations w0) →
  key_of options = Some key →
  is_in_flight (run w1 events) key p = true →
  settle now p o (run w1 events) =
    {| this := (run_reaction now (ThenCatch key options) o (this (run w1 events))).1;
       promises := <[p := {| reaction := ThenCatch key options;
                              settlement := Some {| operation := o; shared := o |} |}]>
                     (promises (run w1 events));
       invocations := invocations (run w1 events) |} ∧
  (p < length (promises (run w1 events)))%nat.
Proof.
  intros Hex Hinv Hkey Hfl.
  destruct (execute_launched _ _ _ _ _ _ Hex Hinv) as (key' & Hkey' & -> & _ & _ & Hps & _).
  assert (key' = key) as -> by congruence.
  destruct (launched_reaction w1 _ _ events Hps) as (l & Hl & Hr).
  apply is_in_flight_true in Hfl as (l' & Hl' & Hs & _).
  rewrite Hl in Hl'. injection Hl' as <-.
  rewrite (settle_in_flight now _ _ _ l) by done. rewrite Hr.
  split; [done|]. by eapply lookup_lt_Some.
Qed.

Lemma success_reaction_completed (now : Z) (key : string) (options : ExecuteOptions)
    (result : JsValue) (d : RequestDeduplicator) :
  let d' := (run_reaction now (ThenCatch key options) (Fulfilled result) d).1 in
  pending d' !! key = None ∧
  (positive_block options → completed d' = <[key := now]> (completed d)) ∧
  (¬ positive_block options → completed d' = completed d).
Proof.
  simpl. destruct (block_enabled options) eqn:Hb; simpl.
  - rewrite lookup_delete_eq. split; [done|]. split; [done|].
    intros Hn. by apply block_enabled_iff in Hb.
  - rewrite lookup_delete_eq. split; [done|]. split; [|done].
    intros Hpos. apply block_enabled_iff in Hpos. congruence.
Qed.

(** C4.  When an operation launched by [execute] settles successfully, its
    key has no Pending Entry afterwards; the Completed table gets the record
    (key, time of settlement), new or overwriting, when the launching call's
    [blockAfterComplete] was positive, and is left untouched otherwise. *)
Theorem execute_success_settlement
    (w0 w1 : World) (now0 : Z) (options : ExecuteOptions) (requestFn : OpBehaviour) (p : nat)
    (key : string) (events : list Event) (now : Z) (result : JsValue) :
  execute now0 options requestFn w0 = (Returns p, w1) →
  invocations w1 = S (invocations w0) →
  key_of options = Some key →
  is_in_flight (run w1 events) key p = true →
  let w := run w1 events in
  let w' := settle now p (Fulfilled result) w in
  pending (this w') !! key = None ∧
  (positive_block options → completed (this w') = <[key := now]> (completed (this w))) ∧
  (¬ positive_block options → completed (this w') = completed (this w)).
Proof.
  intros Hex Hinv Hkey Hfl w w'. subst w w'.
  destruct (settle_launched_by_execute _ _ _ _ _ _ _ events now (Fulfilled result)
              Hex Hinv Hkey Hfl) as [-> _].
  apply success_reaction_completed.
Qed.

Lemma execute_success_settlement_witness :
  let w1 := (execute 1000 order_blocking ReturnsPromise (new_World None)).2 in
  let w' := settle 1500 0%nat (Fulfilled JNull) (run w1 [EGetStats]) in
  pending (this w') !! order_key = None ∧ completed (this w') !! order_key = Some 1500.
Proof.
  destruct (execute_success_settlement (new_World None)
              (execute 1000 order_blocking ReturnsPromise (new_World None)).2
              1000 order_blocking ReturnsPromise 0%nat order_key [EGetStats] 1500 JNull)
    as (Hp & Hc & _); [reflexivity | reflexivity | reflexivity | reflexivity |].
  split; [exact Hp|].
  rewrite Hc; [apply lookup_insert_eq | exists 5000; split; [reflexivity | lia]].
Defined.

(** C5, as stated, fails in its retry clause.  [cleanup] evicts the
    Pending Entry of an operation that is still in flight; a second
    operation is then launched for the key and succeeds, which writes a
    Completed Record; when the first operation fails after that, no record
    is written by the failure, and yet the immediate retry is rejected as
    recently completed and invokes nothing. *)
Lemma failed_retry_counterexample :
  let w := run (new_World None)
             [EExecute 0 order_blocking ReturnsPromise; ECleanup 40000 None;
              EExecute 40001 order_blocking ReturnsPromise;
              ESettle 40002 1%nat (Fulfilled JNull)] in
  let w' := settle 40003 0%nat (Rejected (JString "timeout")) w in
  key_of order_blocking = Some order_key ∧
  is_in_flight w order_key 0%nat = true ∧
  observed w' (Returns 0%nat) = Some (Rejected (JString "timeout")) ∧
  completed (this w') = completed (this w) ∧
  completed (this w') !! order_key = Some 40002 ∧
  (execute 40003 order_blocking ReturnsPromise w').1 =
    Throws (DuplicateRequestError recently_completed) ∧
  invocations (execute 40003 order_blocking ReturnsPromise w').2 = invocations w'.
Proof. intros w w'. by split_and!. Qed.

(** C5, amended.  When an operation launched by [execute] fails, its key
    has no Pending Entry afterwards, the Completed table is as it was, and
    every caller of the shared promise observes, from then on, the
    operation's own failure value.  A retry with the same options is
    rejected only if it would have been rejected before the failure as
    well; otherwise it invokes the operation again, in particular when the
    key has no Completed Record, or has the one it had when the failed call
    was made and the clock has not gone back since.  The callback of
    [deduplicate] treats a failure in the same way. *)
Theorem execute_failure_settlement
    (w0 w1 : World) (now0 : Z) (options : ExecuteOptions) (requestFn : OpBehaviour) (p : nat)
    (key : string) (events : list Event) (now : Z) (error : JsValue) :
  execute now0 options requestFn w0 = (Returns p, w1) →
  invocations w1 = S (invocations w0) →
  key_of options = Some key →
  is_in_flight (run w1 events) key p = true →
  let w := run w1 events in
  let w' := settle now p (Rejected error) w in
  pending (this w') !! key = None ∧
  completed (this w') = completed (this w) ∧
  (∀ later, observed (run w' later) (Returns p) = Some (Rejected error)) ∧
  (∀ now' requestFn',
     let retry := execute now' options requestFn' w' in
     (retry.1 = Throws (DuplicateRequestError recently_completed) →
      (execute now' options requestFn' w).1 = Throws (DuplicateRequestError recently_completed)) ∧
     (retry.1 ≠ Throws (DuplicateRequestError recently_completed) →
      invocations retry.2 = S (invocations w')) ∧
     (completed (this w) !! key = None →
      invocations retry.2 = S (invocations w')) ∧
     (completed (this w) !! key = completed (this w0) !! key →
      now0 ≤ now' →
      invocations retry.2 = S (invocations w'))) ∧
  (∀ now' key' d,
     run_reaction now' (Finally key') (Rejected error) d =
       (with_pending (delete key') d, Rejected error)).
Proof.
  intros Hex Hinv Hkey Hfl w w'. subst w w'.
  destruct (settle_launched_by_execute _ _ _ _ _ _ _ events now (Rejected error)
              Hex Hinv Hkey Hfl) as [Hset Hlt].
  set (w := run w1 events) in *. set (w' := settle now p (Rejected error) w) in *.
  assert (pending (this w') !! key = None) as Hpend.
  { rewrite Hset. simpl. apply lookup_delete_eq. }
  assert (completed (this w') = completed (this w)) as Hcomp by by rewrite Hset.
  assert (∀ now' requestFn',
            (execute now' options requestFn' w').1 ≠
              Throws (DuplicateRequestError recently_completed) →
            invocations (execute now' options requestFn' w').2 = S (invocations w')) as Hretry.
  { intros now' rf Hne.
    destruct (execute_cases now' options rf w' key Hkey)
      as [[_ Hc]|[(_ & e & He & _)|(_ & _ & Hc)]].
    - by rewrite Hc in Hne.
    - simpl in He. congruence.
    - rewrite Hc. apply launch_cases. }
  split_and!; [done | done | | | done].
  - intros later. apply run_keeps_observed. rewrite Hset. simpl.
    by rewrite list_lookup_insert_eq.
  - intros now' rf. simpl. split_and!.
    + intros H. apply execute_rejects_iff in H. apply execute_rejects_iff.
      by rewrite <- Hcomp.
    + apply Hretry.
    + intros Hnone. apply Hretry. intros H.
      apply execute_rejects_iff in H as (_ & key' & b & t & Hkey' & _ & _ & Ht & _).
      congruence.
    + intros Hsame Hle. apply Hretry. intros H.
      destruct (execute_launched _ _ _ _ _ _ Hex Hinv) as (key0 & Hkey0 & _ & _ & _ & _ & Hpass).
      assert (key0 = key) as -> by congruence.
      apply execute_rejects_iff in H as (_ & key' & b & t & Hkey' & Hb & Hpos & Ht & Hnz & Hage).
      assert (key' = key) as -> by congruence.
      rewrite Hcomp, Hsame in Ht.
      assert (block_enabled options = true) as Hen by (apply block_enabled_iff; by exists b).
      rewrite Hen in Hpass. simpl in Hpass.
      apply (within_block_later now0 now' _ _ Hle) in Hpass.
      unfold within_block in Hpass. rewrite Ht, Hb in Hpass.
      apply andb_false_iff in Hpass as [?%bool_decide_eq_false| ?%bool_decide_eq_false]; done.
Qed.

Lemma execute_failure_settlement_witness :
  let w1 := (execute 1000 order_blocking ReturnsPromise (new_World None)).2 in
  let w' := settle 1500 0%nat (Rejected (JString "timeout")) (run w1 [EGetStats]) in
  pending (this w') !! order_key = None ∧
  completed (this w') = ∅ ∧
  observed w' (Returns 0%nat) = Some (Rejected (JString "timeout")) ∧
  invocations (execute 1500 order_blocking ReturnsPromise w').2 = 2%nat.
Proof.
  destruct (execute_failure_settlement (new_World None)
              (execute 1000 order_blocking ReturnsPromise (new_World None)).2
              1000 order_blocking ReturnsPromise 0%nat order_key [EGetStats] 1500
              (JString "timeout"))
    as (Hp & Hc & Ho & Hr & _); [reflexivity | reflexivity | reflexivity | reflexivity |].
  split; [exact Hp|]. split; [exact Hc|]. split; [exact (Ho [])|].
  destruct (Hr 1500 ReturnsPromise) as (_ & _ & _ & Hn). apply Hn; [reflexivity | lia].
Defined.

(** ** [deduplicate] and the Completed table *)

(** C9.  [deduplicate] neither reads nor writes the Completed table: a call
    never rejects with a [DuplicateRequestError], whatever Completed Records
    exist; the call leaves the table, hence [completedCount], as it was; and
    so does the settlement of the operation it launched, whenever that
    happens and however it ends. *)
Theorem deduplicate_never_touches_completed
    (w0 : World) (now0 : Z) (key : string) (requestFn : OpBehaviour) :
  let r := (deduplicate now0 key requestFn w0).1 in
  let w1 := (deduplicate now0 key requestFn w0).2 in
  (∀ reason, r ≠ Throws (DuplicateRequestError reason)) ∧
  completed (this w1) = completed (this w0) ∧
  completedCount (getStats (this w1)) = completedCount (getStats (this w0)) ∧
  (∀ p events now o,
     r = Returns p → invocations w1 = S (invocations w0) →
     completed (this (settle now p o (run w1 events))) = completed (this (run w1 events))).
Proof.
  simpl.
  assert (completed (this (deduplicate now0 key requestFn w0).2) = completed (this w0)) as Hc.
  { unfold deduplicate. destruct (pending (this w0) !! key); [done|]. by destruct requestFn. }
  split_and!.
  - intros reason. unfold deduplicate. destruct (pending (this w0) !! key); [done|].
    by destruct requestFn.
  - done.
  - unfold getStats. simpl. by rewrite Hc.
  - intros p events now o Hr Hinv.
    destruct (deduplicate now0 key requestFn w0) as [r w1] eqn:Hd. simpl in *. subst r.
    destruct (deduplicate_launched _ _ _ _ _ _ Hd Hinv) as (-> & _ & _ & Hps).
    destruct (launched_reaction w1 _ _ events Hps) as (l & Hl & Hr).
    destruct (settlement l) eqn:Hs.
    + unfold settle. by rewrite Hl, Hs.
    + rewrite (settle_in_flight now _ _ _ l) by done. by rewrite Hr.
Qed.

Lemma deduplicate_never_touches_completed_witness :
  (execute 2000 order_blocking ReturnsPromise order_cooling).1 =
    Throws (DuplicateRequestError recently_completed) ∧
  (deduplicate 2000 order_key ReturnsPromise order_cooling).1 = Returns 1%nat ∧
  let w1 := (deduplicate 2000 order_key ReturnsPromise order_cooling).2 in
  completed (this (settle 2500 1%nat (Fulfilled JNull) (run w1 []))) = completed (this order_cooling).
Proof.
  split; [reflexivity|]. split; [reflexivity|].
  destruct (deduplicate_never_touches_completed order_cooling 2000 order_key ReturnsPromise)
    as (_ & Hc & _ & Hs).
  intros w1. subst w1. rewrite (Hs 1%nat [] 2500 (Fulfilled JNull)); [exact Hc | reflexivity..].
Defined.

(** ** Attaching calls *)

(** C10.  An [execute] call that finds a Pending Entry for its key and
    attaches returns the entry's promise and leaves the whole state as it
    was.  When the entry was registered by an earlier [execute] call and the
    shared operation then succeeds, a Completed Record is written exactly
    when the registering call's [blockAfterComplete] was positive, whatever
    the attaching call's [blockAfterComplete] is. *)
Theorem attaching_execute_mutates_nothing
    (w : World) (now1 : Z) (options1 : ExecuteOptions) (requestFn1 : OpBehaviour)
    (key : string) (existing : PendingEntry) :
  key_of options1 = Some key →
  pending (this w) !! key = Some existing →
  (execute now1 options1 requestFn1 w).1 ≠ Throws (DuplicateRequestError recently_completed) →
  execute now1 options1 requestFn1 w = (Returns (promise existing), w) ∧
  (∀ w0 w1 now0 options0 requestFn0 events now result,
     execute now0 options0 requestFn0 w0 = (Returns (promise existing), w1) →
     invocations w1 = S (invocations w0) →
     w = run w1 events →
     key_of options0 = Some key →
     is_in_flight w key (promise existing) = true →
     let w' := settle now (promise existing) (Fulfilled result)
                 (execute now1 options1 requestFn1 w).2 in
     (positive_block options0 →
        completed (this w') = <[key := now]> (completed (this w))) ∧
     (¬ positive_block options0 → completed (this w') = completed (this w))).
Proof.
  intros Hkey Hp Hne.
  assert (execute now1 options1 requestFn1 w = (Returns (promise existing), w)) as Hat.
  { destruct (execute_cases now1 options1 requestFn1 w key Hkey)
      as [[_ Hc]|[(_ & e & He & Hc)|(_ & He & _)]].
    - by rewrite Hc in Hne.
    - rewrite Hc. congruence.
    - congruence. }
  split; [done|].
  intros w0 w1 now0 options0 requestFn0 events now result Hex Hinv -> Hk Hfl.
  rewrite Hat. simpl.
  destruct (settle_launched_by_execute _ _ _ _ _ _ _ events now (Fulfilled result)
              Hex Hinv Hk Hfl) as [-> _].
  apply success_reaction_completed.
Qed.

(** The entry is registered without a cool-down; a call that asks for one
    attaches; no record is written when the operation succeeds. *)
Lemma attaching_execute_mutates_nothing_witness :
  let w := (execute 1000 order_plain ReturnsPromise (new_World None)).2 in
  execute 1200 order_blocking ReturnsPromise w = (Returns 0%nat, w) ∧
  completed (this (settle 1500 0%nat (Fulfilled JNull)
                     (execute 1200 order_blocking ReturnsPromise w).2)) = ∅.
Proof.
  intros w.
  destruct (attaching_execute_mutates_nothing w 1200 order_blocking ReturnsPromise order_key
              {| promise := 0; startTime := 1000 |}) as [Hat Hset];
    [reflexivity | reflexivity | by vm_compute |].
  split; [exact Hat|].
  destruct (Hset (new_World None) w 1000 order_plain ReturnsPromise [] 1500 JNull) as [_ Hno];
    [reflexivity..|].
  cbn [promise] in Hno. rewrite Hno; [reflexivity|]. intros (b & Hb & _). discriminate Hb.
Defined.

(** ** A record stamped 0 *)

(** C2.  A record written while the clock read 0 is not seen by the
    cool-down check: the table holds a Completed Record for the key, its age
    is 2000, below the positive [blockAfterComplete] of 5000, and yet
    [execute] does not reject but invokes the operation a second time. *)
Theorem execute_misses_record_stamped_zero :
  let w := run (new_World None)
             [EExecute 0 order_blocking ReturnsPromise; ESettle 0 0%nat (Fulfilled JNull)] in
  key_of order_blocking = Some order_key ∧
  completed (this w) !! order_key = Some 0 ∧
  pending (this w) !! order_key = None ∧
  positive_block order_blocking ∧
  2000 - 0 < 5000 ∧
  execute 2000 order_blocking ReturnsPromise w ≠
    (Throws (DuplicateRequestError recently_completed), w) ∧
  (execute 2000 order_blocking ReturnsPromise w).1 = Returns 1%nat ∧
  invocations (execute 2000 order_blocking ReturnsPromise w).2 = 2%nat.
Proof.
  intros w. split; [reflexivity|]. split; [reflexivity|]. split; [reflexivity|].
  split; [exists 5000; split; [reflexivity | lia]|]. split; [lia|].
  split; [|split; reflexivity].
  intros H. apply (f_equal fst) in H. by vm_compute in H.
Qed.

(** ** Pending Entries and operations in flight *)

Lemma new_World_entries_are_flights (requestTimeout : option Z) :
  entries_are_flights (new_World requestTimeout).
Proof. intros key e He. simpl in He. by rewrite lookup_empty in He. Qed.

Lemma launch_entries_are_flights (now : Z) (key : string) (r : Reaction) (requestFn : OpBehaviour)
    (w : World) :
  reaction_key r = key →
  entries_are_flights w → entries_are_flights (launch now key r requestFn w).2.
Proof.
  intros Hr Hinv key' e He. destruct requestFn as [|error]; simpl in *.
  - apply is_in_flight_true. destruct (decide (key = key')) as [<-|Hne].
    + rewrite lookup_insert_eq in He. injection He as <-. simpl.
      eexists. split; [by apply list_lookup_middle|]. by split.
    + rewrite lookup_insert_ne in He by done.
      apply Hinv, is_in_flight_true in He as (l & Hl & Hs & Hk).
      exists l. simpl. split; [|done]. by rewrite lookup_app_l by eauto using lookup_lt_Some.
  - apply is_in_flight_true. apply Hinv, is_in_flight_true in He. done.
Qed.

Lemma settle_entries_are_flights (now : Z) (p0 : nat) (o : Outcome) (w : World) :
  entries_are_flights w → entries_are_flights (settle now p0 o w).
Proof.
  intros Hinv. destruct (promises w !! p0) as [l0|] eqn:Hl0;
    [|by unfold settle; rewrite Hl0].
  destruct (settlement l0) eqn:Hs0; [by unfold settle; rewrite Hl0, Hs0|].
  rewrite (settle_in_flight now p0 o w l0) by done.
  intros key e He. simpl in He. rewrite run_reaction_pending in He.
  destruct (decide (reaction_key (reaction l0) = key)) as [Heq|Hne].
  { subst key. by rewrite lookup_delete_eq in He. }
  rewrite lookup_delete_ne in He by done.
  apply Hinv, is_in_flight_true in He as (l & Hl & Hs & Hk).
  apply is_in_flight_true. exists l. split; [|done]. simpl.
  rewrite list_lookup_insert_ne; [done|]. intros ->. congruence.
Qed.

Lemma step_entries_are_flights (w : World) (e : Event) :
  keeps_entries e = true → entries_are_flights w → entries_are_flights (step w e).
Proof.
  intros Hk Hinv. destruct e as [now key rf|now options rf|now p0 o| |interval| | | |];
    try done; simpl.
  - unfold deduplicate. destruct (pending (this w) !! key) eqn:Hp; [done|].
    by apply launch_entries_are_flights.
  - destruct (key_of options) as [key|] eqn:Hkey; [|by rewrite execute_no_key].
    destruct (execute_cases now options rf w key Hkey)
      as [[_ ->]|[(_ & e & _ & ->)|(_ & Hp & ->)]]; [done..|].
    by apply launch_entries_are_flights.
  - by apply settle_entries_are_flights.
  - intros key e He. apply (Hinv key e). simpl in He.
    unfold startAutoCleanup in He. by destruct (cleanupIntervalId (this w)).
  - intros key e He. apply (Hinv key e). simpl in He.
    unfold stopAutoCleanup in He. by destruct (cleanupIntervalId (this w)).
Qed.

Lemma run_entries_are_flights (events : list Event) (w : World) :
  forallb keeps_entries events = true →
  entries_are_flights w → entries_are_flights (run w events).
Proof.
  revert w. induction events as [|e events IH]; intros w Hk Hinv; [done|].
  simpl in Hk. apply andb_true_iff in Hk as [He Hk]. apply IH; [done|].
  by apply step_entries_are_flights.
Qed.

Lemma is_unsettled_in_flight (w : World) (p : nat) :
  is_unsettled w p = true ↔ ∃ key, is_in_flight w key p = true.
Proof.
  unfold is_unsettled, is_in_flight. destruct (promises w !! p) as [l|].
  - destruct (settlement l); [by split; [|intros [? ?]]|]. split; [|done].
    intros _. exists (reaction_key (reaction l)). by apply bool_decide_eq_true.
  - by split; [|intros [? ?]].
Qed.

(** The promises of the Pending Entries are the operations in flight, each
    once. *)
Lemma pending_promises_in_flight (w : World) :
  entries_track_flights w → entries_are_flights w →
  (λ kv, promise kv.2) <$> map_to_list (pending (this w)) ≡ₚ all_in_flight w.
Proof.
  intros Htrack Hare. apply NoDup_Permutation.
  - apply NoDup_fmap_2_strong; [|apply NoDup_map_to_list].
    intros [k1 e1] [k2 e2] H1%elem_of_map_to_list H2%elem_of_map_to_list Heq. simpl in *.
    pose proof (Hare k1 e1 H1) as Hf1. pose proof (Hare k2 e2 H2) as Hf2.
    apply is_in_flight_true in Hf1 as (l1 & Hl1 & _ & Hk1).
    apply is_in_flight_true in Hf2 as (l2 & Hl2 & _ & Hk2).
    rewrite Heq in Hl1. assert (k1 = k2) as -> by congruence. congruence.
  - apply NoDup_filter, NoDup_seq.
  - intros p. unfold all_in_flight.
    rewrite list_elem_of_fmap, list_elem_of_filter, elem_of_seq. split.
    + intros ([k e] & -> & He%elem_of_map_to_list). simpl.
      apply Hare in He. split.
      * apply Is_true_true, is_unsettled_in_flight. eauto.
      * apply is_in_flight_true in He as (l & Hl & _). apply lookup_lt_Some in Hl. lia.
    + intros [Hu _]. apply Is_true_true, is_unsettled_in_flight in Hu as [key Hf].
      destruct (Htrack p key Hf) as (e & He & <-). exists (key, e).
      split; [done|]. by apply elem_of_map_to_list.
Qed.

(** ** Runs with operations that call back *)

Lemma launch_pending_ne (now : Z) (key : string) (r : Reaction) (requestFn : OpBehaviour)
    (w : World) (k : string) :
  k ≠ key → pending (this (launch now key r requestFn w).2) !! k = pending (this w) !! k.
Proof. intros Hne. destruct requestFn; simpl; [|done]. by rewrite lookup_insert_ne. Qed.


Lemma call_in_order (c : Call Operation) (w : World) :
  on_operation invocation_in_order c →
  Reentrant.orderly_call c = true →
  tables_in_order w →
  tables_in_order (Reentrant.call c w) ∧
  (∀ k, k ∉ Reentrant.call_keys c →
        pending (this (Reentrant.call c w)) !! k = pending (this w) !! k).
Proof.
  intros HP Ho [Ht Ha].
  destruct c as [now key rf|now options rf|now maxAge|interval| | |]; simpl in *; try done.
  - apply andb_true_iff in Ho as [Hkey%bool_decide_eq_true Ho].
    unfold Reentrant.call, Reentrant.call_with, Reentrant.deduplicate_with.
    destruct (pending (this w) !! key) eqn:Hp; [done|].
    destruct (HP w Ho (conj Ht Ha)) as [[Ht1 Ha1] Hframe].
    destruct (Reentrant.invoke rf w) as [ends w1]. simpl in *.
    assert (pending (this w1) !! key = None) as Hp1 by (by rewrite Hframe).
    split; [split|].
    + by apply launch_tracks.
    + by apply launch_entries_are_flights.
    + intros k [Hne Hk]%not_elem_of_cons. rewrite launch_pending_ne by done. by apply Hframe.
  - apply andb_true_iff in Ho as [Hkey Ho].
    unfold Reentrant.call, Reentrant.call_with, Reentrant.execute_with.
    fold (key_of options). destruct (key_of options) as [key|]; [|done].
    apply bool_decide_eq_true in Hkey.
    destruct (block_enabled options && within_block now (completed (this w) !! key) options);
      [done|].
    destruct (pending (this w) !! key) eqn:Hp; [done|].
    destruct (HP w Ho (conj Ht Ha)) as [[Ht1 Ha1] Hframe].
    destruct (Reentrant.invoke rf w) as [ends w1]. simpl in *.
    assert (pending (this w1) !! key = None) as Hp1 by (by rewrite Hframe).
    split; [split|].
    + by apply launch_tracks.
    + by apply launch_entries_are_flights.
    + intros k [Hne Hk]%not_elem_of_cons. rewrite launch_pending_ne by done. by apply Hframe.
  - split; [split|].
    + by apply (step_tracks w (EStartAutoCleanup interval)).
    + by apply (step_entries_are_flights w (EStartAutoCleanup interval)).
    + intros k _. unfold startAutoCleanup. by destruct (cleanupIntervalId (this w)).
  - split; [split|].
    + by apply (step_tracks w EStopAutoCleanup).
    + by apply (step_entries_are_flights w EStopAutoCleanup).
    + intros k _. unfold stopAutoCleanup. by destruct (cleanupIntervalId (this w)).
Qed.

Lemma calls_in_order (calls : list (Call Operation)) :
  Forall (on_operation invocation_in_order) calls →
  ∀ w, forallb Reentrant.orderly_call calls = true →
       tables_in_order w →
       tables_in_order (fold_left (λ w c, Reentrant.call c w) calls w) ∧
       (∀ k, k ∉ concat (map Reentrant.call_keys calls) →
             pending (this (fold_left (λ w c, Reentrant.call c w) calls w)) !! k =
             pending (this w) !! k).
Proof.
  induction 1 as [|c calls Hc Hcalls IH]; intros w Ho Hw; [done|].
  simpl in Ho. apply andb_true_iff in Ho as [Hoc Ho].
  destruct (call_in_order c w Hc Hoc Hw) as [Hw1 Hf1].
  destruct (IH (Reentrant.call c w) Ho Hw1) as [Hw2 Hf2].
  split; [done|]. intros k Hk. simpl in Hk. apply not_elem_of_app in Hk as [Hk1 Hk2].
  simpl. rewrite Hf2 by done. by apply Hf1.
Qed.

Lemma invoke_in_order (requestFn : Operation) : invocation_in_order requestFn.
Proof.
  induction requestFn as [calls ends IH] using Operation_nested_ind.
  intros w Ho Hw. by apply calls_in_order.
Qed.

Lemma new_World_in_order (requestTimeout : option Z) : tables_in_order (new_World requestTimeout).
Proof. split; [apply new_World_tracks | apply new_World_entries_are_flights]. Qed.

Lemma step_in_order (w : World) (e : Reentrant.Event) :
  Reentrant.orderly e = true → tables_in_order w → tables_in_order (Reentrant.step w e).
Proof.
  intros Ho Hw. destruct e as [c|now p o|now]; [| |done].
  - apply call_in_order; [|done..]. destruct c; try done; apply invoke_in_order.
  - destruct Hw as [Ht Ha]. split; [by apply settle_tracks | by apply settle_entries_are_flights].
Qed.

Lemma run_in_order (events : list Reentrant.Event) (w : World) :
  forallb Reentrant.orderly events = true →
  tables_in_order w → tables_in_order (Reentrant.run w events).
Proof.
  revert w. induction events as [|e events IH]; intros w Ho Hw; [done|].
  simpl in Ho. apply andb_true_iff in Ho as [He Ho]. apply IH; [done|]. by apply step_in_order.
Qed.









(** ** Sharing the promise of the operation in flight *)




(** * Properties of key canonicalization *)

(** ** The source form of [sortObjectKeys] on objects *)

Lemma normalized_get_prop (record : list (string * JsValue)) (key : string) :
  get_prop
    ((fix go (r : list (string * JsValue)) : list (string * JsValue) :=
        match r with
        | [] => []
        | (k, v) :: r' => (k, sortObjectKeys v) :: go r'
        end) record) key
  = sortObjectKeys (get_prop record key).
Proof.
  induction record as [|[k v] record IH]; [done|].
  cbn [get_prop]. by destruct (decide (k = key)).
Qed.

Lemma fold_set_prop_ext (g1 g2 : string → JsValue) (keys : list string)
    (acc : list (string * JsValue)) :
  (∀ k, k ∈ keys → g1 k = g2 k) →
  fold_left (λ result key, set_prop result key (g1 key)) keys acc =
  fold_left (λ result key, set_prop result key (g2 key)) keys acc.
Proof.
  revert acc. induction keys as [|k keys IH]; intros acc Hg; [done|].
  simpl. rewrite (Hg k) by left. apply IH. intros k' Hk'. apply Hg. by right.
Qed.

(** [result[key] = this.sortObjectKeys(record[key])] for the sorted keys. *)
Lemma sortObjectKeys_object (record : list (string * JsValue)) :
  sortObjectKeys (JObject record) =
  JObject (fold_left (λ result key, set_prop result key (sortObjectKeys (get_prop record key)))
             (sort_keys (Object_keys record)) []).
Proof.
  cbn [sortObjectKeys]. f_equal. apply fold_set_prop_ext. intros k _.
  apply normalized_get_prop.
Qed.

(** ** Normalization does not see property order *)

Lemma get_prop_elem (r : list (string * JsValue)) (k : string) :
  k ∈ r.*1 → (k, get_prop r k) ∈ r.
Proof.
  induction r as [|[k' v] r IH]; [by intros ?%elem_of_nil|].
  intros Hk. cbn [get_prop]. destruct (decide (k' = k)) as [->|Hne]; [left|].
  right. apply IH. apply elem_of_cons in Hk as [?|?]; [simpl in *; congruence | done].
Qed.

Lemma get_prop_NoDup (r : list (string * JsValue)) (k : string) (v : JsValue) :
  NoDup r.*1 → (k, v) ∈ r → get_prop r k = v.
Proof.
  induction r as [|[k' v'] r IH]; [by intros _ ?%elem_of_nil|].
  intros [Hnotin Hnd]%NoDup_cons Hin. cbn [get_prop].
  apply elem_of_cons in Hin as [[= -> ->]|Hin].
  - by rewrite decide_True.
  - destruct (decide (k' = k)) as [->|Hne]; [|by apply IH].
    exfalso. apply Hnotin. apply list_elem_of_fmap. by exists (k, v).
Qed.

Lemma sort_keys_Permutation (ks1 ks2 : list string) :
  ks1 ≡ₚ ks2 → sort_keys ks1 = sort_keys ks2.
Proof.
  intros Hp. apply (Sorted_unique String.le); [apply Sorted_merge_sort, _ .. |].
  unfold sort_keys. by rewrite !merge_sort_Permutation.
Qed.

Lemma Forall2_same_keys (r1 r2 : list (string * JsValue)) :
  Forall2 (λ kv1 kv2, kv1.1 = kv2.1 ∧ key_order_equiv kv1.2 kv2.2) r1 r2 → r1.*1 = r2.*1.
Proof.
  induction 1 as [|[k1 v1] [k2 v2] r1 r2 [Hk _] _ IH]; [done|].
  rewrite !fmap_cons. simpl in Hk. by rewrite Hk, IH.
Qed.

Lemma sortObjectKeys_key_order (v1 : JsValue) :
  ∀ v2, key_order_equiv v1 v2 → sortObjectKeys v1 = sortObjectKeys v2.
Proof.
  induction v1 as [| | | | | |l1 IH|r1 IH] using JsValue_nested_ind;
    intros v2 Heq; inversion Heq as [|? l2 Hl|? r1' r2 Hnd Hperm Hr]; subst; try done.
  - cbn [sortObjectKeys]. f_equal. clear Heq.
    induction Hl as [|x y l1 l2 Hxy Hl IHl]; [done|].
    apply Forall_cons in IH as [Hx IH]. simpl. f_equal; [by apply Hx | by apply IHl].
  - rewrite !sortObjectKeys_object.
    assert (r1.*1 ≡ₚ r2.*1) as Hkeys.
    { rewrite <- (Forall2_same_keys r1' r2 Hr). by apply fmap_Permutation. }
    assert (NoDup r2.*1) as Hnd2 by by rewrite <- Hkeys.
    unfold Object_keys. rewrite <- (sort_keys_Permutation _ _ Hkeys). f_equal.
    apply fold_set_prop_ext. intros k Hk.
    assert (k ∈ r1.*1) as Hk1.
    { unfold sort_keys in Hk. by rewrite merge_sort_Permutation in Hk. }
    pose proof (get_prop_elem r1 k Hk1) as Hin1.
    assert ((k, get_prop r1 k) ∈ r1') as Hin1' by by rewrite <- Hperm.
    apply list_elem_of_lookup in Hin1' as [i Hi].
    destruct (Forall2_lookup_l _ _ _ _ _ Hr Hi) as ([k2 v2] & Hi2 & Hk2 & Hv). simpl in *.
    subst k2. rewrite (get_prop_NoDup r2 k v2 Hnd2) by eauto using list_elem_of_lookup_2.
    rewrite Forall_forall in IH. by apply (IH (k, get_prop r1 k)).
Qed.

(** ** [String(data)] does not see property order *)

Lemma ToString_array (l : list JsValue) :
  ToString (JArray l) = join_with "," <$> elems_to_strings l.
Proof. reflexivity. Qed.

Lemma has_prop_elem (o : list (string * JsValue)) (k : string) :
  has_prop o k = true ↔ k ∈ o.*1.
Proof.
  induction o as [|[k' v] o IH]; [by rewrite elem_of_nil|].
  cbn [has_prop]. rewrite fmap_cons, elem_of_cons. simpl.
  destruct (decide (k' = k)) as [->|Hne]; [by split; [left|]|].
  rewrite IH. split; [by right | by intros [?|?]].
Qed.

(** Whether an object has a property depends on its set of names only. *)
Lemma has_prop_Permutation (r1 r2 : list (string * JsValue)) (k : string) :
  r1.*1 ≡ₚ r2.*1 → has_prop r1 k = has_prop r2 k.
Proof.
  intros Hp. apply eq_true_iff_eq. rewrite !has_prop_elem. by rewrite Hp.
Qed.

Lemma ToString_key_order (v1 : JsValue) :
  ∀ v2, key_order_equiv v1 v2 → ToString v1 = ToString v2.
Proof.
  induction v1 as [| | | | | |l1 IH|r1 IH] using JsValue_nested_ind;
    intros v2 Heq; inversion Heq as [|? l2 Hl|? r1' r2 Hnd Hperm Hr]; subst; try done.
  - rewrite !ToString_array. f_equal. clear Heq.
    induction Hl as [|x y l1 l2 Hxy Hl IHl]; [done|].
    apply Forall_cons in IH as [Hx IH]. cbn [elems_to_strings].
    assert (elem_to_string x = elem_to_string y) as ->.
    { pose proof (Hx y Hxy) as Hs. by inversion Hxy; subst. }
    by rewrite IHl.
  - cbn [ToString]. rewrite (has_prop_Permutation r1 r2); [done|].
    rewrite <- (Forall2_same_keys r1' r2 Hr). by apply fmap_Permutation.
Qed.

Lemma generateKey_key_order (method url : string) (data1 data2 : JsValue) :
  key_order_equiv data1 data2 → generateKey method url data1 = generateKey method url data2.
Proof.
  intros Heq.
  assert (dataKey_of data1 = dataKey_of data2) as Hk.
  { unfold dataKey_of. rewrite (sortObjectKeys_key_order data1 data2 Heq).
    by rewrite (ToString_key_order data1 data2 Heq). }
  unfold generateKey. inversion Heq; subst; [done | by rewrite Hk..].
Qed.

Ltac distinct_keys := apply (bool_decide_unpack _); vm_compute; exact I.

Lemma payloads_key_order_equiv : key_order_equiv payload_a payload_b.
Proof.
  eapply (koe_object _ [_; _]).
  - distinct_keys.
  - apply Permutation_swap.
  - repeat constructor. simpl.
    eapply (koe_object _ [_; _]).
    + distinct_keys.
    + apply Permutation_swap.
    + repeat constructor.
Defined.

(** ** Property assignment *)

Lemma insert_index_Permutation (i : N) (k : string) (v : JsValue) (o : list (string * JsValue)) :
  insert_index i k v o ≡ₚ (k, v) :: o.
Proof.
  induction o as [|[k' v'] o IH]; [done|]. cbn [insert_index].
  destruct (array_index k') as [j|]; [|done]. destruct (j <? i)%N; [|done].
  by rewrite IH, Permutation_swap.
Qed.

(** Assigning a new property other than [__proto__] adds it, somewhere. *)
Lemma set_prop_fresh (result : list (string * JsValue)) (key : string) (v : JsValue) :
  key ∉ result.*1 → key ≠ "__proto__" → set_prop result key v ≡ₚ (key, v) :: result.
Proof.
  intros Hfresh Hne. unfold set_prop. rewrite decide_False by done.
  destruct (has_prop result key) eqn:Hhas; [by apply has_prop_elem in Hhas|].
  destruct (array_index key) as [i|]; [apply insert_index_Permutation|].
  by rewrite Permutation_app_comm.
Qed.

Lemma build_object_Permutation (g : string → JsValue) (keys : list string)
    (result : list (string * JsValue)) :
  NoDup (result.*1 ++ keys) →
  build_object g keys result ≡ₚ
    result ++ ((λ k, (k, g k)) <$> filter (λ k, k ≠ "__proto__") keys).
Proof.
  revert result. induction keys as [|k keys IH]; intros result Hnd.
  - simpl. by rewrite app_nil_r.
  - apply NoDup_app in Hnd as (Hr & Hdisj & [Hk Hks]%NoDup_cons).
    cbn [build_object fold_left]. fold (build_object g keys (set_prop result k (g k))).
    destruct (decide (k = "__proto__")) as [->|Hne].
    + unfold set_prop at 1. rewrite decide_True by done.
      rewrite filter_cons_False by (by intros ?). apply IH.
      apply NoDup_app. split_and!; [done | | done].
      intros x Hx. specialize (Hdisj x Hx). rewrite not_elem_of_cons in Hdisj. tauto.
    + assert (k ∉ result.*1) as Hfresh.
      { intros Hin. apply (Hdisj k Hin). left. }
      pose proof (set_prop_fresh result k (g k) Hfresh Hne) as Hset.
      rewrite IH.
      * rewrite filter_cons_True by done. rewrite fmap_cons, Hset.
        by rewrite <- Permutation_middle.
      * rewrite Hset, fmap_cons. simpl. apply NoDup_cons. split.
        -- rewrite elem_of_app. tauto.
        -- apply NoDup_app. split_and!; [done | | done].
           intros x Hx. specialize (Hdisj x Hx). rewrite not_elem_of_cons in Hdisj. tauto.
Qed.

(** Assignments to [__proto__] can be left out of the [reduce]. *)
Lemma build_object_skips_proto (g : string → JsValue) (keys : list string)
    (result : list (string * JsValue)) :
  build_object g (filter (λ k, k ≠ "__proto__") keys) result = build_object g keys result.
Proof.
  revert result. induction keys as [|k keys IH]; intros result; [done|].
  destruct (decide (k = "__proto__")) as [->|Hne].
  - rewrite filter_cons_False by (by intros ?). rewrite IH.
    cbn [build_object fold_left]. unfold set_prop at 2. by rewrite decide_True.
  - rewrite filter_cons_True by done. cbn [build_object fold_left]. apply IH.
Qed.

Lemma StronglySorted_filter {A} (R : relation A) (P : A → Prop) `{∀ x, Decision (P x)}
    (l : list A) :
  StronglySorted R l → StronglySorted R (filter P l).
Proof.
  induction 1 as [|x l Hl IH Hx]; [constructor|].
  destruct (decide (P x)).
  - rewrite filter_cons_True by done. constructor; [done|].
    apply Forall_forall. intros y [_ Hy]%list_elem_of_filter.
    rewrite Forall_forall in Hx. by apply Hx.
  - by rewrite filter_cons_False.
Qed.

(** Sorting and filtering the keys commute. *)
Lemma sort_keys_filter (P : string → Prop) `{∀ x, Decision (P x)} (keys : list string) :
  filter P (sort_keys keys) = sort_keys (filter P keys).
Proof.
  apply (Sorted_unique String.le).
  - apply StronglySorted_Sorted, StronglySorted_filter.
    apply (Sorted_StronglySorted String.le). apply Sorted_merge_sort, _.
  - apply Sorted_merge_sort, _.
  - unfold sort_keys. by rewrite !merge_sort_Permutation.
Qed.

Lemma sortObjectKeys_build (r : list (string * JsValue)) :
  sortObjectKeys (JObject r) =
  JObject (build_object (λ k, sortObjectKeys (get_prop r k)) (sort_keys r.*1) []).
Proof. apply sortObjectKeys_object. Qed.

Lemma fmap_key_of_pairs (g : string → JsValue) (keys : list string) :
  ((λ k, (k, g k)) <$> keys).*1 = keys.
Proof. induction keys as [|k keys IH]; [done|]. rewrite !fmap_cons, IH. done. Qed.

(** ** Arrays keep the order of their elements *)

Lemma append_cons (c : Ascii.ascii) (s t : string) : String c s +:+ t = String c (s +:+ t).
Proof. reflexivity. Qed.

Lemma append_nil_l (t : string) : EmptyString +:+ t = t.
Proof. reflexivity. Qed.

Lemma append_assoc (s1 s2 s3 : string) : (s1 +:+ s2) +:+ s3 = s1 +:+ (s2 +:+ s3).
Proof. induction s1 as [|c s1 IH]; [done|]. by rewrite !append_cons, IH. Qed.

Lemma append_nil_r (s : string) : s +:+ EmptyString = s.
Proof. induction s as [|c s IH]; [done|]. by rewrite append_cons, IH. Qed.

Lemma moves_nil (m : Mode) (d : nat) : moves m d EmptyString m d.
Proof. intros tail. rewrite !append_nil_l. by destruct (split_value m d tail). Qed.

Lemma moves_app (m : Mode) (d : nat) (s1 : string) (m1 : Mode) (d1 : nat) (s2 : string)
    (m2 : Mode) (d2 : nat) :
  moves m d s1 m1 d1 → moves m1 d1 s2 m2 d2 → moves m d (s1 +:+ s2) m2 d2.
Proof.
  intros H1 H2 tail. rewrite append_assoc, H1, H2. cbn [fst snd]. by rewrite append_assoc.
Qed.

Lemma plain_moves (c : Ascii.ascii) (s : string) (d : nat) :
  plain c = true → moves Outside d s Outside d → moves Outside d (String c s) Outside d.
Proof.
  unfold plain. intros Hc Hs tail. rewrite append_cons. cbn [split_value].
  destruct (is_char 34 c), (is_char 91 c), (is_char 123 c), (is_char 93 c),
    (is_char 125 c), (is_char 44 c); try discriminate Hc.
  cbn [orb]. by rewrite Hs.
Qed.

(** Inside brackets a comma does not end the value. *)
Lemma plain_moves_comma (s : string) (d : nat) :
  moves Outside (S d) s Outside (S d) → moves Outside (S d) (String (Ascii.ascii_of_N 44) s) Outside (S d).
Proof. intros Hs tail. rewrite append_cons. cbn. by rewrite Hs. Qed.

Lemma bracket_moves (opening closing : Ascii.ascii) (s : string) (d : nat) :
  is_char 91 opening || is_char 123 opening = true →
  is_char 93 closing || is_char 125 closing = true →
  moves Outside (S d) s Outside (S d) →
  moves Outside d (String opening (s +:+ str1 closing)) Outside d.
Proof.
  intros Ho Hc Hs tail. rewrite append_cons. cbn [split_value].
  assert (is_char 34 opening = false) as ->.
  { unfold is_char in *. destruct (N.eqb_spec (Ascii.N_of_ascii opening) 34) as [Heq|]; [|done].
    rewrite Heq in Ho. done. }
  rewrite Ho, append_assoc, Hs. cbn [fst snd]. unfold str1. rewrite append_cons, append_nil_l.
  cbn [split_value].
  assert (is_char 34 closing = false) as ->.
  { unfold is_char in *. destruct (N.eqb_spec (Ascii.N_of_ascii closing) 34) as [Heq|]; [|done].
    rewrite Heq in Hc. done. }
  assert (is_char 91 closing || is_char 123 closing = false) as ->.
  { unfold is_char in *.
    destruct (N.eqb_spec (Ascii.N_of_ascii closing) 91) as [Heq|]; [by rewrite Heq in Hc|].
    destruct (N.eqb_spec (Ascii.N_of_ascii closing) 123) as [Heq|]; [by rewrite Heq in Hc|].
    done. }
  rewrite Hc. cbn [fst snd]. by rewrite append_cons, append_assoc, append_cons, append_nil_l.
Qed.

Lemma uint_moves (u : Decimal.uint) (d : nat) :
  moves Outside d (NilZero.string_of_uint u) Outside d.
Proof.
  assert (moves Outside d (NilEmpty.string_of_uint u) Outside d) as Hu.
  { induction u as [|u IH|u IH|u IH|u IH|u IH|u IH|u IH|u IH|u IH|u IH];
      [apply moves_nil | by apply plain_moves ..]. }
  by destruct u.
Qed.

Lemma int_to_string_delimited (n : Z) : well_delimited (int_to_string n).
Proof.
  unfold int_to_string. split.
  - intros d. destruct (Z.to_int n) as [u|u]; cbn [NilZero.string_of_int]; [apply uint_moves|].
    apply plain_moves; [done | apply uint_moves].
  - destruct (Z.to_int n) as [u|u]; cbn [NilZero.string_of_int]; [|done]. by destruct u.
Qed.

Lemma quote_char_moves (c : Ascii.ascii) (d : nat) : moves Inside d (quote_char c) Inside d.
Proof.
  intros tail. destruct c as [[] [] [] [] [] [] [] []]; reflexivity.
Qed.

Lemma quote_body_moves (s : string) (d : nat) : moves Inside d (quote_body s) Inside d.
Proof.
  induction s as [|c s IH]; [apply moves_nil|].
  cbn [quote_body]. eapply moves_app; [apply quote_char_moves | apply IH].
Qed.

Lemma QuoteJSONString_moves (s : string) (d : nat) :
  moves Outside d (QuoteJSONString s) Outside d.
Proof.
  unfold QuoteJSONString.
  change (String dquote (quote_body s +:+ str1 dquote))
    with (str1 dquote +:+ (quote_body s +:+ str1 dquote)).
  eapply moves_app; [|eapply moves_app; [apply quote_body_moves|]].
  - intros tail. reflexivity.
  - intros tail. reflexivity.
Qed.

Lemma SerializeJSONProperty_array (l : list JsValue) :
  SerializeJSONProperty (JArray l) =
  match array_parts l with
  | Some ps => Yields ("[" +:+ join_with "," ps +:+ "]")
  | None => ThrowsTypeError
  end.
Proof. reflexivity. Qed.

Lemma SerializeJSONProperty_object (r : list (string * JsValue)) :
  SerializeJSONProperty (JObject r) =
  match object_parts r with
  | Some ps => Yields ("{" +:+ join_with "," ps +:+ "}")
  | None => ThrowsTypeError
  end.
Proof. reflexivity. Qed.

Lemma join_moves (ps : list string) (d : nat) :
  Forall well_delimited ps → moves Outside (S d) (join_with "," ps) Outside (S d).
Proof.
  induction 1 as [|x ps [Hx _] Hps IH]; [apply moves_nil|].
  destruct ps as [|y ps]; [apply Hx|].
  change (join_with "," (x :: y :: ps)) with (x +:+ "," +:+ join_with "," (y :: ps)).
  eapply moves_app; [apply Hx|]. by apply (plain_moves_comma (join_with "," (y :: ps))).
Qed.

Lemma null_delimited : well_delimited "null".
Proof. split; [|done]. intros d. by repeat apply plain_moves; [..|apply moves_nil]. Qed.

Lemma array_parts_delimited (l : list JsValue) (ps : list string) :
  Forall (λ x, ∀ s, SerializeJSONProperty x = Yields s → well_delimited s) l →
  array_parts l = Some ps → Forall well_delimited ps.
Proof.
  intros Hl. revert ps. induction Hl as [|x l Hx Hl IH]; intros ps Hps.
  - injection Hps as <-. constructor.
  - cbn [array_parts] in Hps. destruct (SerializeJSONProperty x) as [| |s]; [done|..];
      destruct (array_parts l) as [ps'|]; simplify_eq/=; constructor; auto using null_delimited.
Qed.

Lemma member_delimited (k s : string) :
  well_delimited s → well_delimited (QuoteJSONString k +:+ ":" +:+ s).
Proof.
  intros [Hs _]. split; [|done]. intros d.
  eapply moves_app; [apply QuoteJSONString_moves|]. by apply plain_moves.
Qed.

Lemma object_parts_delimited (r : list (string * JsValue)) (ps : list string) :
  Forall (λ kv, ∀ s, SerializeJSONProperty kv.2 = Yields s → well_delimited s) r →
  object_parts r = Some ps → Forall well_delimited ps.
Proof.
  intros Hr. revert ps. induction Hr as [|[k x] r Hx Hr IH]; intros ps Hps.
  - injection Hps as <-. constructor.
  - cbn [object_parts] in Hps. simpl in Hx.
    destruct (SerializeJSONProperty x) as [| |s]; [done|auto|].
    destruct (object_parts r) as [ps'|]; simplify_eq/=. constructor; [|auto].
    apply member_delimited. by apply Hx.
Qed.

(** Everything [JSON.stringify] yields is well delimited. *)
Lemma serialized_well_delimited (v : JsValue) :
  ∀ s, SerializeJSONProperty v = Yields s → well_delimited s.
Proof.
  induction v as [| |b|n|n|s0|l IH|r IH] using JsValue_nested_ind; intros s Hs.
  - done.
  - injection Hs as <-. apply null_delimited.
  - destruct b; injection Hs as <-; (split; [|done]); intros d;
      by repeat apply plain_moves; [..|apply moves_nil].
  - injection Hs as <-. apply int_to_string_delimited.
  - done.
  - injection Hs as <-. split; [intros d; apply QuoteJSONString_moves | done].
  - rewrite SerializeJSONProperty_array in Hs.
    destruct (array_parts l) as [ps|] eqn:Hps; [|done]. injection Hs as <-.
    split; [|done]. intros d.
    apply (bracket_moves (Ascii.ascii_of_N 91) (Ascii.ascii_of_N 93) (join_with "," ps) d);
      [done..|].
    eapply join_moves, array_parts_delimited; eauto.
  - rewrite SerializeJSONProperty_object in Hs.
    destruct (object_parts r) as [ps|] eqn:Hps; [|done]. injection Hs as <-.
    split; [|done]. intros d.
    apply (bracket_moves (Ascii.ascii_of_N 123) (Ascii.ascii_of_N 125) (join_with "," ps) d);
      [done..|].
    eapply join_moves, object_parts_delimited; eauto.
Qed.

(** The text of a well-delimited value followed by a top-level delimiter
    splits at the delimiter. *)
Lemma split_at_delimiter (s rest : string) (c : Ascii.ascii) :
  well_delimited s → is_char 44 c || is_char 93 c = true →
  split_value Outside 0 (s +:+ String c rest) = (s, String c rest).
Proof.
  intros [Hs _] Hc. rewrite Hs. cbn [split_value].
  assert (is_char 34 c = false ∧ is_char 91 c || is_char 123 c = false) as [-> ->].
  { unfold is_char in *.
    destruct (N.eqb_spec (Ascii.N_of_ascii c) 34) as [Heq|]; [by rewrite Heq in Hc|].
    destruct (N.eqb_spec (Ascii.N_of_ascii c) 91) as [Heq|]; [by rewrite Heq in Hc|].
    destruct (N.eqb_spec (Ascii.N_of_ascii c) 123) as [Heq|]; [by rewrite Heq in Hc|].
    done. }
  destruct (is_char 93 c || is_char 125 c) eqn:H1; cbn [fst snd]; [by rewrite append_nil_r|].
  destruct (is_char 44 c) eqn:H2; cbn [fst snd]; [by rewrite append_nil_r|].
  apply orb_false_iff in H1 as [H1 _]. by rewrite H1 in Hc.
Qed.

Lemma join_after_first (x : string) (ps : list string) :
  join_with "," (x :: ps) +:+ "]" = x +:+ after_first ps.
Proof. destruct ps as [|y ps]; [done|]. cbn [join_with after_first]. by rewrite !append_assoc. Qed.

Lemma after_first_delimiter (ps : list string) :
  ∃ c rest, after_first ps = String c rest ∧ is_char 44 c || is_char 93 c = true.
Proof. destruct ps; eexists _, _; (split; [reflexivity | done]). Qed.

Lemma join_inj (ps1 ps2 : list string) :
  Forall well_delimited ps1 → Forall well_delimited ps2 →
  join_with "," ps1 +:+ "]" = join_with "," ps2 +:+ "]" → ps1 = ps2.
Proof.
  intros H1. revert ps2. induction H1 as [|x ps1 Hx H1 IH]; intros ps2 H2 Heq.
  - destruct H2 as [|y ps2 Hy H2]; [done|]. exfalso.
    rewrite join_after_first in Heq.
    destruct (after_first_delimiter ps2) as (c & rest & Hr & Hc). rewrite Hr in Heq.
    apply (f_equal (split_value Outside 0)) in Heq.
    rewrite (split_at_delimiter y rest c Hy Hc) in Heq.
    destruct Hy as [_ Hne]. apply Hne. by injection Heq.
  - destruct H2 as [|y ps2 Hy H2].
    + exfalso. rewrite join_after_first in Heq.
      destruct (after_first_delimiter ps1) as (c & rest & Hr & Hc). rewrite Hr in Heq.
      apply (f_equal (split_value Outside 0)) in Heq.
      rewrite (split_at_delimiter x rest c Hx Hc) in Heq.
      destruct Hx as [_ Hne]. apply Hne. by injection Heq.
    + rewrite !join_after_first in Heq.
      destruct (after_first_delimiter ps1) as (c1 & rest1 & Hr1 & Hc1).
      destruct (after_first_delimiter ps2) as (c2 & rest2 & Hr2 & Hc2).
      pose proof Heq as Heq'. rewrite Hr1, Hr2 in Heq'.
      apply (f_equal (split_value Outside 0)) in Heq'.
      rewrite (split_at_delimiter x rest1 c1 Hx Hc1) in Heq'.
      rewrite (split_at_delimiter y rest2 c2 Hy Hc2) in Heq'.
      pose proof (f_equal fst Heq') as Hfst. pose proof (f_equal snd Heq') as Hrest.
      cbn [fst snd] in Hfst, Hrest. subst y. f_equal. rewrite <- Hr1, <- Hr2 in Hrest.
      destruct ps1 as [|x1 ps1], ps2 as [|y2 ps2]; [done | done | done |].
      apply IH; [done|]. cbn [after_first] in Hrest. by injection Hrest.
Qed.

Lemma array_parts_well_delimited (l : list JsValue) (ps : list string) :
  array_parts l = Some ps → Forall well_delimited ps.
Proof.
  apply array_parts_delimited, Forall_forall. intros x _. apply serialized_well_delimited.
Qed.

Lemma append_inj_r1 (s1 s2 : string) (c : Ascii.ascii) :
  s1 +:+ str1 c = s2 +:+ str1 c → s1 = s2.
Proof.
  revert s2. induction s1 as [|a s1 IH]; intros [|b s2] H; [done|..].
  - rewrite append_nil_l, append_cons in H. injection H as _ H. by destruct s2.
  - rewrite append_nil_l, append_cons in H. injection H as _ H. by destruct s1.
  - rewrite !append_cons in H. injection H as -> H. f_equal. by apply IH.
Qed.

Lemma array_parts_app (l1 l2 : list JsValue) :
  array_parts (l1 ++ l2) = ps1 ← array_parts l1; ps2 ← array_parts l2; Some (ps1 ++ ps2).
Proof.
  induction l1 as [|x l1 IH]; cbn [app array_parts].
  - by destruct (array_parts l2).
  - rewrite IH. destruct (SerializeJSONProperty x); [done|..];
      destruct (array_parts l1); simpl; try done; by destruct (array_parts l2).
Qed.

Lemma object_parts_app (r1 r2 : list (string * JsValue)) :
  object_parts (r1 ++ r2) = ps1 ← object_parts r1; ps2 ← object_parts r2; Some (ps1 ++ ps2).
Proof.
  induction r1 as [|[k x] r1 IH]; cbn [app object_parts].
  - by destruct (object_parts r2).
  - rewrite IH. destruct (SerializeJSONProperty x); [done|done|].
    destruct (object_parts r1); simpl; try done; by destruct (object_parts r2).
Qed.

Lemma object_parts_well_delimited (r : list (string * JsValue)) (ps : list string) :
  object_parts r = Some ps → Forall well_delimited ps.
Proof.
  apply object_parts_delimited, Forall_forall. intros x _. apply serialized_well_delimited.
Qed.

(** The text of an array or an object tells the text of each element or
    member. *)
Lemma array_text_inj (before after : list string) (t1 t2 : string) :
  Forall well_delimited (before ++ t1 :: after) →
  Forall well_delimited (before ++ t2 :: after) →
  "[" +:+ join_with "," (before ++ t1 :: after) +:+ "]" =
  "[" +:+ join_with "," (before ++ t2 :: after) +:+ "]" →
  t1 = t2.
Proof.
  intros H1 H2 Heq. apply (inj (String.app _)) in Heq.
  apply join_inj in Heq; [|done..]. apply app_inv_head in Heq. by injection Heq.
Qed.

Lemma object_text_inj (before after : list string) (t1 t2 : string) :
  Forall well_delimited (before ++ t1 :: after) →
  Forall well_delimited (before ++ t2 :: after) →
  "{" +:+ join_with "," (before ++ t1 :: after) +:+ "}" =
  "{" +:+ join_with "," (before ++ t2 :: after) +:+ "}" →
  t1 = t2.
Proof.
  intros H1 H2 Heq. apply (inj (String.app _)) in Heq.
  apply (append_inj_r1 _ _ (Ascii.ascii_of_N 125)) in Heq.
  apply (f_equal (λ s, s +:+ "]")) in Heq.
  apply join_inj in Heq; [|done..]. apply app_inv_head in Heq. by injection Heq.
Qed.

(** *** Changing one property value *)

Lemma has_prop_map_values (f : string → JsValue → JsValue) (r : list (string * JsValue))
    (k : string) :
  has_prop (map_values f r) k = has_prop r k.
Proof.
  induction r as [|[k' v] r IH]; [done|]. cbn [map_values fmap list_fmap has_prop fst snd].
  destruct (decide (k' = k)); [done | apply IH].
Qed.

Lemma replace_prop_map_values (f : string → JsValue → JsValue) (r : list (string * JsValue))
    (k : string) (v : JsValue) :
  replace_prop (map_values f r) k (f k v) = map_values f (replace_prop r k v).
Proof.
  induction r as [|[k' v'] r IH]; [done|].
  cbn [map_values fmap list_fmap replace_prop fst snd].
  destruct (decide (k' = k)) as [->|Hne]; [done|].
  cbn [fmap list_fmap fst snd]. f_equal. apply IH.
Qed.

Lemma insert_index_map_values (f : string → JsValue → JsValue) (i : N)
    (r : list (string * JsValue)) (k : string) (v : JsValue) :
  insert_index i k (f k v) (map_values f r) = map_values f (insert_index i k v r).
Proof.
  induction r as [|[k' v'] r IH]; [done|].
  cbn [map_values fmap list_fmap insert_index fst snd].
  destruct (array_index k') as [j|]; [|done]. destruct (j <? i)%N; [|done].
  cbn [fmap list_fmap fst snd]. f_equal. apply IH.
Qed.

Lemma set_prop_map_values (f : string → JsValue → JsValue) (r : list (string * JsValue))
    (k : string) (v : JsValue) :
  set_prop (map_values f r) k (f k v) = map_values f (set_prop r k v).
Proof.
  unfold set_prop. destruct (decide (k = "__proto__")); [done|].
  rewrite has_prop_map_values. destruct (has_prop r k); [apply replace_prop_map_values|].
  destruct (array_index k) as [i|]; [apply insert_index_map_values|].
  unfold map_values. by rewrite fmap_app.
Qed.

Lemma build_object_map_values (f : string → JsValue → JsValue) (g : string → JsValue)
    (keys : list string) (result : list (string * JsValue)) :
  build_object (λ k, f k (g k)) keys (map_values f result) =
  map_values f (build_object g keys result).
Proof.
  revert result. induction keys as [|k keys IH]; intros result; [done|].
  cbn [build_object fold_left]. rewrite set_prop_map_values. apply IH.
Qed.

Lemma map_values_id (f : string → JsValue → JsValue) (r : list (string * JsValue)) :
  (∀ kv, kv ∈ r → f kv.1 kv.2 = kv.2) → map_values f r = r.
Proof.
  intros Hf. induction r as [|[k v] r IH]; [done|].
  cbn [map_values fmap list_fmap fst snd].
  pose proof (Hf (k, v) ltac:(left)) as Hkv. simpl in Hkv. rewrite Hkv. f_equal.
  apply IH. intros kv Hin. apply Hf. by right.
Qed.

Lemma get_prop_middle (before after : list (string * JsValue)) (key : string) (x : JsValue) :
  key ∉ before.*1 → get_prop (before ++ (key, x) :: after) key = x.
Proof.
  induction before as [|[k v] before IH]; intros Hk; cbn [app get_prop].
  - by rewrite decide_True.
  - rewrite fmap_cons in Hk. apply not_elem_of_cons in Hk as [Hne Hk]. simpl in Hne.
    rewrite decide_False by done. by apply IH.
Qed.

Lemma get_prop_middle_ne (before after : list (string * JsValue)) (key k : string)
    (x1 x2 : JsValue) :
  k ≠ key →
  get_prop (before ++ (key, x1) :: after) k = get_prop (before ++ (key, x2) :: after) k.
Proof.
  intros Hne. induction before as [|[k' v] before IH]; cbn [app get_prop].
  - by rewrite !decide_False by done.
  - by rewrite IH.
Qed.

(** Normalizing two objects that differ in the value of one property gives
    two objects that differ in the value of that property. *)
Lemma sortObjectKeys_one_property (before after : list (string * JsValue)) (key : string)
    (x1 x2 : JsValue) :
  key ≠ "__proto__" →
  NoDup (before.*1 ++ key :: after.*1) →
  ∃ pre post,
    sortObjectKeys (JObject (before ++ (key, x1) :: after)) =
      JObject (pre ++ (key, sortObjectKeys x1) :: post) ∧
    sortObjectKeys (JObject (before ++ (key, x2) :: after)) =
      JObject (pre ++ (key, sortObjectKeys x2) :: post).
Proof.
  intros Hproto Hnd.
  set (r1 := before ++ (key, x1) :: after). set (r2 := before ++ (key, x2) :: after).
  assert (r1.*1 = before.*1 ++ key :: after.*1) as Hk1 by (unfold r1; by rewrite fmap_app).
  assert (r2.*1 = r1.*1) as Hk2 by (unfold r1, r2; by rewrite !fmap_app).
  assert (key ∉ before.*1) as Hfresh.
  { apply NoDup_app in Hnd as (_ & Hd & _). intros Hin. apply (Hd key Hin). left. }
  rewrite !sortObjectKeys_build. rewrite Hk2.
  set (S := sort_keys r1.*1). set (g1 := λ k, sortObjectKeys (get_prop r1 k)).
  set (f := λ (k : string) (v : JsValue), if decide (k = key) then sortObjectKeys x2 else v).
  assert (S ≡ₚ r1.*1) as HS by apply merge_sort_Permutation.
  assert (build_object (λ k, sortObjectKeys (get_prop r2 k)) S [] =
          map_values f (build_object g1 S [])) as ->.
  { rewrite <- (build_object_map_values f g1 S []). apply fold_set_prop_ext. intros k _.
    unfold f, g1. destruct (decide (k = key)) as [->|Hne].
    - unfold r2. by rewrite get_prop_middle.
    - unfold r1, r2. by rewrite (get_prop_middle_ne before after key k x2 x1). }
  set (R := build_object g1 S []).
  assert (R ≡ₚ (λ k, (k, g1 k)) <$> filter (λ k, k ≠ "__proto__") S) as HR.
  { apply (build_object_Permutation g1 S []). simpl. rewrite HS, Hk1. done. }
  assert (NoDup R.*1) as HRnd.
  { rewrite HR, fmap_key_of_pairs. apply NoDup_filter. by rewrite HS, Hk1. }
  assert ((key, sortObjectKeys x1) ∈ R) as Hin.
  { rewrite HR. apply list_elem_of_fmap. exists key. split.
    - unfold g1, r1. by rewrite get_prop_middle.
    - apply list_elem_of_filter. split; [done|]. rewrite HS, Hk1.
      apply elem_of_app. right. left. }
  apply list_elem_of_split in Hin as (pre & post & HRsplit).
  exists pre, post. split; [by rewrite HRsplit|]. rewrite HRsplit.
  rewrite HRsplit, fmap_app, fmap_cons in HRnd. simpl in HRnd.
  apply NoDup_app in HRnd as (_ & Hpre & [Hpost _]%NoDup_cons).
  unfold map_values. rewrite fmap_app, fmap_cons. cbn [fst snd]. unfold f at 2.
  rewrite decide_True by done. f_equal. f_equal; [|f_equal].
  - apply (map_values_id f). intros [k v] Hkv. unfold f. simpl.
    rewrite decide_False; [done|]. intros ->. apply (Hpre key); [|left].
    apply list_elem_of_fmap. by exists (key, v).
  - apply (map_values_id f). intros [k v] Hkv. unfold f. simpl.
    rewrite decide_False; [done|]. intros ->. apply Hpost.
    apply list_elem_of_fmap. by exists (key, v).
Qed.

(** *** Texts that differ inside differ outside *)

(** Only [undefined] serializes to [undefined], and normalization neither
    makes nor removes an [undefined]. *)
Lemma stringify_sorted_defined (data : JsValue) :
  data ≠ JUndefined → JSON_stringify (sortObjectKeys data) ≠ YieldsUndefined.
Proof.
  intros Hd. unfold JSON_stringify. destruct data as [| |[]| | | |l|r]; try done.
  - cbn [sortObjectKeys]. rewrite SerializeJSONProperty_array. by destruct (array_parts _).
  - rewrite sortObjectKeys_object, SerializeJSONProperty_object. by destruct (object_parts _).
Qed.


Lemma yields_defined (v : JsValue) (t : string) :
  SerializeJSONProperty (sortObjectKeys v) = Yields t → v ≠ JUndefined.
Proof. by intros H ->. Qed.

Lemma plug_defined (c : Context) (v : JsValue) : v ≠ JUndefined → plug c v ≠ JUndefined.
Proof. by destruct c. Qed.

Lemma texts_differ_in_context (c : Context) :
  well_placed c →
  ∀ v1 v2 t1 t2 T1 T2,
    SerializeJSONProperty (sortObjectKeys v1) = Yields t1 →
    SerializeJSONProperty (sortObjectKeys v2) = Yields t2 →
    t1 ≠ t2 →
    SerializeJSONProperty (sortObjectKeys (plug c v1)) = Yields T1 →
    SerializeJSONProperty (sortObjectKeys (plug c v2)) = Yields T2 →
    T1 ≠ T2.
Proof.
  induction c as [|before c IH after|before key c IH after];
    intros Hc v1 v2 t1 t2 T1 T2 H1 H2 Hne HT1 HT2.
  - simpl in *. congruence.
  - simpl in Hc. cbn [plug sortObjectKeys] in HT1, HT2.
    rewrite map_app in HT1, HT2. cbn [map] in HT1, HT2.
    rewrite SerializeJSONProperty_array in HT1, HT2.
    destruct (array_parts (_ ++ sortObjectKeys (plug c v1) :: _)) as [ps1|] eqn:Hps1; [|done].
    destruct (array_parts (_ ++ sortObjectKeys (plug c v2) :: _)) as [ps2|] eqn:Hps2; [|done].
    pose proof (array_parts_well_delimited _ _ Hps1) as Hd1.
    pose proof (array_parts_well_delimited _ _ Hps2) as Hd2.
    rewrite array_parts_app in Hps1, Hps2. cbn [array_parts] in Hps1, Hps2.
    destruct (array_parts (map sortObjectKeys before)) as [pb|]; [|done].
    destruct (array_parts (map sortObjectKeys after)) as [pa|];
      [|by destruct (SerializeJSONProperty (sortObjectKeys (plug c v1)))].
    destruct (SerializeJSONProperty (sortObjectKeys (plug c v1))) as [| |T1'] eqn:HX1; [done| |].
    { exfalso. revert HX1. apply stringify_sorted_defined, plug_defined.
      by apply (yields_defined v1 t1). }
    destruct (SerializeJSONProperty (sortObjectKeys (plug c v2))) as [| |T2'] eqn:HX2; [done| |].
    { exfalso. revert HX2. apply stringify_sorted_defined, plug_defined.
      by apply (yields_defined v2 t2). }
    simpl in Hps1, Hps2. injection Hps1 as <-. injection Hps2 as <-.
    injection HT1 as <-. injection HT2 as <-.
    intros Heq. apply array_text_inj in Heq; [|done..].
    by apply (IH Hc v1 v2 t1 t2 T1' T2').
  - simpl in Hc. destruct Hc as (Hproto & Hnd & Hc). cbn [plug] in HT1, HT2.
    destruct (sortObjectKeys_one_property before after key (plug c v1) (plug c v2) Hproto Hnd)
      as (pre & post & Hs1 & Hs2).
    rewrite Hs1 in HT1. rewrite Hs2 in HT2.
    rewrite SerializeJSONProperty_object in HT1, HT2.
    destruct (object_parts (pre ++ (key, sortObjectKeys (plug c v1)) :: post)) as [ps1|] eqn:Hps1;
      [|done].
    destruct (object_parts (pre ++ (key, sortObjectKeys (plug c v2)) :: post)) as [ps2|] eqn:Hps2;
      [|done].
    pose proof (object_parts_well_delimited _ _ Hps1) as Hd1.
    pose proof (object_parts_well_delimited _ _ Hps2) as Hd2.
    rewrite object_parts_app in Hps1, Hps2. cbn [object_parts] in Hps1, Hps2.
    destruct (object_parts pre) as [pb|]; [|done].
    destruct (object_parts post) as [pa|];
      [|by destruct (SerializeJSONProperty (sortObjectKeys (plug c v1)))].
    destruct (SerializeJSONProperty (sortObjectKeys (plug c v1))) as [| |T1'] eqn:HX1; [done| |].
    { exfalso. revert HX1. apply stringify_sorted_defined, plug_defined.
      by apply (yields_defined v1 t1). }
    destruct (SerializeJSONProperty (sortObjectKeys (plug c v2))) as [| |T2'] eqn:HX2; [done| |].
    { exfalso. revert HX2. apply stringify_sorted_defined, plug_defined.
      by apply (yields_defined v2 t2). }
    simpl in Hps1, Hps2. injection Hps1 as <-. injection Hps2 as <-.
    injection HT1 as <-. injection HT2 as <-.
    intros Heq. apply object_text_inj in Heq; [|done..].
    do 2 apply (inj (String.app _)) in Heq.
    by apply (IH Hc v1 v2 t1 t2 T1' T2').
Qed.

(** ** The key *)

Lemma generateKey_defined (method url : string) (data : JsValue) :
  data ≠ JUndefined →
  generateKey method url data =
    (λ dataKey, toUpperCase method +:+ ":" +:+ url +:+ ":" +:+ dataKey) <$> dataKey_of data.
Proof. by destruct data. Qed.

Lemma generateKey_serialized (method url : string) (data : JsValue) (s : string) :
  JSON_stringify (sortObjectKeys data) = Yields s →
  generateKey method url data = Some (toUpperCase method +:+ ":" +:+ url +:+ ":" +:+ s).
Proof.
  intros Hs. rewrite generateKey_defined by (by intros ->). unfold dataKey_of. by rewrite Hs.
Qed.

(** C3, as stated, fails on arrays: [undefined] and [null] serialize alike
    inside an array, so the two orders of these two elements, which are
    different values and not related by any reordering of properties, get
    one key. *)
Lemma array_reorder_counterexample :
  [JUndefined; JNull] ≡ₚ [JNull; JUndefined] ∧
  JArray [JUndefined; JNull] ≠ JArray [JNull; JUndefined] ∧
  ¬ key_order_equiv (JArray [JUndefined; JNull]) (JArray [JNull; JUndefined]) ∧
  generateKey "GET" "/items" (JArray [JUndefined; JNull]) =
  generateKey "GET" "/items" (JArray [JNull; JUndefined]) ∧
  generateKey "GET" "/items" (JArray [JUndefined; JNull]) = Some "GET:/items:[null,null]"%string.
Proof.
  split; [apply Permutation_swap|]. split; [done|]. split; [|split; reflexivity].
  intros H. inversion H as [|? ? Hl|]; subst.
  apply Forall2_cons in Hl as [Hx _]. inversion Hx.
Qed.

(** C3, amended.  The key is the upper-cased method, the url and the
    serialized data, each two separated by a colon; the data part is empty
    for [undefined], the JSON text of the normalized data when there is one,
    and [String(data)] otherwise; when that conversion throws as well,
    [generateKey] throws.  Data values that are equal up to the order of
    object properties, at any depth and inside arrays, get the same key, or
    both none.  Reordering the elements of an array, wherever it stands in
    the data, gives a different key whenever both data values serialize and
    the sequences of the elements' serialized forms differ. *)
Theorem generateKey_canonical (method url : string) :
  (upper_in_range method →
   generateKey method url JUndefined = Some (toUpperCase method +:+ ":" +:+ url +:+ ":")) ∧
  (∀ data,
     upper_in_range method → safe_numbers data → data ≠ JUndefined →
     match JSON_stringify (sortObjectKeys data) with
     | Yields s =>
         generateKey method url data = Some (toUpperCase method +:+ ":" +:+ url +:+ ":" +:+ s)
     | ThrowsTypeError =>
         generateKey method url data =
           (λ s, toUpperCase method +:+ ":" +:+ url +:+ ":" +:+ s) <$> ToString data
     | YieldsUndefined => False
     end) ∧
  (∀ data1 data2,
     key_order_equiv data1 data2 →
     generateKey method url data1 = generateKey method url data2) ∧
  (∀ c l1 l2 ps1 ps2 s1 s2,
     well_placed c →
     l1 ≡ₚ l2 →
     array_parts (map sortObjectKeys l1) = Some ps1 →
     array_parts (map sortObjectKeys l2) = Some ps2 →
     ps1 ≠ ps2 →
     JSON_stringify (sortObjectKeys (plug c (JArray l1))) = Yields s1 →
     JSON_stringify (sortObjectKeys (plug c (JArray l2))) = Yields s2 →
     generateKey method url (plug c (JArray l1)) ≠ generateKey method url (plug c (JArray l2))).
Proof.
  split_and!.
  - reflexivity.
  - intros data _ _ Hd. pose proof (stringify_sorted_defined data Hd) as Hs.
    rewrite generateKey_defined by done. unfold dataKey_of.
    by destruct (JSON_stringify (sortObjectKeys data)).
  - apply generateKey_key_order.
  - intros c l1 l2 ps1 ps2 s1 s2 Hc _ Hps1 Hps2 Hne Hs1 Hs2 Hkey.
    rewrite (generateKey_serialized _ _ _ s1 Hs1), (generateKey_serialized _ _ _ s2 Hs2) in Hkey.
    injection Hkey as Hkey. do 4 apply (inj (String.app _)) in Hkey. revert Hkey.
    apply (texts_differ_in_context c Hc (JArray l1) (JArray l2)
             ("[" +:+ join_with "," ps1 +:+ "]") ("[" +:+ join_with "," ps2 +:+ "]")); try done.
    + cbn [sortObjectKeys]. by rewrite SerializeJSONProperty_array, Hps1.
    + cbn [sortObjectKeys]. by rewrite SerializeJSONProperty_array, Hps2.
    + intros Heq. apply Hne. apply (inj (String.app _)) in Heq.
      apply join_inj; eauto using array_parts_well_delimited.
Qed.

(** The two payloads get one key, which is spelled out; the order of the
    items of an order, an array under a property, matters. *)
Lemma generateKey_canonical_witness :
  generateKey "post" "/orders" payload_a = generateKey "post" "/orders" payload_b ∧
  generateKey "post" "/orders" payload_a =
    Some ("POST:/orders:" +:+ "{" +:+ QuoteJSONString "id" +:+ ":1," +:+ QuoteJSONString "items"
            +:+ ":[{" +:+ QuoteJSONString "qty" +:+ ":2," +:+ QuoteJSONString "sku" +:+ ":"
            +:+ QuoteJSONString "x" +:+ "}]}") ∧
  generateKey "post" "/orders" (JObject [("items"%string, JArray [JNumber 1; JNumber 2])]) ≠
  generateKey "post" "/orders" (JObject [("items"%string, JArray [JNumber 2; JNumber 1])]).
Proof.
  destruct (generateKey_canonical "post" "/orders") as (_ & Hshape & Horder & Harr).
  split; [exact (Horder payload_a payload_b payloads_key_order_equiv)|].
  split.
  - apply (Hshape payload_a); [by repeat split | | discriminate].
    repeat split; unfold safe_integer; lia.
  - apply (Harr (InObject [] "items" Hole []) [JNumber 1; JNumber 2] [JNumber 2; JNumber 1]
             ["1"; "2"]%string ["2"; "1"]%string
             ("{" +:+ QuoteJSONString "items" +:+ ":[1,2]}")
             ("{" +:+ QuoteJSONString "items" +:+ ":[2,1]}"));
      [ | apply Permutation_swap | reflexivity | reflexivity | discriminate
        | reflexivity | reflexivity].
    split; [discriminate|]. split; [|exact I]. distinct_keys.
Defined.

(** ** Serialization failures *)

(** [generateKey] throws exactly when [JSON.stringify] throws and the
    [String] conversion in the [catch] block throws as well. *)
Lemma generateKey_throws_iff (method url : string) (data : JsValue) :
  generateKey method url data = None ↔
  JSON_stringify (sortObjectKeys data) = ThrowsTypeError ∧ ToString data = None.
Proof.
  assert (data = JUndefined ∨ data ≠ JUndefined) as [->|Hd] by (destruct data; by eauto).
  { by split; [|intros [? _]]. }
  rewrite generateKey_defined by done. unfold dataKey_of. rewrite fmap_None.
  destruct (JSON_stringify (sortObjectKeys data)); [|by split; [|intros [? _]]..].
  by split; [|intros [_ ?]].
Qed.

(** An object is converted to a string exactly when it has no own property
    [toString]. *)
Lemma ToString_object_throws_iff (r : list (string * JsValue)) :
  ToString (JObject r) = None ↔ "toString"%string ∈ r.*1.
Proof.
  rewrite <- has_prop_elem. cbn [ToString]. by destruct (has_prop r "toString").
Qed.

(** [execute] raises a [TypeError] exactly when [generateKey] throws, and
    then does nothing else. *)
Lemma execute_TypeError_iff (now : Z) (options : ExecuteOptions) (requestFn : OpBehaviour)
    (w : World) :
  (execute now options requestFn w).1 = Throws TypeError ↔ key_of options = None.
Proof.
  split; [|intros Hk; by rewrite execute_no_key].
  intros Hex. destruct (key_of options) as [key|] eqn:Hkey; [|done]. exfalso.
  destruct (execute_cases now options requestFn w key Hkey)
    as [[_ Hc]|[(_ & e & _ & Hc)|(_ & _ & Hc)]]; rewrite Hc in Hex; [done..|].
  by destruct requestFn.
Qed.

(** C8.  Key serialization can abort a call.  The fallback of
    [generateKey], [String(data)], stands in the [catch] block unguarded.
    For the body [{toString: 5, n: 1n}], [JSON.stringify] throws on the
    bigint, and [String] throws because the own property [toString] is not
    callable; [generateKey] then throws, and [execute] raises that
    [TypeError] without looking at its tables and without invoking the
    operation. *)
Theorem key_serialization_can_abort :
  let data := JObject [("toString"%string, JNumber 5); ("n"%string, JBigInt 1)] in
  let options := {| method := "POST"; url := "/orders"; data := data;
                    blockAfterComplete := None |} in
  JSON_stringify (sortObjectKeys data) = ThrowsTypeError ∧
  ToString data = None ∧
  generateKey "POST" "/orders" data = None ∧
  (∀ now requestFn w, execute now options requestFn w = (Throws TypeError, w)) ∧
  invocations (execute 0 options ReturnsPromise (new_World None)).2 = 0%nat ∧
  generateKey "POST" "/orders" (JObject [("n"%string, JBigInt 1)]) =
    Some "POST:/orders:[object Object]"%string.
Proof.
  intros data options. split; [reflexivity|]. split; [reflexivity|]. split; [reflexivity|].
  split; [|split; reflexivity].
  intros now requestFn w. by apply execute_no_key.
Qed.


(** * Further properties of the deduplicator *)

(** ** The auto-cleanup timer *)

(** X1.  Starting the auto-cleanup while it runs changes nothing, so the
    interval of the first start is kept; stopping undoes a start, stopping
    twice is stopping once; neither touches the tables; the timer's callback
    runs [cleanup()] with the default [maxAge] while the timer runs and
    nothing runs after a stop. *)
Theorem auto_cleanup_lifecycle (d : RequestDeduplicator) (i j : option Z) (now : Z) :
  startAutoCleanup j (startAutoCleanup i d) = startAutoCleanup i d ∧
  stopAutoCleanup (startAutoCleanup i d) = stopAutoCleanup d ∧
  stopAutoCleanup (stopAutoCleanup d) = stopAutoCleanup d ∧
  pending (startAutoCleanup i d) = pending d ∧
  completed (startAutoCleanup i d) = completed d ∧
  pending (stopAutoCleanup d) = pending d ∧
  completed (stopAutoCleanup d) = completed d ∧
  timer_fires now (startAutoCleanup i d) = cleanup now (Some 10000) (startAutoCleanup i d) ∧
  timer_fires now (stopAutoCleanup d) = stopAutoCleanup d.
Proof.
  destruct d as [pe co [t|] rt]; by split_and!.
Qed.

(** ** Repeated cleanup *)

Lemma sweep_idempotent {V} (too_old : V → bool) (table : gmap string V) :
  sweep too_old (sweep too_old table) = sweep too_old table.
Proof.
  apply map_eq. intros key. rewrite !sweep_lookup.
  destruct (table !! key) as [x|]; [|done]. destruct (too_old x) eqn:Hx; [done|]. by rewrite Hx.
Qed.

Lemma sweep_subseteq {V} (too_old : V → bool) (table : gmap string V) :
  sweep too_old table ⊆ table.
Proof.
  apply map_subseteq_spec. intros key x Hx. by apply sweep_lookup_Some in Hx as [? _].
Qed.

(** X2.  [cleanup] only removes: both tables shrink or stay, so neither
    count of [getStats] grows; and a second [cleanup] at the same time with
    the same [maxAge] removes nothing more. *)
Theorem cleanup_only_removes (d : RequestDeduplicator) (now : Z) (maxAge : option Z) :
  cleanup now maxAge (cleanup now maxAge d) = cleanup now maxAge d ∧
  pending (cleanup now maxAge d) ⊆ pending d ∧
  completed (cleanup now maxAge d) ⊆ completed d ∧
  (pendingCount (getStats (cleanup now maxAge d)) ≤ pendingCount (getStats d))%nat ∧
  (completedCount (getStats (cleanup now maxAge d)) ≤ completedCount (getStats d))%nat.
Proof.
  split_and!.
  - unfold cleanup. simpl. by rewrite !sweep_idempotent.
  - apply sweep_subseteq.
  - apply sweep_subseteq.
  - apply map_subseteq_size, sweep_subseteq.
  - apply map_subseteq_size, sweep_subseteq.
Qed.

(** ** Settlement deletes by key *)

(** X3.  The settlement callbacks delete the Pending Entry of their key
    whichever operation it belongs to.  When the key's entry belongs to a
    later operation [q], still in flight, the settlement of the earlier
    operation [p] removes that entry and [q] stays in flight.  Although [q]
    has not settled, the next [deduplicate] call for the key invokes its
    operation, and so does the next [execute] call for the key unless the
    cool-down check rejects it. *)
Theorem stale_settlement_evicts_newer_entry
    (w : World) (now : Z) (p q : nat) (o : Outcome) (key : string) (e : PendingEntry) :
  is_in_flight w key p = true →
  is_in_flight w key q = true →
  p ≠ q →
  pending (this w) !! key = Some e →
  promise e = q →
  let w' := settle now p o w in
  pending (this w') !! key = None ∧
  is_in_flight w' key q = true ∧
  (∀ now' requestFn, invocations (deduplicate now' key requestFn w').2 = S (invocations w')) ∧
  (∀ now' options requestFn,
     key_of options = Some key →
     (execute now' options requestFn w').1 ≠ Throws (DuplicateRequestError recently_completed) →
     invocations (execute now' options requestFn w').2 = S (invocations w')).
Proof.
  intros Hp Hq Hne He Hpe w'.
  apply is_in_flight_true in Hp as (l & Hl & Hs & Hk).
  assert (pending (this w') !! key = None) as Hnone.
  { subst w'. rewrite (settle_in_flight now p o w l) by done. simpl.
    rewrite run_reaction_pending, Hk. apply lookup_delete_eq. }
  split_and!; [done | | |].
  - apply is_in_flight_true in Hq as (lq & Hlq & Hsq & Hkq). apply is_in_flight_true.
    exists lq. subst w'. rewrite (settle_in_flight now p o w l) by done. simpl.
    by rewrite list_lookup_insert_ne.
  - intros now' rf. unfold deduplicate. rewrite Hnone. apply launch_cases.
  - intros now' options rf Hkey Hrej.
    destruct (execute_cases now' options rf w' key Hkey)
      as [[_ Hc]|[(_ & e' & He' & _)|(_ & _ & Hc)]].
    + by rewrite Hc in Hrej.
    + congruence.
    + rewrite Hc. apply launch_cases.
Qed.

Lemma stale_settlement_evicts_newer_entry_witness :
  let w := run (new_World None)
             [EDeduplicate 0 "k" ReturnsPromise; EClear; EDeduplicate 5 "k" ReturnsPromise] in
  let w' := settle 9 0%nat (Fulfilled JNull) w in
  pending (this w') !! "k" = None ∧ in_flight w' "k" = [1%nat] ∧
  in_flight (deduplicate 10 "k" ReturnsPromise w').2 "k" = [1; 2]%nat ∧
  invocations (deduplicate 10 "k" ReturnsPromise w').2 = 3%nat.
Proof.
  intros w w'.
  destruct (stale_settlement_evicts_newer_entry w 9 0%nat 1%nat (Fulfilled JNull) "k"
              {| promise := 1; startTime := 5 |}) as (Hn & _ & Hd & _);
    [reflexivity | reflexivity | lia | reflexivity | reflexivity |].
  split; [exact Hn|]. split; [reflexivity|]. split; [reflexivity|].
  exact (Hd 10 ReturnsPromise).
Defined.

(** ** What [getStats] counts *)

(** X4.  In every run from a fresh deduplicator, with operations that may
    call back, in which [cleanup()] and [clear()] are not called and no
    operation is passed to [deduplicate] or [execute] whose invocation can
    make, by itself or through the operations it passes on, a call for the
    key it is passed with, the [pendingCount] that [getStats()] reports is
    the number of operations in flight. *)
Theorem pendingCount_counts_operations_in_flight
    (requestTimeout : option Z) (events : list Reentrant.Event) :
  forallb Reentrant.orderly events = true →
  pendingCount (getStats (this (Reentrant.run (new_World requestTimeout) events))) =
  length (all_in_flight (Reentrant.run (new_World requestTimeout) events)).
Proof.
  intros Hk. set (w := Reentrant.run (new_World requestTimeout) events).
  destruct (run_in_order events (new_World requestTimeout) Hk (new_World_in_order _))
    as [Htrack Hare]. fold w in Htrack, Hare.
  simpl. unfold size, map_size. rewrite <- (pending_promises_in_flight w Htrack Hare).
  rewrite length_fmap. symmetry. apply length_map_to_list.
Qed.

(** The operation for key [a] launches one for key [b] while it is being
    invoked: two entries, two operations in flight; after the second has
    failed, one and one. *)
Lemma pendingCount_counts_operations_in_flight_witness :
  let events := calls_another ++ [Reentrant.Settles 3 0%nat (Rejected JNull)] in
  pendingCount (getStats (this (Reentrant.run (new_World None) calls_another))) = 2%nat ∧
  pendingCount (getStats (this (Reentrant.run (new_World None) events))) = 1%nat ∧
  all_in_flight (Reentrant.run (new_World None) events) = [1%nat].
Proof.
  intros events. split; [|split; [|reflexivity]].
  - rewrite (pendingCount_counts_operations_in_flight None calls_another); reflexivity.
  - rewrite (pendingCount_counts_operations_in_flight None events); reflexivity.
Defined.

(** ** Where Completed Records come from *)

(** X5.  One step of the deduplicator writes a Completed Record in one way
    only: the record is (key, time of settlement) and the step is the
    successful settlement of an operation that [execute] launched for that
    key with a positive [blockAfterComplete].  Every other record present
    after a step was there before it, unchanged. *)
Theorem completed_written_only_by_guarded_success
    (w : World) (e : Event) (key : string) (t : Z) :
  completed (this (step w e)) !! key = Some t →
  completed (this w) !! key = Some t ∨
  ∃ p result l options,
    e = ESettle t p (Fulfilled result) ∧
    promises w !! p = Some l ∧ settlement l = None ∧
    reaction l = ThenCatch key options ∧ positive_block options.
Proof.
  destruct e as [now k rf|now options rf|now p0 o|now maxAge|interval| |now| |]; simpl; intros Ht.
  - left. unfold deduplicate in Ht. destruct (pending (this w) !! k); [done|].
    by destruct rf.
  - left. destruct (key_of options) as [k|] eqn:Hkey;
      [|by rewrite execute_no_key in Ht].
    destruct (execute_cases now options rf w k Hkey)
      as [[_ Hc]|[(_ & e & _ & Hc)|(_ & _ & Hc)]]; rewrite Hc in Ht; [done..|].
    by destruct rf.
  - destruct (promises w !! p0) as [l0|] eqn:Hl0; [|left; by unfold settle in Ht; rewrite Hl0 in Ht].
    destruct (settlement l0) eqn:Hs0; [left; by unfold settle in Ht; rewrite Hl0, Hs0 in Ht|].
    rewrite (settle_in_flight now p0 o w l0) in Ht by done. simpl in Ht.
    destruct (reaction l0) as [k|k options] eqn:Hr; [by left|].
    destruct o as [result|error]; [|by left]. simpl in Ht.
    destruct (block_enabled options) eqn:Hb; [|by left]. simpl in Ht.
    destruct (decide (k = key)) as [->|Hne]; [|left; by rewrite lookup_insert_ne in Ht].
    rewrite lookup_insert_eq in Ht. injection Ht as <-. right.
    exists p0, result, l0, options. split_and!; try done. by apply block_enabled_iff.
  - left. by apply sweep_lookup_Some in Ht as [? _].
  - left. unfold startAutoCleanup in Ht. by destruct (cleanupIntervalId (this w)).
  - left. unfold stopAutoCleanup in Ht. by destruct (cleanupIntervalId (this w)).
  - left. unfold timer_fires in Ht. destruct (cleanupIntervalId (this w)); [|done].
    by apply sweep_lookup_Some in Ht as [? _].
  - by left.
  - done.
Qed.

Lemma completed_written_only_by_guarded_success_witness :
  let w := run (new_World None) [EExecute 1000 order_blocking ReturnsPromise] in
  completed (this (step w (ESettle 1500 0%nat (Fulfilled JNull)))) !! order_key = Some 1500 ∧
  completed (this w) !! order_key = None ∧
  ∃ l, promises w !! 0%nat = Some l ∧ reaction l = ThenCatch order_key order_blocking.
Proof.
  intros w. split; [reflexivity|]. split; [reflexivity|].
  destruct (completed_written_only_by_guarded_success w (ESettle 1500 0%nat (Fulfilled JNull))
              order_key 1500 eq_refl) as [Hold|(p & result & l & options & He & Hl & _ & Hr & _)].
  - discriminate Hold.
  - injection He as <- _. exists l. split; [exact Hl|].
    clear Hr. vm_compute in Hl. injection Hl as <-. reflexivity.
Defined.

(** ** The cool-down window *)

Lemma step_keeps_records (w : World) (e : Event) :
  keeps_records e = true → completed (this (step w e)) = completed (this w).
Proof.
  destruct e as [now k rf|now options rf|now p0 o|now maxAge|interval| |now| |];
    simpl; intros Hk; try done.
  - unfold deduplicate. destruct (pending (this w) !! k); [done|]. by destruct rf.
  - destruct (key_of options) as [k|] eqn:Hkey; [|by rewrite execute_no_key].
    destruct (execute_cases now options rf w k Hkey)
      as [[_ ->]|[(_ & e & _ & ->)|(_ & _ & ->)]]; [done..|].
    by destruct rf.
  - destruct o as [result|error]; [done|].
    destruct (promises w !! p0) as [l0|] eqn:Hl0; [|by unfold settle; rewrite Hl0].
    destruct (settlement l0) eqn:Hs0; [by unfold settle; rewrite Hl0, Hs0|].
    rewrite (settle_in_flight now p0 _ w l0) by done. simpl.
    by rewrite run_reaction_rejected.
  - unfold startAutoCleanup. by destruct (cleanupIntervalId (this w)).
  - unfold stopAutoCleanup. by destruct (cleanupIntervalId (this w)).
Qed.

Lemma run_keeps_records (events : list Event) (w : World) :
  forallb keeps_records events = true → completed (this (run w events)) = completed (this w).
Proof.
  revert w. induction events as [|e events IH]; intros w Hk; [done|].
  simpl in Hk. apply andb_true_iff in Hk as [He Hk]. simpl.
  rewrite (IH (step w e) Hk). by apply step_keeps_records.
Qed.

(** X6.  After an operation launched by [execute] with
    [blockAfterComplete = T > 0] has succeeded at a clock reading [t] other
    than 0, the key has the Completed Record [t], and keeps it through
    every event other than a [cleanup], a [clear] and a later success.  In
    every later state in which the key still has that record, a call with
    the same options is rejected as recently completed exactly while less
    than [T] milliseconds have passed since [t], and the rejected call
    changes nothing; from [T] milliseconds on the call is not rejected: it
    is handed the promise of the key's Pending Entry when there is one, and
    invokes the operation again otherwise, as it does right after the
    settlement. *)
Theorem cool_down_window
    (w0 w1 : World) (now0 : Z) (options : ExecuteOptions) (requestFn : OpBehaviour) (p : nat)
    (key : string) (events : list Event) (t : Z) (result : JsValue) (T : Z) :
  execute now0 options requestFn w0 = (Returns p, w1) →
  invocations w1 = S (invocations w0) →
  key_of options = Some key →
  is_in_flight (run w1 events) key p = true →
  blockAfterComplete options = Some T →
  0 < T →
  t ≠ 0 →
  let w' := settle t p (Fulfilled result) (run w1 events) in
  completed (this w') !! key = Some t ∧
  pending (this w') !! key = None ∧
  (∀ later, forallb keeps_records later = true →
            completed (this (run w' later)) !! key = Some t) ∧
  (∀ later now' requestFn',
     let w'' := run w' later in
     completed (this w'') !! key = Some t →
     ((execute now' options requestFn' w'').1 = Throws (DuplicateRequestError recently_completed)
      ↔ now' - t < T) ∧
     (now' - t < T → (execute now' options requestFn' w'').2 = w'') ∧
     (T ≤ now' - t →
        match pending (this w'') !! key with
        | Some existing =>
            execute now' options requestFn' w'' = (Returns (promise existing), w'')
        | None => invocations (execute now' options requestFn' w'').2 = S (invocations w'')
        end)).
Proof.
  intros Hex Hinv Hkey Hfl HT Hpos Ht w'.
  assert (positive_block options) as Hblock by by exists T.
  assert (pending (this w') !! key = None ∧ completed (this w') !! key = Some t)
    as [Hpend Hcomp].
  { subst w'.
    destruct (settle_launched_by_execute _ _ _ _ _ _ _ events t (Fulfilled result)
                Hex Hinv Hkey Hfl) as [-> _].
    destruct (success_reaction_completed t key options result (this (run w1 events)))
      as (Hp & Hc & _).
    split; [exact Hp|]. simpl in *. rewrite (Hc Hblock). apply lookup_insert_eq. }
  split_and!; [done | done | |].
  - intros later Hk. by rewrite (run_keeps_records later w' Hk).
  - intros later now' rf w'' Hrec.
    assert ((execute now' options rf w'').1 = Throws (DuplicateRequestError recently_completed)
            ↔ now' - t < T) as Hiff.
    { rewrite execute_rejects_iff. split.
      - intros (_ & key' & b & t' & Hkey' & Hb & _ & Ht' & _ & Hage).
        assert (key' = key) as -> by congruence. congruence.
      - intros Hage. split; [done|]. exists key, T, t. by split_and!. }
    split_and!; [done | |].
    + intros Hage. apply Hiff in Hage.
      destruct (execute_cases now' options rf w'' key Hkey)
        as [[_ Hc]|[(_ & e & _ & Hc)|(_ & _ & Hc)]]; rewrite Hc in *; [done|done|].
      by destruct rf.
    + intros Hage.
      destruct (execute_cases now' options rf w'' key Hkey)
        as [[_ Hc]|[(_ & e & He & Hc)|(_ & He & Hc)]].
      * assert (now' - t < T) by (apply Hiff; by rewrite Hc). lia.
      * by rewrite He.
      * rewrite He, Hc. apply launch_cases.
Qed.

(** The specification's scenario: success at 1000, a call at 3000 is
    rejected, a call at 6000 invokes the operation again; and the timer of
    the auto-cleanup, firing at 12000, ends a longer window early. *)
Lemma cool_down_window_witness :
  let w' := settle 1000 0%nat (Fulfilled JNull)
              (run (execute 1000 order_blocking ReturnsPromise (new_World None)).2 []) in
  (execute 3000 order_blocking ReturnsPromise (run w' [EGetStats])).1 =
    Throws (DuplicateRequestError recently_completed) ∧
  invocations (execute 6000 order_blocking ReturnsPromise (run w' [EGetStats])).2 = 2%nat ∧
  completed (this (run w' [EStartAutoCleanup None; ETimerFires 12000])) !! order_key = None.
Proof.
  intros w'.
  destruct (cool_down_window (new_World None)
              (execute 1000 order_blocking ReturnsPromise (new_World None)).2
              1000 order_blocking ReturnsPromise 0%nat order_key [] 1000 JNull 5000
              eq_refl eq_refl eq_refl eq_refl eq_refl ltac:(lia) ltac:(lia))
    as (_ & _ & Hkeep & Hcall).
  destruct (Hcall [EGetStats] 3000 ReturnsPromise (Hkeep [EGetStats] eq_refl)) as (H3 & _ & _).
  destruct (Hcall [EGetStats] 6000 ReturnsPromise (Hkeep [EGetStats] eq_refl)) as (_ & _ & H6).
  split; [apply H3; lia|]. split; [exact (H6 ltac:(lia))|]. reflexivity.
Defined.

(** ** Freeing a stuck key *)

(** X7.  [cleanup], whatever its [maxAge], removes a Pending Entry older
    than [requestTimeout] without touching the promise behind it: the
    operation stays as it was, in flight if it was, and the next call for
    the key invokes its operation. *)
Theorem cleanup_frees_stuck_key
    (w : World) (now : Z) (maxAge : option Z) (key : string) (e : PendingEntry) :
  pending (this w) !! key = Some e →
  now - startTime e > requestTimeout (this w) →
  let w' := step w (ECleanup now maxAge) in
  pending (this w') !! key = None ∧
  promises w' = promises w ∧
  is_in_flight w' key (promise e) = is_in_flight w key (promise e) ∧
  (∀ now' requestFn, invocations (deduplicate now' key requestFn w').2 = S (invocations w')) ∧
  (∀ now' options requestFn,
     key_of options = Some key →
     (execute now' options requestFn w').1 ≠ Throws (DuplicateRequestError recently_completed) →
     invocations (execute now' options requestFn w').2 = S (invocations w')).
Proof.
  intros He Hold w'.
  assert (pending (this w') !! key = None) as Hnone.
  { subst w'. simpl. rewrite sweep_lookup, He. by rewrite bool_decide_true. }
  split_and!; [done | done | done | |].
  - intros now' rf. unfold deduplicate. rewrite Hnone. apply launch_cases.
  - intros now' options rf Hkey Hne.
    destruct (execute_cases now' options rf w' key Hkey)
      as [[_ Hc]|[(_ & e' & He' & _)|(_ & _ & Hc)]].
    + by rewrite Hc in Hne.
    + congruence.
    + rewrite Hc. apply launch_cases.
Qed.

Lemma cleanup_frees_stuck_key_witness :
  let w := run (new_World (Some 100)) [EExecute 0 order_plain ReturnsPromise] in
  let w' := step w (ECleanup 101 None) in
  pending (this w') !! order_key = None ∧ in_flight w' order_key = [0%nat] ∧
  in_flight (execute 102 order_plain ReturnsPromise w').2 order_key = [0; 1]%nat.
Proof.
  intros w w'.
  destruct (cleanup_frees_stuck_key w 101 None order_key {| promise := 0; startTime := 0 |})
    as (Hn & _); [reflexivity | reflexivity |].
  split; [exact Hn|]. split; reflexivity.
Defined.

(** ** Other keys *)

(** X17.  A call of [deduplicate] or [execute] and the settlement of an
    operation work on one key: the Pending Entry and the Completed Record of
    every other key are left as they were. *)
Theorem other_keys_are_untouched (w : World) (e : Event) (key other : string) :
  event_key w e = Some key →
  other ≠ key →
  pending (this (step w e)) !! other = pending (this w) !! other ∧
  completed (this (step w e)) !! other = completed (this w) !! other.
Proof.
  intros He Hne.
  assert (∀ now r rf,
            reaction_key r = key →
            pending (this (launch now key r rf w).2) !! other = pending (this w) !! other ∧
            completed (this (launch now key r rf w).2) !! other = completed (this w) !! other)
    as Hlaunch.
  { intros now r rf _. destruct rf; simpl; [|done]. by rewrite lookup_insert_ne. }
  destruct e as [now k rf|now options rf|now p o| | | | | |]; simpl in He; try done.
  - injection He as ->. simpl. unfold deduplicate.
    destruct (pending (this w) !! key); [done|]. by apply Hlaunch.
  - simpl. destruct (execute_cases now options rf w key He)
      as [[_ ->]|[(_ & e & _ & ->)|(_ & _ & ->)]]; [done..|].
    by apply Hlaunch.
  - destruct (promises w !! p) as [l|] eqn:Hl; [|done]. injection He as Hk. simpl.
    destruct (settlement l) eqn:Hs; [by unfold settle; rewrite Hl, Hs|].
    rewrite (settle_in_flight now p o w l) by done. simpl.
    rewrite run_reaction_pending, Hk, lookup_delete_ne by done. split; [done|].
    destruct (reaction l) as [k|k options]; [done|]. simpl in Hk. subst k.
    destruct o; [|done]. simpl. destruct (block_enabled options); [|done].
    simpl. by rewrite lookup_insert_ne.
Qed.

Lemma other_keys_are_untouched_witness :
  let w := run (new_World None) [EDeduplicate 0 "other" ReturnsPromise] in
  pending (this (step w (EExecute 5 order_blocking ReturnsPromise))) !! "other" =
    Some {| promise := 0; startTime := 0 |}.
Proof.
  intros w.
  destruct (other_keys_are_untouched w (EExecute 5 order_blocking ReturnsPromise)
              order_key "other" eq_refl) as [Hp _]; [discriminate|].
  rewrite Hp. reflexivity.
Defined.

(** * Further properties of key canonicalization *)

(** ** Normalizing twice *)

Lemma well_formed_array (l : list JsValue) : well_formed (JArray l) ↔ Forall well_formed l.
Proof.
  cbn [well_formed]. induction l as [|x l IH]; [by split; [constructor|]|].
  rewrite Forall_cons, IH. done.
Qed.

Lemma well_formed_object (r : list (string * JsValue)) :
  well_formed (JObject r) ↔ NoDup r.*1 ∧ Forall (λ kv, well_formed kv.2) r.
Proof.
  cbn [well_formed]. apply and_iff_compat_l.
  induction r as [|[k x] r IH]; [by split; [constructor|]|].
  rewrite Forall_cons, IH. done.
Qed.

Lemma sort_keys_sorted (keys : list string) : sort_keys (sort_keys keys) = sort_keys keys.
Proof. apply sort_keys_Permutation. unfold sort_keys. apply merge_sort_Permutation. Qed.

Lemma sortObjectKeys_idempotent (v : JsValue) :
  well_formed v → sortObjectKeys (sortObjectKeys v) = sortObjectKeys v.
Proof.
  induction v as [| | | | | |l IH|r IH] using JsValue_nested_ind; intros Hwf; try done.
  - apply well_formed_array in Hwf. cbn [sortObjectKeys]. f_equal.
    rewrite <- list_fmap_compose. apply Forall_fmap_ext_1.
    rewrite Forall_forall in IH, Hwf. apply Forall_forall. intros x Hx. by apply IH, Hwf.
  - apply well_formed_object in Hwf as [Hnd Hwf].
    rewrite (sortObjectKeys_build r).
    set (g := λ k, sortObjectKeys (get_prop r k)). set (S := sort_keys r.*1).
    set (R := build_object g S []).
    assert (S ≡ₚ r.*1) as HS by apply merge_sort_Permutation.
    assert (R ≡ₚ (λ k, (k, g k)) <$> filter (λ k, k ≠ "__proto__") S) as HR.
    { apply (build_object_Permutation g S []). simpl. by rewrite HS. }
    assert (R.*1 ≡ₚ filter (λ k, k ≠ "__proto__") S) as HRk
      by by rewrite HR, fmap_key_of_pairs.
    assert (NoDup R.*1) as HRnd.
    { rewrite HRk. apply NoDup_filter. by rewrite HS. }
    rewrite (sortObjectKeys_build R).
    rewrite (sort_keys_Permutation _ _ HRk), <- sort_keys_filter. unfold S at 1.
    rewrite sort_keys_sorted. fold S. f_equal.
    transitivity (build_object g (filter (λ k, k ≠ "__proto__") S) []);
      [|apply build_object_skips_proto].
    apply fold_set_prop_ext.
    intros k [Hne Hk]%list_elem_of_filter.
    assert ((k, g k) ∈ R) as Hin.
    { rewrite HR. apply list_elem_of_fmap. exists k. split; [done|].
      by apply list_elem_of_filter. }
    rewrite (get_prop_NoDup R k (g k) HRnd Hin). unfold g.
    rewrite HS in Hk. apply get_prop_elem in Hk.
    rewrite Forall_forall in IH, Hwf. apply (IH _ Hk), (Hwf _ Hk).
Qed.

(** Normalization keeps the property names other than [__proto__]. *)
Lemma sortObjectKeys_keys (r : list (string * JsValue)) :
  NoDup r.*1 →
  ∃ R, sortObjectKeys (JObject r) = JObject R ∧
       R.*1 ≡ₚ filter (λ k, k ≠ "__proto__") r.*1.
Proof.
  intros Hnd. rewrite sortObjectKeys_build. eexists. split; [done|].
  assert (sort_keys r.*1 ≡ₚ r.*1) as HS by apply merge_sort_Permutation.
  rewrite (build_object_Permutation _ (sort_keys r.*1) []) by (simpl; by rewrite HS).
  simpl. by rewrite fmap_key_of_pairs, HS.
Qed.

Lemma ToString_sortObjectKeys (v : JsValue) :
  well_formed v → ToString (sortObjectKeys v) = ToString v.
Proof.
  induction v as [| | | | | |l IH|r IH] using JsValue_nested_ind; intros Hwf; try done.
  - apply well_formed_array in Hwf. cbn [sortObjectKeys]. rewrite !ToString_array. f_equal.
    induction l as [|x l IHl]; [done|].
    apply Forall_cons in IH as [Hx IH]. apply Forall_cons in Hwf as [Hwx Hwf].
    cbn [map elems_to_strings]. rewrite (IHl IH Hwf).
    assert (elem_to_string (sortObjectKeys x) = elem_to_string x) as ->; [|done].
    specialize (Hx Hwx). destruct x; try done.
  - apply well_formed_object in Hwf as [Hnd _].
    destruct (sortObjectKeys_keys r Hnd) as (R & -> & HR). cbn [ToString].
    assert (has_prop R "toString" = has_prop r "toString") as ->; [|done].
    apply eq_true_iff_eq. rewrite !has_prop_elem, HR, list_elem_of_filter. by split; [intros []|].
Qed.

(** X8.  Normalization is stable: on data whose objects have distinct
    property names, none of them [__proto__], [sortObjectKeys] applied to
    its own result changes nothing, and the key of already normalized data
    is the key of the data, also where there is none. *)
Theorem normalization_is_idempotent (method url : string) (data : JsValue) :
  well_formed data →
  no_proto_property data →
  sortObjectKeys (sortObjectKeys data) = sortObjectKeys data ∧
  generateKey method url (sortObjectKeys data) = generateKey method url data.
Proof.
  intros Hwf _. pose proof (sortObjectKeys_idempotent data Hwf) as Hi. split; [done|].
  assert (dataKey_of (sortObjectKeys data) = dataKey_of data) as Hk.
  { unfold dataKey_of. by rewrite Hi, ToString_sortObjectKeys. }
  unfold generateKey. rewrite Hk. by destruct data.
Qed.

Lemma normalization_is_idempotent_witness :
  sortObjectKeys (sortObjectKeys payload_b) = sortObjectKeys payload_b ∧
  generateKey "post" "/orders" (sortObjectKeys payload_b) = generateKey "post" "/orders" payload_a.
Proof.
  assert (well_formed payload_b) as Hwf.
  { repeat split; distinct_keys. }
  assert (no_proto_property payload_b) as Hnp.
  { repeat split; by apply (bool_decide_unpack _). }
  destruct (normalization_is_idempotent "post" "/orders" payload_b Hwf Hnp) as [Hi Hk].
  split; [exact Hi|]. rewrite Hk. reflexivity.
Defined.

(** ** A property named [__proto__] *)

Lemma get_prop_filter_ne (r : list (string * JsValue)) (name k : string) :
  k ≠ name → get_prop (filter (λ kv, kv.1 ≠ name) r) k = get_prop r k.
Proof.
  intros Hne. induction r as [|[k' v] r IH]; [done|].
  destruct (decide (k' = name)) as [->|Hk'].
  - rewrite filter_cons_False by (by intros ?). cbn [get_prop].
    by rewrite decide_False by done.
  - rewrite filter_cons_True by done. cbn [get_prop]. by rewrite IH.
Qed.

Lemma keys_filter_ne (r : list (string * JsValue)) (name : string) :
  (filter (λ kv, kv.1 ≠ name) r).*1 = filter (λ k, k ≠ name) r.*1.
Proof.
  induction r as [|[k' v] r IH]; [done|]. rewrite fmap_cons. simpl.
  destruct (decide (k' = name)) as [->|Hk'].
  - by rewrite !filter_cons_False by (by intros ?).
  - rewrite !filter_cons_True by done. by rewrite fmap_cons, IH.
Qed.

(** X9.  An own property named [__proto__] never reaches the key: the
    assignment [result[key] = ...] creates no property of that name, so
    normalization drops it, and an object gets the key of the same object
    without that property, whatever the property's value. *)
Theorem proto_property_never_reaches_key (method url : string) (r : list (string * JsValue)) :
  sortObjectKeys (JObject r) =
    sortObjectKeys (JObject (filter (λ kv, kv.1 ≠ "__proto__") r)) ∧
  generateKey method url (JObject r) =
    generateKey method url (JObject (filter (λ kv, kv.1 ≠ "__proto__") r)).
Proof.
  assert (sortObjectKeys (JObject r) =
          sortObjectKeys (JObject (filter (λ kv, kv.1 ≠ "__proto__") r))) as Hs.
  { rewrite !sortObjectKeys_build. f_equal.
    rewrite keys_filter_ne, <- sort_keys_filter.
    rewrite <- (build_object_skips_proto _ (sort_keys r.*1) []).
    apply fold_set_prop_ext. intros k [Hne _]%list_elem_of_filter.
    by rewrite get_prop_filter_ne. }
  split; [done|]. unfold generateKey, dataKey_of. rewrite Hs. cbn [ToString].
  assert (has_prop (filter (λ kv, kv.1 ≠ "__proto__") r) "toString" = has_prop r "toString")
    as ->; [|done].
  apply eq_true_iff_eq. rewrite !has_prop_elem, keys_filter_ne, list_elem_of_filter.
  by split; [intros []|].
Qed.

(** * Properties of the error handler *)

(** ** Substrings and letter case *)

Lemma starts_with_spec (s sub : string) :
  starts_with s sub = true ↔ ∃ post, s = sub +:+ post.
Proof.
  revert s. induction sub as [|c sub IH]; intros s; cbn [starts_with].
  - split; [|done]. intros _. exists s. by rewrite append_nil_l.
  - destruct s as [|d s].
    + split; [done|]. intros [post Hp]. by rewrite append_cons in Hp.
    + rewrite andb_true_iff, IH. split.
      * intros [->%Ascii.eqb_eq [post ->]]. by exists post.
      * intros [post Hp]. rewrite append_cons in Hp. injection Hp as -> ->.
        split; [apply Ascii.eqb_refl | by exists post].
Qed.

Lemma includes_spec (s sub : string) : includes s sub = true ↔ occurs_in sub s.
Proof.
  unfold occurs_in. induction s as [|d s IH]; cbn [includes]; rewrite orb_true_iff.
  - rewrite starts_with_spec. split.
    + intros [[post Hp]|?]; [|done]. exists EmptyString, post. by rewrite append_nil_l.
    + intros ([|c pre] & post & Hp); [|by rewrite append_cons in Hp].
      left. exists post. by rewrite append_nil_l in Hp.
  - rewrite starts_with_spec, IH. split.
    + intros [[post Hp]|(pre & post & ->)].
      * exists EmptyString, post. by rewrite append_nil_l.
      * exists (String d pre), post. by rewrite append_cons.
    + intros ([|c pre] & post & Hp).
      * left. exists post. by rewrite append_nil_l in Hp.
      * right. rewrite append_cons in Hp. injection Hp as -> ->. by exists pre, post.
Qed.

Lemma str_map_app (f : Ascii.ascii → Ascii.ascii) (s1 s2 : string) :
  str_map f (s1 +:+ s2) = str_map f s1 +:+ str_map f s2.
Proof.
  induction s1 as [|c s1 IH]; [done|].
  rewrite append_cons. cbn [str_map]. by rewrite append_cons, IH.
Qed.

Lemma lower_char_idempotent (c : Ascii.ascii) : lower_char (lower_char c) = lower_char c.
Proof. by destruct c as [[] [] [] [] [] [] [] []]. Qed.

Lemma toLowerCase_idempotent (s : string) : toLowerCase (toLowerCase s) = toLowerCase s.
Proof.
  unfold toLowerCase. induction s as [|c s IH]; [done|].
  cbn [str_map]. by rewrite lower_char_idempotent, IH.
Qed.

Lemma occurs_in_context (sub s pre post : string) :
  occurs_in sub s → occurs_in sub (pre +:+ s +:+ post).
Proof.
  intros (pre' & post' & ->). exists (pre +:+ pre'), (post' +:+ post).
  by rewrite !append_assoc.
Qed.

(** ** The matcher and the language of a pattern *)

Lemma append_eq_nil (s1 s2 : string) :
  s1 +:+ s2 = EmptyString → s1 = EmptyString ∧ s2 = EmptyString.
Proof. destruct s1; [by rewrite append_nil_l | by rewrite append_cons]. Qed.

Lemma append_eq_cons (s1 s2 : string) (c : Ascii.ascii) (s : string) :
  s1 +:+ s2 = String c s →
  (s1 = EmptyString ∧ s2 = String c s) ∨ ∃ s1', s1 = String c s1' ∧ s = s1' +:+ s2.
Proof.
  destruct s1 as [|c1 s1].
  - rewrite append_nil_l. by left.
  - rewrite append_cons. intros [= -> <-]. right. by exists s1.
Qed.

Lemma seq_inv (r1 r2 : Regex) (s : string) :
  in_lang (ReSeq r1 r2) s → ∃ s1 s2, s = s1 +:+ s2 ∧ in_lang r1 s1 ∧ in_lang r2 s2.
Proof. intros H. inversion H; subst. eauto. Qed.

Lemma alt_inv (r1 r2 : Regex) (s : string) :
  in_lang (ReAlt r1 r2) s → in_lang r1 s ∨ in_lang r2 s.
Proof. intros H. inversion H; subst; auto. Qed.

Lemma char_inv (p : Ascii.ascii → bool) (s : string) :
  in_lang (ReChar p) s → ∃ c, s = str1 c ∧ p c = true.
Proof. intros H. inversion H; subst. eauto. Qed.

Lemma nullable_spec (r : Regex) : nullable r = true ↔ in_lang r EmptyString.
Proof.
  induction r as [| |p|r1 IH1 r2 IH2|r1 IH1 r2 IH2|r IH]; cbn [nullable].
  - split; [done|]. inversion 1.
  - split; [constructor|done].
  - split; [done|]. by intros (c & ? & _)%char_inv.
  - rewrite andb_true_iff, IH1, IH2. split.
    + intros [H1 H2]. apply (lang_seq _ _ EmptyString EmptyString H1 H2).
    + intros (s1 & s2 & Heq & H1 & H2)%seq_inv.
      symmetry in Heq. apply append_eq_nil in Heq as [-> ->]. done.
  - rewrite orb_true_iff, IH1, IH2. split.
    + intros [?|?]; [by apply lang_alt_l | by apply lang_alt_r].
    + apply alt_inv.
  - split; [constructor | done].
Qed.

(** A non-empty word of a starred language starts with a non-empty word
    of the language. *)
Lemma star_cons_inv (r : Regex) (c : Ascii.ascii) (s : string) :
  in_lang (ReStar r) (String c s) →
  ∃ s1 s2, s = s1 +:+ s2 ∧ in_lang r (String c s1) ∧ in_lang (ReStar r) s2.
Proof.
  intros H. remember (ReStar r) as r' eqn:Hr. remember (String c s) as w eqn:Hw.
  revert s Hw. induction H as [| | | | | |r0 s1 s2 H1 _ H2 IH2]; intros w' Hw; try done.
  injection Hr as ->. apply append_eq_cons in Hw as [[-> ->]|(s1' & -> & ->)].
  - by apply IH2.
  - by exists s1', s2.
Qed.

Lemma derivative_spec (r : Regex) (c : Ascii.ascii) (s : string) :
  in_lang (derivative c r) s ↔ in_lang r (String c s).
Proof.
  revert s. induction r as [| |p|r1 IH1 r2 IH2|r1 IH1 r2 IH2|r IH]; intros s;
    cbn [derivative].
  - split; inversion 1.
  - split; inversion 1.
  - destruct (p c) eqn:Hp; split.
    + inversion 1. by apply (lang_char p c).
    + intros (c' & [= <- ->] & _)%char_inv. constructor.
    + inversion 1.
    + intros (c' & [= <- _] & ?)%char_inv. congruence.
  - assert (in_lang (ReSeq (derivative c r1) r2) s →
            in_lang (ReSeq r1 r2) (String c s)) as Hleft.
    { intros (s1 & s2 & -> & H1 & H2)%seq_inv.
      apply IH1 in H1. apply (lang_seq _ _ (String c s1) s2 H1 H2). }
    assert (in_lang (ReSeq r1 r2) (String c s) →
            in_lang (ReSeq (derivative c r1) r2) s ∨
            (in_lang r1 EmptyString ∧ in_lang (derivative c r2) s)) as Hright.
    { intros (s1 & s2 & Heq & H1 & H2)%seq_inv. symmetry in Heq.
      apply append_eq_cons in Heq as [[-> ->]|(s1' & -> & ->)].
      - right. split; [done | by apply IH2].
      - left. apply lang_seq; [by apply IH1 | done]. }
    destruct (nullable r1) eqn:Hn; split.
    + intros [?|?]%alt_inv; [by apply Hleft|].
      apply nullable_spec in Hn.
      apply (lang_seq _ _ EmptyString (String c s) Hn). by apply IH2.
    + intros [?|[_ ?]]%Hright; [by apply lang_alt_l | by apply lang_alt_r].
    + apply Hleft.
    + intros [?|[Hn' _]]%Hright; [done|]. apply nullable_spec in Hn'. congruence.
  - split.
    + intros [?|?]%alt_inv; [apply lang_alt_l; by apply IH1 | apply lang_alt_r; by apply IH2].
    + intros [?|?]%alt_inv; [apply lang_alt_l; by apply IH1 | apply lang_alt_r; by apply IH2].
  - split.
    + intros (s1 & s2 & -> & H1 & H2)%seq_inv. apply IH in H1.
      apply (lang_star_cons _ (String c s1) s2 H1 H2).
    + intros (s1 & s2 & -> & H1 & H2)%star_cons_inv. apply lang_seq; [by apply IH | done].
Qed.

Lemma matches_spec (r : Regex) (s : string) : matches r s = true ↔ in_lang r s.
Proof.
  revert r. induction s as [|c s IH]; intros r; cbn [matches].
  - apply nullable_spec.
  - by rewrite IH, derivative_spec.
Qed.

Lemma in_lang_any (s : string) : in_lang ReAny s.
Proof.
  induction s as [|c s IH]; [constructor|].
  apply (lang_star_cons _ (str1 c) s); [by constructor | done].
Qed.

(** [test] finds a member of the language somewhere in the text. *)
Lemma regex_test_spec (pattern : Regex) (text : string) :
  regex_test pattern text = true ↔ ∃ m, in_lang pattern m ∧ occurs_in m text.
Proof.
  unfold regex_test. rewrite matches_spec. split.
  - intros (pre & rest & -> & _ & (m & post & -> & Hm & _)%seq_inv)%seq_inv.
    exists m. split; [done|]. by exists pre, post.
  - intros (m & Hm & pre & post & ->).
    apply lang_seq; [apply in_lang_any|]. apply lang_seq; [done | apply in_lang_any].
Qed.

(** ** What counts as sensitive *)

Lemma keywords_are_lower_case :
  Forall (λ kw, toLowerCase kw = kw ∧ kw ≠ EmptyString) SENSITIVE_KEYWORDS.
Proof. apply (bool_decide_unpack _). by vm_compute. Qed.

Lemma toLowerCase_nonempty (s : string) : toLowerCase s = EmptyString ↔ s = EmptyString.
Proof. by destruct s. Qed.

(** [containsSensitiveInfo] in terms of occurrences: a keyword in the
    lower-cased text, or a member of a pattern's language in the text. *)
Lemma containsSensitiveInfo_spec (text : string) :
  containsSensitiveInfo text = true ↔
  text ≠ EmptyString ∧
  ((∃ kw, kw ∈ SENSITIVE_KEYWORDS ∧ occurs_in kw (toLowerCase text)) ∨
   (∃ pattern m, pattern ∈ PATH_PATTERNS ∧ in_lang pattern m ∧ occurs_in m text)).
Proof.
  assert (containsSensitiveInfo text =
          match text with
          | EmptyString => false
          | _ => existsb (λ kw, includes (toLowerCase text) (toLowerCase kw)) SENSITIVE_KEYWORDS
                 || existsb (λ pattern, regex_test pattern text) PATH_PATTERNS
          end) as -> by by destruct text.
  destruct text as [|c t]; [by split; [|intros [? _]]|].
  set (text := String c t). rewrite orb_true_iff, !existsb_exists. split.
  - intros H. split; [done|]. destruct H as [(kw & Hin & Hinc)|(pattern & Hin & Ht)].
    + left. exists kw. apply list_elem_of_In in Hin. split; [done|].
      pose proof keywords_are_lower_case as Hl. rewrite Forall_forall in Hl.
      destruct (Hl kw Hin) as [Hkw _]. rewrite Hkw in Hinc. by apply includes_spec.
    + right. apply regex_test_spec in Ht as (m & Hm & Ho). exists pattern, m.
      by rewrite list_elem_of_In.
  - intros [_ [(kw & Hin & Ho)|(pattern & m & Hin & Hm & Ho)]].
    + left. exists kw. split; [by apply list_elem_of_In|].
      pose proof keywords_are_lower_case as Hl. rewrite Forall_forall in Hl.
      destruct (Hl kw Hin) as [Hkw _]. rewrite Hkw. by apply includes_spec.
    + right. exists pattern. split; [by apply list_elem_of_In|].
      apply regex_test_spec. eauto.
Qed.

Lemma occurs_in_nonempty (sub s : string) :
  sub ≠ EmptyString → occurs_in sub s → s ≠ EmptyString.
Proof.
  intros Hne (pre & post & ->) Heq.
  apply append_eq_nil in Heq as [_ Heq]. by apply append_eq_nil in Heq as [? _].
Qed.

(** X10.  [containsSensitiveInfo] flags every text in which a keyword of
    [SENSITIVE_KEYWORDS] occurs, in whatever mix of upper and lower case
    and whatever surrounds it. *)
Theorem keyword_in_any_case_is_sensitive (kw w pre post : string) :
  kw ∈ SENSITIVE_KEYWORDS →
  toLowerCase w = kw →
  containsSensitiveInfo (pre +:+ w +:+ post) = true.
Proof.
  intros Hin Hw. pose proof keywords_are_lower_case as Hl. rewrite Forall_forall in Hl.
  destruct (Hl kw Hin) as [_ Hne].
  assert (occurs_in kw (toLowerCase (pre +:+ w +:+ post))) as Ho.
  { exists (toLowerCase pre), (toLowerCase post). unfold toLowerCase in *.
    by rewrite !str_map_app, Hw. }
  apply containsSensitiveInfo_spec. split; [|left; eauto].
  intros Heq. apply (occurs_in_nonempty kw _ Hne Ho). by rewrite Heq.
Qed.

(** The keyword [key] inside an ordinary word. *)
Lemma keyword_in_any_case_is_sensitive_witness :
  containsSensitiveInfo "Monkey business" = true.
Proof.
  apply (keyword_in_any_case_is_sensitive "key" "key" "Mon" " business"); [|reflexivity].
  apply (bool_decide_unpack _). by vm_compute.
Defined.

(** X11.  Sensitivity cannot be hidden by padding: a text that contains a
    sensitive text, with anything before and after it, is sensitive. *)
Theorem sensitive_text_stays_sensitive_in_context (s pre post : string) :
  containsSensitiveInfo s = true →
  containsSensitiveInfo (pre +:+ s +:+ post) = true.
Proof.
  rewrite !containsSensitiveInfo_spec. intros [Hne H]. split.
  - intros Heq. apply append_eq_nil in Heq as [_ Heq]. by apply append_eq_nil in Heq as [? _].
  - destruct H as [(kw & Hin & Ho)|(pattern & m & Hin & Hm & Ho)].
    + left. exists kw. split; [done|]. unfold toLowerCase in *. rewrite !str_map_app.
      by apply occurs_in_context.
    + right. exists pattern, m. split_and!; [done..|]. by apply occurs_in_context.
Qed.

Lemma sensitive_text_stays_sensitive_in_context_witness :
  containsSensitiveInfo "at line 7" = true ∧
  containsSensitiveInfo ("Request failed (" +:+ "at line 7" +:+ "), retry later") = true.
Proof.
  split; [reflexivity|].
  apply (sensitive_text_stays_sensitive_in_context "at line 7"). reflexivity.
Defined.

(** X12.  In production mode [filterSensitiveData] returns a detail only
    unchanged, and only when it is a non-empty string of at most 200
    characters in which no keyword occurs in any letter case and no
    substring matches a path pattern. *)
Theorem filterSensitiveData_in_production (detail : JsValue) (s : string) :
  filterSensitiveData detail false = Some s →
  detail = JString s ∧
  s ≠ EmptyString ∧
  (String.length s ≤ 200)%nat ∧
  (∀ kw w, kw ∈ SENSITIVE_KEYWORDS → toLowerCase w = kw → ¬ occurs_in w s) ∧
  (∀ pattern m, pattern ∈ PATH_PATTERNS → in_lang pattern m → ¬ occurs_in m s).
Proof.
  intros Hf. destruct detail as [| | | | |d| |]; try done. destruct d as [|c d]; [done|].
  cbn [filterSensitiveData] in Hf.
  destruct (containsSensitiveInfo (String c d)) eqn:Hc; cbn [orb] in Hf; [done|].
  destruct (200 <? String.length (String c d))%nat eqn:Hlen; [done|].
  injection Hf as <-. apply Nat.ltb_ge in Hlen. split_and!; [done | done | exact Hlen | |].
  - intros kw w Hin Hw (pre & post & Heq).
    rewrite Heq, (keyword_in_any_case_is_sensitive kw w pre post Hin Hw) in Hc. done.
  - intros pattern m Hin Hm Ho.
    assert (containsSensitiveInfo (String c d) = true); [|congruence].
    apply containsSensitiveInfo_spec. split; [done|]. right. eauto.
Qed.

Lemma filterSensitiveData_in_production_witness :
  filterSensitiveData (JString "Order 5 was not found") false = Some "Order 5 was not found"%string ∧
  ¬ occurs_in "KEY" "Order 5 was not found" ∧
  filterSensitiveData (JString "Monkey business") false = None ∧
  filterSensitiveData (JString "Monkey business") true = Some "Monkey business"%string.
Proof.
  split; [reflexivity|]. split; [|split; reflexivity].
  destruct (filterSensitiveData_in_production (JString "Order 5 was not found")
              "Order 5 was not found" eq_refl) as (_ & _ & _ & Hkw & _).
  apply (Hkw "key" "KEY"); [|reflexivity]. apply (bool_decide_unpack _). by vm_compute.
Defined.

(** ** Error codes and ranges *)

Lemma first_range_app (errorCode : Z) (pre post : list Range.ErrorCodeRangeConfig) :
  Forall (λ r, in_range errorCode r = false) pre →
  first_range errorCode (pre ++ post) = first_range errorCode post.
Proof. induction 1 as [|r pre Hr _ IH]; [done|]. simpl. by rewrite Hr. Qed.

Lemma first_range_Some (errorCode : Z) (ranges : list Range.ErrorCodeRangeConfig)
    (range : Range.ErrorCodeRangeConfig) :
  first_range errorCode ranges = Some range →
  range ∈ ranges ∧ in_range errorCode range = true.
Proof.
  induction ranges as [|r ranges IH]; [done|]. cbn [first_range].
  destruct (in_range errorCode r) eqn:Hr.
  - intros [= <-]. split; [left | done].
  - intros [Hin ?]%IH. split; [by right | done].
Qed.

(** X13.  Where ranges overlap, the first range in the list that contains
    the code decides both the message and the retry flag.  A predefined
    message for the code overrides the range's message when it is not the
    empty string; an empty predefined message counts as none. *)
Theorem first_matching_range_decides
    (errorCode : Z) (messages : gmap Z string) (pre post : list Range.ErrorCodeRangeConfig)
    (range : Range.ErrorCodeRangeConfig) (fallback : option string) :
  Forall (λ r, in_range errorCode r = false) pre →
  in_range errorCode range = true →
  let ranges := Some (pre ++ range :: post) in
  isRetryableError errorCode ranges = Range.isRetryable range ∧
  (messages !! errorCode = None ∨ messages !! errorCode = Some EmptyString →
   getUserFriendlyMessage errorCode (Some messages) ranges fallback =
     Range.defaultMessage range) ∧
  (∀ m, messages !! errorCode = Some m → m ≠ EmptyString →
        getUserFriendlyMessage errorCode (Some messages) ranges fallback = m).
Proof.
  intros Hpre Hin ranges.
  assert (first_range errorCode (pre ++ range :: post) = Some range) as Hfirst.
  { rewrite first_range_app by done. cbn [first_range]. by rewrite Hin. }
  unfold isRetryableError, getUserFriendlyMessage. simpl. rewrite Hfirst. split_and!.
  - done.
  - by intros [-> | ->].
  - intros m -> Hm. by destruct m.
Qed.

Lemma first_matching_range_decides_witness :
  let wide := {| Range.start := 0; Range.end_ := 1000; Range.defaultMessage := "wide";
                 Range.isRetryable := false |} in
  let narrow := {| Range.start := 400; Range.end_ := 500; Range.defaultMessage := "narrow";
                   Range.isRetryable := true |} in
  isRetryableError 404 (Some [narrow; wide]) = true ∧
  isRetryableError 404 (Some [wide; narrow]) = false ∧
  getUserFriendlyMessage 404 (Some {[ 404 := EmptyString ]}) (Some [wide; narrow]) None
    = "wide"%string.
Proof.
  intros wide narrow.
  destruct (first_matching_range_decides 404 {[ 404 := EmptyString ]} [] [wide] narrow None)
    as (H1 & _); [constructor | reflexivity |].
  destruct (first_matching_range_decides 404 {[ 404 := EmptyString ]} [] [narrow] wide None)
    as (H2 & H3 & _); [constructor | reflexivity |].
  split; [exact H1|]. split; [exact H2|]. apply H3. right. reflexivity.
Defined.

Lemma in_range_true (errorCode : Z) (range : Range.ErrorCodeRangeConfig) :
  Range.start range ≤ errorCode < Range.end_ range → in_range errorCode range = true.
Proof.
  intros H. unfold in_range. rewrite !bool_decide_true; [done | lia..].
Qed.

Lemma in_range_false (errorCode : Z) (range : Range.ErrorCodeRangeConfig) :
  errorCode < Range.start range ∨ Range.end_ range ≤ errorCode →
  in_range errorCode range = false.
Proof.
  intros H. unfold in_range. apply andb_false_iff.
  destruct H; [left | right]; apply bool_decide_eq_false; lia.
Qed.

(** X14.  With the default ranges and no predefined message: codes from
    100000 up to, not including, 600000 get the message of their block of
    100000, and are retryable in the first, third and fifth block only;
    every other code gets the fallback message and is not retryable. *)
Theorem default_ranges_table (errorCode : Z) :
  let message := getUserFriendlyMessage errorCode None None None in
  let retry := isRetryableError errorCode None in
  (100000 ≤ errorCode < 200000 →
     message = "System error, please try again later"%string ∧ retry = true) ∧
  (200000 ≤ errorCode < 300000 → message = "Authentication required"%string ∧ retry = false) ∧
  (300000 ≤ errorCode < 400000 →
     message = "Operation failed, please retry"%string ∧ retry = true) ∧
  (400000 ≤ errorCode < 500000 → message = "Data processing failed"%string ∧ retry = false) ∧
  (500000 ≤ errorCode < 600000 →
     message = "Service temporarily unavailable"%string ∧ retry = true) ∧
  (errorCode < 100000 ∨ 600000 ≤ errorCode →
     message = "Operation failed, please retry"%string ∧ retry = false).
Proof.
  unfold getUserFriendlyMessage, isRetryableError. simpl. rewrite lookup_empty.
  split_and!; intros H;
    rewrite ?in_range_false by (simpl; lia);
    try (rewrite in_range_true by (simpl; lia)); done.
Qed.

Lemma default_ranges_table_witness :
  isRetryableError 199999 None = true ∧ isRetryableError 200000 None = false ∧
  getUserFriendlyMessage 99999 None None None = "Operation failed, please retry"%string.
Proof.
  destruct (default_ranges_table 199999) as (H1 & _).
  destruct (default_ranges_table 200000) as (_ & H2 & _).
  destruct (default_ranges_table 99999) as (_ & _ & _ & _ & _ & H6).
  split; [apply H1; lia|]. split; [apply H2; lia|]. apply H6. lia.
Defined.

(** ** Normalizing and handling *)

(** X15.  An error made by [createError] comes back from [normalizeError]
    with the same code, message, detail and stack, the name [Error], and
    itself as the original error; [handleError] therefore reports its code
    and message, and looks a numeric code up as it is. *)
Theorem createError_normalizeError_round_trip
    (stack : option string) (code : JsValue) (message : string) (detail : JsValue) :
  code ≠ JUndefined →
  code ≠ JNull →
  let created := createError stack code message detail in
  normalizeError (Instance created) =
    Some {| App.name := "Error"; App.message := message; App.stack := stack;
            App.code := code; App.detail := detail; App.originalError := Some created |} ∧
  (∀ h, Result.code <$> handleError h (Instance created) = Some code ∧
        Result.message <$> handleError h (Instance created) = Some message ∧
        Result.detail <$> handleError h (Instance created) =
          Some (filterSensitiveData detail (isDev h))) ∧
  (∀ h n, code = JNumber n →
          Result.userMessage <$> handleError h (Instance created) =
            Some (getUserFriendlyMessage n (Some (messages h)) (Some (ranges h)) None) ∧
          Result.isRetryable <$> handleError h (Instance created) =
            Some (isRetryableError n (Some (ranges h)))).
Proof.
  intros Hu Hn created.
  assert (normalizeError (Instance created) =
          Some {| App.name := "Error"; App.message := message; App.stack := stack;
                  App.code := code; App.detail := detail;
                  App.originalError := Some created |}) as Hnorm.
  { unfold normalizeError, created, createError. simpl. by destruct code. }
  split_and!; [done | |].
  - intros h. unfold handleError. by rewrite Hnorm.
  - intros h n ->. unfold handleError. by rewrite Hnorm.
Qed.

Lemma createError_normalizeError_round_trip_witness :
  let h := new_ErrorHandler None None None in
  let error := Instance (createError None (JNumber 500123) "upstream timed out"
                           (JString "Order 5 was not found")) in
  Result.code <$> handleError h error = Some (JNumber 500123) ∧
  Result.isRetryable <$> handleError h error = Some true ∧
  Result.userMessage <$> handleError h error = Some "Service temporarily unavailable"%string.
Proof.
  intros h error.
  destruct (createError_normalizeError_round_trip None (JNumber 500123) "upstream timed out"
              (JString "Order 5 was not found")) as (_ & Hc & Hn); [discriminate..|].
  destruct (Hn h 500123 eq_refl) as [Hm Hr]. destruct (Hc h) as (Hcode & _).
  subst error. split; [exact Hcode|]. split; [rewrite Hr | rewrite Hm]; reflexivity.
Defined.

(** X16.  [normalizeError] throws exactly when the error is a plain object
    whose [message], or when that is [null] or [undefined] whose [error],
    has a [String] conversion that throws, and [handleError] throws exactly
    when [normalizeError] does.  Whenever they return, the code of the
    normalized error is not [null] or [undefined], [handleError] reports
    that code, and it reports the error as retryable only when the code,
    taken as 0 unless it is a number, lies in a range of the handler that
    is marked retryable. *)
Theorem handled_errors_have_a_code (h : ErrorHandler) (error : ErrorValue) :
  (normalizeError error = None ↔
   ∃ r, error = Plain (JObject r) ∧
        ToString (coalesce (coalesce (get_prop r "message") (get_prop r "error"))
                    (JString "Unknown error")) = None) ∧
  (handleError h error = None ↔ normalizeError error = None) ∧
  (∀ normalized,
     normalizeError error = Some normalized →
     App.code normalized ≠ JUndefined ∧
     App.code normalized ≠ JNull ∧
     ∃ result,
       handleError h error = Some result ∧
       Result.code result = App.code normalized ∧
       (Result.isRetryable result = true →
        ∃ range,
          range ∈ ranges h ∧ Range.isRetryable range = true ∧
          in_range (errorCode_of normalized) range = true)).
Proof.
  assert (∀ v, coalesce v (JString "UNKNOWN_ERROR") ≠ JUndefined ∧
               coalesce v (JString "UNKNOWN_ERROR") ≠ JNull) as Hco by by intros [].
  split_and!.
  - destruct error as [e|v]; [by split; [|intros (? & ? & _)]|].
    destruct v as [| | | | | |l|r]; simpl; try by split; [|intros (? & ? & _)].
    destruct (ToString _) as [message|] eqn:Hm; simpl.
    + split; [done|]. intros (r' & [= <-] & Hr'). congruence.
    + split; [|done]. intros _. by exists r.
  - unfold handleError. by destruct (normalizeError error).
  - intros normalized Hnorm. split_and!.
    + destruct error as [e|[]]; simpl in Hnorm;
        try destruct (ToString _); try done; injection Hnorm as <-; simpl; done || apply Hco.
    + destruct error as [e|[]]; simpl in Hnorm;
        try destruct (ToString _); try done; injection Hnorm as <-; simpl; done || apply Hco.
    + unfold handleError. rewrite Hnorm. simpl. eexists. split; [done|]. split; [done|].
      simpl. unfold isRetryableError. simpl.
      destruct (first_range _ (ranges h)) as [range|] eqn:Hf; [|done].
      intros Hr. apply first_range_Some in Hf as [Hin Hrange]. by exists range.
Qed.

(** An object with a code and an error text is handled; one whose message
    cannot be converted is not. *)
Lemma handled_errors_have_a_code_witness :
  let h := new_ErrorHandler None None None in
  let error := Plain (JObject [("code"%string, JNumber 100001); ("error"%string, JString "x")]) in
  (∃ result, handleError h error = Some result ∧ Result.code result = JNumber 100001) ∧
  handleError h (Plain (JObject [("message"%string, JObject [("toString"%string, JNumber 5)]);
                                 ("code"%string, JNumber 100001)])) = None.
Proof.
  intros h error. split.
  - destruct (handled_errors_have_a_code h error) as (_ & _ & Hr).
    destruct (Hr _ eq_refl) as (_ & _ & result & Hres & Hcode & _).
    exists result. split; [exact Hres | exact Hcode].
  - reflexivity.
Defined.
